(** * The review pipeline of the pull-request reviewer

    A shallow embedding of [src/core-reviewer.ts] (class [PullRequestReviewer])
    and of the two triggering paths ([PollingPRReviewer.scanRepository] and
    [WebhookPRReviewer]'s webhook route and [processPRReview]).

    Conventions of the embedding.
    - A JavaScript string is a sequence of 16-bit code units.  The model uses
      [string], whose units are 8 bits wide: it covers the strings all of whose
      code units are below 256.  Every character the code inspects (brackets,
      braces, quote, backslash, newline, [+], [-], [@]) is ASCII.  Literals of
      the source that hold emoji are written here in their UTF-8 encoding;
      they occur in banners and attribution markers only.
    - [async] functions are run to completion: a promise that rejects is an
      exception.  Exceptions are explicit ([Result]), logging is dropped.
    - Calls that leave the process (GitHub's REST API, the model endpoint) and
      the built-ins [JSON.parse] and [ToString] are parameters of the
      development. *)

From Stdlib Require Import Ascii String QArith Qcanon.
From stdpp Require Import gmap strings list pretty.

(* ================================================================= *)
(** ** JavaScript strings *)

Definition newline : ascii := "010"%char.
Definition nl : string := String newline EmptyString.

(** [s.startsWith(p)] *)
Fixpoint startsWith (s p : string) : bool :=
  match p with
  | EmptyString => true
  | String a p' =>
      match s with
      | EmptyString => false
      | String b s' => Ascii.eqb a b && startsWith s' p'
      end
  end.

(** [s.split('\n')] *)
Fixpoint split_lines (s : string) : list string :=
  match s with
  | EmptyString => [EmptyString]
  | String c s' =>
      if Ascii.eqb c newline then EmptyString :: split_lines s'
      else match split_lines s' with
           | l :: ls => String c l :: ls
           | [] => [String c EmptyString]
           end
  end.

(** [ls.join('\n')] *)
Definition join_lines (ls : list string) : string := String.concat nl ls.

(** No code unit of [s] is a newline. *)
Fixpoint oneLine (s : string) : Prop :=
  match s with
  | EmptyString => True
  | String c s' => Ascii.eqb c newline = false ∧ oneLine s'
  end.

(* ================================================================= *)
(** ** Diff Segmenter: [splitIntoHunks] *)

Record Hunk := {
  hunk_content : string;
  hunk_additions : nat;
  hunk_deletions : nat
}.

(** The first loop: at most ten leading lines, up to the first hunk header. *)
Fixpoint captureHeaders (limit : nat) (diffLines : list string) : list string :=
  match limit, diffLines with
  | S limit', line :: rest =>
      if startsWith line "@@" then [] else line :: captureHeaders limit' rest
  | _, _ => []
  end.

Definition isAddition (line : string) : bool :=
  startsWith line "+" && negb (startsWith line "+++").

Definition isDeletion (line : string) : bool :=
  startsWith line "-" && negb (startsWith line "---").

(** The mutable locals of the second loop. *)
Record SplitState := {
  hunks : list Hunk;
  currentHunk : list string;
  currentAdditions : nat;
  currentDeletions : nat
}.

Definition initialSplitState : SplitState :=
  {| hunks := []; currentHunk := []; currentAdditions := 0; currentDeletions := 0 |}.

(** [hunks.push({content: [...headerLines, ...currentHunk].join('\n'), ...})] *)
Definition pushHunk (headerLines : list string) (hs : list Hunk)
    (cur : list string) (adds dels : nat) : list Hunk :=
  hs ++ [ {| hunk_content := join_lines (headerLines ++ cur);
             hunk_additions := adds;
             hunk_deletions := dels |} ].

(** One iteration of [for (const line of diffLines)]. *)
Definition splitStep (headerLines : list string) (st : SplitState) (line : string)
    : SplitState :=
  if startsWith line "@@" then
    {| hunks := if 0 <? length (currentHunk st)
                then pushHunk headerLines (hunks st) (currentHunk st)
                       (currentAdditions st) (currentDeletions st)
                else hunks st;
       currentHunk := [line];
       currentAdditions := 0;
       currentDeletions := 0 |}
  else
    let cur := currentHunk st ++ [line] in
    let adds := if isAddition line then S (currentAdditions st) else currentAdditions st in
    let dels := if isAddition line then currentDeletions st
                else if isDeletion line then S (currentDeletions st)
                else currentDeletions st in
    if 100 <? length cur then
      {| hunks := pushHunk headerLines (hunks st) cur adds dels;
         currentHunk := [];
         currentAdditions := 0;
         currentDeletions := 0 |}
    else
      {| hunks := hunks st;
         currentHunk := cur;
         currentAdditions := adds;
         currentDeletions := dels |}.

Definition splitIntoHunks (diffLines : list string) : list Hunk :=
  let headerLines := captureHeaders 10 diffLines in
  let st := fold_left (splitStep headerLines) diffLines initialSplitState in
  let final :=
    if 0 <? length (currentHunk st)
    then pushHunk headerLines (hunks st) (currentHunk st)
           (currentAdditions st) (currentDeletions st)
    else hunks st in
  if 0 <? length final then final
  else [ {| hunk_content := join_lines diffLines;
            hunk_additions := 0;
            hunk_deletions := 0 |} ].

(** The part of a chunk after the shared header lines. *)
Definition hunkPortion (headerLines : list string) (h : Hunk) : list string :=
  drop (length headerLines) (split_lines (hunk_content h)).

Definition isHunkHeader (line : string) : bool := startsWith line "@@".

(** The portion begins with a hunk header. *)
Definition startsHunk (p : list string) : Prop :=
  ∃ l t, p = l :: t ∧ isHunkHeader l = true.

(** A hunk header occurs in the portion at its first line only. *)
Definition headerOnlyFirst (p : list string) : Prop :=
  Forall (λ l, isHunkHeader l = false) (tail p).

(** Two portions that follow each other: the boundary between them is the
    start of a hunk, or the first one was cut by the size limit. *)
Definition adjacentOk (ps : list (list string)) : Prop :=
  ∀ i p q, ps !! i = Some p → ps !! S i = Some q →
    length p = 101 ∨ startsHunk q.

Definition countAdditions (p : list string) : nat := length (List.filter isAddition p).
Definition countDeletions (p : list string) : nat := length (List.filter isDeletion p).

(** The lines of the diff from the first hunk header on: its hunks. *)
Fixpoint hunkLines (diffLines : list string) : list string :=
  match diffLines with
  | [] => []
  | line :: rest => if isHunkHeader line then diffLines else hunkLines rest
  end.

(** Chunk coverage the way the specification words it: the portions of the
    chunks, put together, are the hunks of the diff, and every chunk holds
    whole hunks (its portion opens with a hunk header). *)
Definition chunkCoverage (patch : string) : Prop :=
  let diffLines := split_lines patch in
  let ps := map (hunkPortion (captureHeaders 10 diffLines)) (splitIntoHunks diffLines) in
  concat ps = hunkLines diffLines ∧ Forall startsHunk ps.

(** A diff with one hunk of 101 added lines. *)
Definition largeHunkPatch : string :=
  join_lines ("@@ -0,0 +1,101 @@" :: replicate 101 "+x").


(** The chunk pushed for the lines [body] collected since the last push. *)
Definition mkChunk (headerLines body : list string) : Hunk :=
  {| hunk_content := join_lines (headerLines ++ body);
     hunk_additions := countAdditions body;
     hunk_deletions := countDeletions body |}.

(** What a chunk's portion looks like. *)
Definition portionOk (p : list string) : Prop :=
  p ≠ [] ∧ length p ≤ 101 ∧ headerOnlyFirst p.

(** Loop invariant of the second loop of [splitIntoHunks], after the lines
    [seen]; [bodies] are the portions of the chunks pushed so far. *)
Record SplitInv (headerLines seen : list string) (st : SplitState)
    (bodies : list (list string)) : Prop := {
  inv_hunks : hunks st = map (mkChunk headerLines) bodies;
  inv_lines : concat bodies ++ currentHunk st = seen;
  inv_bodies : Forall portionOk bodies;
  inv_cur_len : length (currentHunk st) ≤ 100;
  inv_cur_hdr : headerOnlyFirst (currentHunk st);
  inv_adds : currentAdditions st = countAdditions (currentHunk st);
  inv_dels : currentDeletions st = countDeletions (currentHunk st);
  inv_adj : adjacentOk bodies;
  inv_last : ∀ b, last bodies = Some b →
               length b = 101 ∨ startsHunk (currentHunk st)
}.


(* ================================================================= *)
(** ** Exceptions *)

(** A JavaScript computation that completes: normally with a value, or
    abruptly with a thrown error (its message). *)
Inductive Result (A : Type) : Type :=
  | Ok (a : A)
  | Throw (message : string).
Arguments Ok {A} a.
Arguments Throw {A} message.

Definition isOk {A : Type} (r : Result A) : bool :=
  match r with Ok _ => true | Throw _ => false end.

(* ================================================================= *)
(** ** Prompt Builder: [buildPrompt] and [calculateMaxDiffLength] *)

(** A file of [pulls.listFiles]; [patch] is absent for binary files. *)
Record ChangedFile := {
  file_filename : string;
  file_status : string;
  file_additions : nat;
  file_deletions : nat;
  file_changes : nat;
  file_patch : option string
}.

(** [file.additions || 0] is [file.additions] for a count. *)
Definition calculateMaxDiffLength (file : ChangedFile) : nat :=
  let baseLength := 1500 in
  let additions := file_additions file in
  let extraLength := Nat.min (additions * 10) 1000 in
  baseLength + extraLength.

Definition truncationMarker : string := "... (content truncated for brevity)".

(** [for (const line of lines)] with its [break]. *)
Fixpoint truncateLoop (maxDiffLength : nat) (lines truncatedLines : list string)
    (currentLength : nat) : list string :=
  match lines with
  | [] => truncatedLines
  | line :: rest =>
      if maxDiffLength <? currentLength + String.length line
      then truncatedLines ++ [truncationMarker]
      else truncateLoop maxDiffLength rest (truncatedLines ++ [line])
             (currentLength + (String.length line + 1))
  end.

(** The local [diff] of [buildPrompt] once the truncation block is passed. *)
Definition promptDiff (file : ChangedFile) (patch : string) : string :=
  let maxDiffLength := calculateMaxDiffLength file in
  if maxDiffLength <? String.length patch
  then join_lines (truncateLoop maxDiffLength (split_lines patch) [] 0)
  else patch.

Definition dquote : string := String "034"%char EmptyString.

(** ["key":"value"] *)
Definition jsonField (key value : string) : string :=
  dquote +:+ key +:+ dquote +:+ ":" +:+ dquote +:+ value +:+ dquote.

Definition systemPrompt : string :=
  "Code security reviewer. Find critical bugs, security vulnerabilities, performance issues. Return ONLY valid JSON array."
  +:+ nl +:+ nl +:+
  "Format: [{" +:+ jsonField "path" "file.ts" +:+ "," +:+ dquote +:+ "line" +:+ dquote +:+ ":1,"
  +:+ jsonField "severity" "error|warning|info" +:+ ","
  +:+ jsonField "message" "brief issue" +:+ ","
  +:+ jsonField "suggestion" "concise fix" +:+ "}]"
  +:+ nl +:+ nl +:+
  "Focus on: SQL injection, XSS, hardcoded secrets, command injection, path traversal, prototype pollution, insecure crypto."
  +:+ nl +:+
  "Rules: Only significant issues, prioritize security/errors over style, use + line numbers, return [] if clean.".

(** [buildPrompt(file, pullRequest)]; reading [length] of an absent patch
    throws. *)
Definition buildPrompt (file : ChangedFile) : Result string :=
  match file_patch file with
  | None => Throw "Cannot read properties of undefined (reading 'length')"
  | Some patch =>
      let diff := promptDiff file patch in
      let userPrompt :=
        "File: " +:+ file_filename file
        +:+ " (+" +:+ pretty (file_additions file)
        +:+ "/-" +:+ pretty (file_deletions file) +:+ ")"
        +:+ nl +:+ nl +:+ diff +:+ nl +:+ nl +:+ "JSON only:" in
      Ok (systemPrompt +:+ nl +:+ nl +:+ userPrompt)
  end.

(** The sum of the lengths of the lines, each with its newline. *)
Definition linesLength (ls : list string) : nat :=
  foldr (λ l n, String.length l + 1 + n) 0 ls.

(** The bound of the specification: budget plus marker. *)
Definition truncationBound (file : ChangedFile) (patch : string) : Prop :=
  calculateMaxDiffLength file < String.length patch →
  String.length (promptDiff file patch)
    ≤ calculateMaxDiffLength file + String.length truncationMarker.

(** A file without additions whose patch is a line of 1500 characters
    followed by a short line. *)
Definition longLineFile : ChangedFile :=
  {| file_filename := "a.ts"; file_status := "modified";
     file_additions := 0; file_deletions := 0; file_changes := 0;
     file_patch := None |}.

Definition longLinePatch : string :=
  string_of_list_ascii (replicate 1500 "a"%char) +:+ nl +:+ "x".


#[global] Instance Result_ret : MRet Result := λ A a, Ok a.
#[global] Instance Result_bind : MBind Result := λ A B f r,
  match r with
  | Ok a => f a
  | Throw e => Throw e
  end.

(** [try { body } catch (e) { handler(e) }] *)
Definition tryCatch {A : Type} (body : Result A) (handler : string → Result A) : Result A :=
  match body with
  | Ok a => Ok a
  | Throw e => handler e
  end.

(* ================================================================= *)
(** ** Response Repairer: [repairIncompleteJson] *)

(** White space of [String.prototype.trim] among the code units below 256:
    tab, line feed, vertical tab, form feed, carriage return, space and
    no-break space. *)
Definition isWhiteSpace (c : ascii) : bool :=
  let n := nat_of_ascii c in
  ((9 <=? n) && (n <=? 13)) || (n =? 32) || (n =? 160).

Fixpoint trimStart (s : string) : string :=
  match s with
  | EmptyString => EmptyString
  | String c s' => if isWhiteSpace c then trimStart s' else s
  end.

Definition trimEnd (s : string) : string := String.rev (trimStart (String.rev s)).

Definition trim (s : string) : string := trimEnd (trimStart s).

(** The locals of the scan. *)
Record ScanState := {
  openBrackets : Z;
  openBraces : Z;
  inString : bool;
  escaped : bool;
  lastCompleteObjectIndex : Z
}.

Definition initialScanState : ScanState :=
  {| openBrackets := 0; openBraces := 0; inString := false; escaped := false;
     lastCompleteObjectIndex := -1 |}.

(** The body of [for (let i = 0; i < repairedJson.length; i++)]. *)
Definition scanStep (st : ScanState) (i : Z) (char : ascii) : ScanState :=
  if escaped st then
    {| openBrackets := openBrackets st; openBraces := openBraces st;
       inString := inString st; escaped := false;
       lastCompleteObjectIndex := lastCompleteObjectIndex st |}
  else if Ascii.eqb char "\"%char then
    {| openBrackets := openBrackets st; openBraces := openBraces st;
       inString := inString st; escaped := true;
       lastCompleteObjectIndex := lastCompleteObjectIndex st |}
  else if Ascii.eqb char "034"%char then
    {| openBrackets := openBrackets st; openBraces := openBraces st;
       inString := negb (inString st); escaped := false;
       lastCompleteObjectIndex := lastCompleteObjectIndex st |}
  else if negb (inString st) then
    if Ascii.eqb char "["%char then
      {| openBrackets := openBrackets st + 1; openBraces := openBraces st;
         inString := false; escaped := false;
         lastCompleteObjectIndex := lastCompleteObjectIndex st |}
    else if Ascii.eqb char "]"%char then
      {| openBrackets := openBrackets st - 1; openBraces := openBraces st;
         inString := false; escaped := false;
         lastCompleteObjectIndex := lastCompleteObjectIndex st |}
    else if Ascii.eqb char "{"%char then
      {| openBrackets := openBrackets st; openBraces := openBraces st + 1;
         inString := false; escaped := false;
         lastCompleteObjectIndex := lastCompleteObjectIndex st |}
    else if Ascii.eqb char "}"%char then
      let braces := (openBraces st - 1)%Z in
      {| openBrackets := openBrackets st; openBraces := braces;
         inString := false; escaped := false;
         lastCompleteObjectIndex :=
           if (braces =? 0)%Z && (openBrackets st =? 1)%Z then i
           else lastCompleteObjectIndex st |}
    else st
  else st.

Fixpoint scanFrom (i : Z) (s : string) (st : ScanState) : ScanState :=
  match s with
  | EmptyString => st
  | String char s' => scanFrom (i + 1) s' (scanStep st i char)
  end.

(** [while (n > 0) { s += close; n--; }] appends [n] copies of [close]. *)
Definition closers (close : ascii) (n : Z) : string :=
  string_of_list_ascii (replicate (Z.to_nat n) close).

(** Nothing in the [try] block can throw: the [catch] is never entered. *)
Definition repairIncompleteJson (jsonString : string) : string :=
  let repairedJson := trim jsonString in
  let st := scanFrom 0 repairedJson initialScanState in
  let repairedJson :=
    if ((0 <? openBraces st)%Z || (1 <? openBrackets st)%Z)
       && (-1 <? lastCompleteObjectIndex st)%Z
    then String.substring 0 (Z.to_nat (lastCompleteObjectIndex st + 1)) repairedJson
    else repairedJson in
  repairedJson +:+ closers "}" (openBraces st) +:+ closers "]" (openBrackets st).

(** The truncation branch of [repairIncompleteJson] is taken. *)
Definition truncates (jsonString : string) : Prop :=
  let st := scanFrom 0 (trim jsonString) initialScanState in
  (0 < openBraces st ∨ 1 < openBrackets st)%Z ∧ (-1 < lastCompleteObjectIndex st)%Z.

(** A complete comment object and the start of a second one, as a response
    cut by the token limit looks. *)
Definition firstComment : string :=
  "{" +:+ jsonField "path" "a.ts" +:+ "," +:+ dquote +:+ "line" +:+ dquote +:+ ":1,"
      +:+ jsonField "severity" "error" +:+ "," +:+ jsonField "message" "m" +:+ "}".

Definition cutResponse : string :=
  "[" +:+ firstComment +:+ ",{" +:+ jsonField "path" "b.ts" +:+ "," +:+ dquote +:+ "li".

(** In a JSON text the brackets and braces outside string literals pair up:
    the scan of a valid text ends with both counters at zero. *)
Definition closesEvenly (s : string) : Prop :=
  let st := scanFrom 0 s initialScanState in
  openBraces st = 0%Z ∧ openBrackets st = 0%Z.

(** The state of the scan just after a top-level element closed. *)
Definition atElementEnd (st : ScanState) : Prop :=
  openBraces st = 0%Z ∧ openBrackets st = 1%Z ∧ inString st = false ∧ escaped st = false.


(* ================================================================= *)
(** ** JavaScript values *)

(** A number: not-a-number, an infinity, or a finite value (the rational it
    denotes; the two zeros are not told apart). *)
Inductive JsNumber :=
  | NaN
  | Infinity (negative : bool)
  | Finite (q : Qc).

#[local] Unset Elimination Schemes.
Inductive JsValue :=
  | JUndefined
  | JNull
  | JBoolean (b : bool)
  | JNumber (n : JsNumber)
  | JString (s : string)
  | JArray (elements : list JsValue)
  | JObject (properties : gmap string JsValue).
#[local] Set Elimination Schemes.

(** [ToBoolean] *)
Definition truthy (v : JsValue) : bool :=
  match v with
  | JUndefined | JNull => false
  | JBoolean b => b
  | JNumber NaN => false
  | JNumber (Infinity _) => true
  | JNumber (Finite q) => negb (bool_decide (q = 0%Qc))
  | JString s => negb (String.eqb s "")
  | JArray _ | JObject _ => true
  end.

(** [v.key] for one of the keys the reviewer reads ([path], [line],
    [severity], [message], [suggestion]): an own property of an object,
    [undefined] on any other value but [null] and [undefined], where the
    access throws. *)
Definition getProperty (v : JsValue) (key : string) : Result JsValue :=
  match v with
  | JUndefined => Throw "Cannot read properties of undefined"
  | JNull => Throw "Cannot read properties of null"
  | JObject properties => Ok (default JUndefined (properties !! key))
  | _ => Ok JUndefined
  end.

(** [n <= 0] *)
Definition numberLeZero (n : JsNumber) : bool :=
  match n with
  | NaN => false
  | Infinity negative => negative
  | Finite q => bool_decide (q ≤ 0)%Qc
  end.

(** [Array.isArray(v)] *)
Definition isArray (v : JsValue) : bool :=
  match v with JArray _ => true | _ => false end.

(** [arr.filter(callback)] with a callback that may throw. *)
Fixpoint arrayFilter (callback : JsValue → Result bool) (arr : list JsValue)
    : Result (list JsValue) :=
  match arr with
  | [] => Ok []
  | x :: rest =>
      keep ← callback x;
      kept ← arrayFilter callback rest;
      Ok (if keep : bool then x :: kept else kept)
  end.

(* ================================================================= *)
(** ** Response Parser: [parseGeminiResponse] *)

(** The callback of [comments.filter] in [parseGeminiResponse]. *)
Definition validComment (comment : JsValue) : Result bool :=
  path ← getProperty comment "path";
  if negb (truthy path) then Ok false else
  message ← getProperty comment "message";
  if negb (truthy message) then Ok false else
  line ← getProperty comment "line";
  if negb (truthy line) then Ok false else
  severity ← getProperty comment "severity";
  if negb (truthy severity) then Ok false else
  severity ← getProperty comment "severity";
  if negb (match severity with
           | JString s => bool_decide (s ∈ ["error"; "warning"; "info"])
           | _ => false
           end) then Ok false else
  line ← getProperty comment "line";
  match line with
  | JNumber n => if numberLeZero n then Ok false else Ok true
  | _ => Ok false
  end.

(** From [if (!Array.isArray(jsonData))] to [return validComments]. *)
Definition validateComments (jsonData : JsValue) : Result (list JsValue) :=
  match jsonData with
  | JArray comments => arrayFilter validComment comments
  | _ => Ok []
  end.

Fixpoint lastIndexOfFrom (c : ascii) (s : string) (i : nat) (found : option nat)
    : option nat :=
  match s with
  | EmptyString => found
  | String c' s' =>
      lastIndexOfFrom c s' (S i) (if Ascii.eqb c' c then Some i else found)
  end.

(** [s.substring(start)] *)
Definition substringFrom (start : nat) (s : string) : string :=
  String.substring start (String.length s - start) s.

(** [response.match(/\[[\s\S]*\]/)]: the text from the first opening bracket
    to the last closing bracket after it, when there is one. *)
Definition matchJsonArray (response : string) : option string :=
  match String.index 0 "[" response with
  | None => None
  | Some start =>
      let rest := substringFrom start response in
      match lastIndexOfFrom "]" rest 0 None with
      | Some close => Some (String.substring 0 (S close) rest)
      | None => None
      end
  end.

Section Parser.

(** [JSON.parse]: the value of a JSON text, or a [SyntaxError]. *)
Variable JSON_parse : string → Result JsValue.

(** The first, inner [try] block. *)
Definition parseDirect (response : string) : Result JsValue :=
  jsonData ← JSON_parse (trim response);
  if isArray jsonData then Ok jsonData
  else Throw "Response is not a JSON array".

(** The [catch (parseError)] block: the value for [jsonData], or [None]
    where the block leaves the function by [return []]. *)
Definition extractJson (response : string) : option JsValue :=
  match matchJsonArray response with
  | None =>
      match String.index 0 "[" response with
      | Some arrayStart =>
          let jsonString := substringFrom arrayStart response in
          let jsonString := repairIncompleteJson jsonString in
          match JSON_parse jsonString with
          | Ok jsonData => Some jsonData
          | Throw _ => None
          end
      | None => None
      end
  | Some jsonMatch =>
      match JSON_parse jsonMatch with
      | Ok jsonData => Some jsonData
      | Throw _ =>
          let repairedJson := repairIncompleteJson jsonMatch in
          match JSON_parse repairedJson with
          | Ok jsonData => Some jsonData
          | Throw _ => None
          end
      end
  end.

(** The outer [try] block. *)
Definition parseGeminiResponse_try (response : string) : Result (list JsValue) :=
  match parseDirect response with
  | Ok jsonData => validateComments jsonData
  | Throw _ =>
      match extractJson response with
      | Some jsonData => validateComments jsonData
      | None => Ok []
      end
  end.

(** [parseGeminiResponse(response, filename)]; the file name goes to the
    log only. *)
Definition parseGeminiResponse (response filename : string) : Result (list JsValue) :=
  tryCatch (parseGeminiResponse_try response) (λ _, Ok []).

(** The ways a response is beyond recovery. *)
Inductive Unrecoverable (response : string) : Prop :=
  | NoArrayPresent :
      isOk (parseDirect response) = false →
      String.index 0 "[" response = None →
      Unrecoverable response
  | UnparseableAfterRepair (arrayStart : nat) :
      isOk (parseDirect response) = false →
      matchJsonArray response = None →
      String.index 0 "[" response = Some arrayStart →
      isOk (JSON_parse (repairIncompleteJson (substringFrom arrayStart response))) = false →
      Unrecoverable response
  | UnparseableExtract (jsonMatch : string) :
      isOk (parseDirect response) = false →
      matchJsonArray response = Some jsonMatch →
      isOk (JSON_parse jsonMatch) = false →
      isOk (JSON_parse (repairIncompleteJson jsonMatch)) = false →
      Unrecoverable response
  | NotAnArray (jsonData : JsValue) :
      isOk (parseDirect response) = false →
      extractJson response = Some jsonData →
      isArray jsonData = false →
      Unrecoverable response.

End Parser.

(** A comment the validation of [parseGeminiResponse] lets through. *)
Definition passesValidation (comment : JsValue) : Prop :=
  ∃ properties path message severity line,
    comment = JObject properties ∧
    properties !! "path" = Some path ∧ truthy path = true ∧
    properties !! "message" = Some message ∧ truthy message = true ∧
    properties !! "severity" = Some (JString severity) ∧
    severity ∈ ["error"; "warning"; "info"] ∧
    properties !! "line" = Some (JNumber line) ∧
    truthy (JNumber line) = true ∧ numberLeZero line = false.



(** A whole number, one or more ([q] is in lowest terms). *)
Definition positiveInteger (n : JsNumber) : Prop :=
  match n with
  | Finite q => Qden (this q) = 1%positive ∧ (1 ≤ Qnum (this q))%Z
  | _ => False
  end.

(** A comment that is valid in the words of the specification: non-empty
    path and message, a severity of the closed set, an integer line of at
    least one. *)
Definition specValidComment (comment : JsValue) : Prop :=
  ∃ properties path message severity line,
    comment = JObject properties ∧
    properties !! "path" = Some (JString path) ∧ path ≠ "" ∧
    properties !! "message" = Some (JString message) ∧ message ≠ "" ∧
    properties !! "severity" = Some (JString severity) ∧
    severity ∈ ["error"; "warning"; "info"] ∧
    properties !! "line" = Some (JNumber line) ∧ positiveInteger line.


(** A comment object with the given line. *)
Definition commentAt (path : string) (line : JsNumber) (message : string) : JsValue :=
  JObject (<["path" := JString path]>
          (<["line" := JNumber line]>
          (<["severity" := JString "error"]>
          (<["message" := JString message]> ∅)))).

(** The number of an integer literal. *)
Definition integerNumber (z : Z) : JsNumber := Finite (Q2Qc (inject_Z z)).

Definition oneAndAHalf : JsNumber := Finite (Q2Qc (3 # 2)).

(** A parser that rejects every text. *)
Definition rejectAll (text : string) : Result JsValue := Throw "SyntaxError".


(* ================================================================= *)
(** ** More of the JavaScript library *)

(** [s.includes(part)] *)
Definition includes (s part : string) : bool :=
  match String.index 0 part s with
  | Some _ => true
  | None => false
  end.

(** [s.endsWith(suffix)] *)
Definition endsWith (s suffix : string) : bool :=
  startsWith (String.rev s) (String.rev suffix).

Definition mapUnits (f : ascii → ascii) (s : string) : string :=
  string_of_list_ascii (map f (list_ascii_of_string s)).

(** Lower case of a code unit below 256: the letters A-Z and the accented
    capitals of Latin-1. *)
Definition toLowerCaseUnit (c : ascii) : ascii :=
  let n := nat_of_ascii c in
  if ((65 <=? n) && (n <=? 90)) || ((192 <=? n) && (n <=? 214))
     || ((216 <=? n) && (n <=? 222))
  then ascii_of_nat (n + 32) else c.

Definition toLowerCase (s : string) : string := mapUnits toLowerCaseUnit s.

(** Upper case of an ASCII code unit.  The only receiver of [toUpperCase] in
    the reviewer is a severity. *)
Definition toUpperCaseUnit (c : ascii) : ascii :=
  let n := nat_of_ascii c in
  if (97 <=? n) && (n <=? 122) then ascii_of_nat (n - 32) else c.

Definition toUpperCase (s : string) : string := mapUnits toUpperCaseUnit s.

Section ToString.

(** [ToString] on the values whose rendering is not spelled out below:
    numbers that are not integers of moderate size, arrays, objects. *)
Variable otherToString : JsValue → string.

(** [ToString], as a template literal or [+] with a string applies it. *)
Definition toString (v : JsValue) : string :=
  match v with
  | JUndefined => "undefined"
  | JNull => "null"
  | JBoolean true => "true"
  | JBoolean false => "false"
  | JNumber NaN => "NaN"
  | JNumber (Infinity false) => "Infinity"
  | JNumber (Infinity true) => "-Infinity"
  | JNumber (Finite q) =>
      if bool_decide (Qden (this q) = 1%positive)
         && bool_decide (Z.abs (Qnum (this q)) < 10 ^ 21)%Z
      then pretty (Qnum (this q))
      else otherToString v
  | JString s => s
  | JArray _ | JObject _ => otherToString v
  end.

(* =============================================================== *)
(** ** Comment Deduplicator: [filterDuplicateComments] *)

(** [`${comment.path}:${comment.line}`] *)
Definition commentKey (comment : JsValue) : Result string :=
  path ← getProperty comment "path";
  line ← getProperty comment "line";
  Ok (toString path +:+ ":" +:+ toString line).

Definition filterDuplicateComments (comments : list JsValue) (existing : gset string)
    : Result (list JsValue) :=
  arrayFilter (λ comment,
                 key ← commentKey comment;
                 Ok (negb (bool_decide (key ∈ existing))))
              comments.

(* =============================================================== *)
(** ** Posting: [postReviewComments] *)

(** An element of [comments] in the parameters of [pulls.createReview]. *)
Record ReviewCommentParams := {
  rc_path : JsValue;
  rc_line : JsValue;
  rc_body : string
}.

(** The parameters of [pulls.createReview]. *)
Record CreateReviewParams := {
  cr_owner : string;
  cr_repo : string;
  cr_pull_number : nat;
  cr_body : string;
  cr_event : string;
  cr_comments : list ReviewCommentParams
}.

(** The functions every object inherits from [Object.prototype]. *)
Definition inheritedFunctions : list string :=
  ["constructor"; "hasOwnProperty"; "isPrototypeOf"; "propertyIsEnumerable";
   "toLocaleString"; "toString"; "valueOf"; "__defineGetter__"; "__defineSetter__";
   "__lookupGetter__"; "__lookupSetter__"].

(** [`${severityEmoji[severity]}`]: the text of the emoji for the three
    severities of the table.  The table is an object literal, so a severity
    that names an inherited function finds that function, rendered as its
    native source text, and [__proto__] finds the prototype object; any
    other text finds nothing.  For a severity that is no string the text is
    of no account, since [toUpperCase] then throws. *)
Definition severityEmoji (severity : JsValue) : string :=
  match severity with
  | JString "error" => "🔴"
  | JString "warning" => "🟡"
  | JString "info" => "🔵"
  | JString "__proto__" => "[object Object]"
  | JString name =>
      if bool_decide (name ∈ inheritedFunctions)
      then "function " +:+ name +:+ "() { [native code] }"
      else "undefined"
  | _ => "undefined"
  end.

(** [comment.severity.toUpperCase()]: a method of strings only. *)
Definition severityToUpperCase (severity : JsValue) : Result string :=
  match severity with
  | JString s => Ok (toUpperCase s)
  | _ => Throw "comment.severity.toUpperCase is not a function"
  end.

Definition formatCommentBody (comment : JsValue) : Result string :=
  severity ← getProperty comment "severity";
  upper ← severityToUpperCase severity;
  message ← getProperty comment "message";
  let body := "🤖 **AI CODE REVIEW** 🤖" +:+ nl +:+ nl
              +:+ severityEmoji severity
              +:+ " **" +:+ upper +:+ "**: " +:+ toString message in
  suggestion ← getProperty comment "suggestion";
  let body :=
    if truthy suggestion
    then body +:+ nl +:+ nl +:+ "**🔧 AI Suggested fix:**" +:+ nl
              +:+ "```suggestion" +:+ nl +:+ toString suggestion +:+ nl +:+ "```"
    else body in
  Ok (body +:+ nl +:+ nl +:+ "---" +:+ nl
      +:+ "🤖 *This comment was automatically generated by Gemini AI* 🤖" +:+ nl
      +:+ "*Self-hosted PR Reviewer - Not a human review*").

Definition summaryFooter : string :=
  nl +:+ nl +:+ "---" +:+ nl
  +:+ "🤖 *Automatically generated by Self-hosted Gemini AI Reviewer*".

Definition buildSummaryComment (errors warnings info : nat) : string :=
  let total := errors + warnings + info in
  if total =? 0 then
    "🤖 **AI CODE REVIEW COMPLETE** 🤖" +:+ nl +:+ nl
    +:+ "✅ No issues found in this pull request." +:+ summaryFooter
  else
    let summary := "🤖 **AI CODE REVIEW SUMMARY** 🤖" +:+ nl +:+ nl in
    let summary :=
      if 0 <? errors
      then summary +:+ "🔴 **" +:+ pretty errors +:+ "** error(s) found" +:+ nl
      else summary in
    let summary :=
      if 0 <? warnings
      then summary +:+ "🟡 **" +:+ pretty warnings +:+ "** warning(s) found" +:+ nl
      else summary in
    let summary :=
      if 0 <? info
      then summary +:+ "🔵 **" +:+ pretty info +:+ "** info item(s) found" +:+ nl
      else summary in
    let summary :=
      summary +:+ nl
      +:+ "Please review the inline AI-generated comments for detailed feedback." in
    let summary :=
      if 0 <? errors
      then summary +:+ nl +:+ nl
           +:+ "⚠️ **This PR has critical issues that should be addressed before merging.**"
      else summary in
    summary +:+ summaryFooter.

(** [comments.filter(c => c.severity === severity).length] *)
Fixpoint countSeverity (severity : string) (comments : list JsValue) : Result nat :=
  match comments with
  | [] => Ok 0
  | c :: rest =>
      s ← getProperty c "severity";
      n ← countSeverity severity rest;
      Ok (match s with
          | JString s' => if String.eqb s' severity then S n else n
          | _ => n
          end)
  end.

(** [comments.map(comment => ({path, line, body}))] *)
Fixpoint reviewCommentsOf (comments : list JsValue) : Result (list ReviewCommentParams) :=
  match comments with
  | [] => Ok []
  | comment :: rest =>
      path ← getProperty comment "path";
      line ← getProperty comment "line";
      body ← formatCommentBody comment;
      others ← reviewCommentsOf rest;
      Ok ({| rc_path := path; rc_line := line; rc_body := body |} :: others)
  end.

(** A computation that posts reviews: the parameters of the calls of
    [pulls.createReview] it made, in order, and how it completed. *)
Definition Run (A : Type) : Type := (list CreateReviewParams * Result A)%type.

Definition posted {A : Type} (run : Run A) : list CreateReviewParams := fst run.
Definition completion {A : Type} (run : Run A) : Result A := snd run.

(** A computation that posts nothing. *)
Definition quiet {A : Type} (r : Result A) : Run A := ([], r).

Definition andThen {A B : Type} (run : Run A) (next : A → Run B) : Run B :=
  match run with
  | (calls, Ok a) => let '(calls', r) := next a in (calls ++ calls', r)
  | (calls, Throw e) => (calls, Throw e)
  end.

(** The REST calls of an authenticated client that the reviewer uses. *)
Record PullRequest := {
  pr_number : nat;
  pr_id : nat;
  pr_title : string;
  pr_draft : bool;
  pr_state : string;
  pr_head_sha : string;
  pr_updated_at : string
}.

Record Review := {
  review_id : nat;
  review_body : option string
}.

(** A comment of a posted review; [line] is [null] once outdated. *)
Record PostedComment := {
  posted_path : string;
  posted_line : option nat
}.

Record Octokit := {
  pulls_list : string → string → Result (list PullRequest);
  pulls_get : string → string → nat → Result PullRequest;
  pulls_listFiles : string → string → nat → Result (list ChangedFile);
  pulls_listReviews : string → string → nat → Result (list Review);
  pulls_listCommentsForReview : string → string → nat → nat → Result (list PostedComment);
  pulls_createReview : CreateReviewParams → Result unit
}.

Definition postReviewComments (octokit : Octokit) (owner repo : string)
    (prNumber : nat) (comments : list JsValue) : Run unit :=
  if length comments =? 0 then quiet (Ok ()) else
  andThen (quiet (countSeverity "error" comments)) (λ errorCount,
  andThen (quiet (countSeverity "warning" comments)) (λ warningCount,
  andThen (quiet (countSeverity "info" comments)) (λ infoCount,
  andThen (quiet (reviewCommentsOf comments)) (λ reviewComments,
  let reviewState := "COMMENT" in
  let summaryBody := buildSummaryComment errorCount warningCount infoCount in
  let params := {| cr_owner := owner; cr_repo := repo; cr_pull_number := prNumber;
                   cr_body := summaryBody; cr_event := reviewState;
                   cr_comments := reviewComments |} in
  ([params], pulls_createReview octokit params))))).

(* =============================================================== *)
(** ** Existing comments: [getExistingComments] *)

Definition isAttributed (review : Review) : bool :=
  match review_body review with
  | Some body => includes body "🤖 AI CODE REVIEW 🤖" || includes body "Generated by Gemini AI"
  | None => false
  end.

(** The inner [for (const comment of comments)]. *)
Definition addCommentKeys (commentKeys : gset string) (comments : list PostedComment)
    : gset string :=
  fold_left (λ keys comment,
               match posted_line comment with
               | Some line =>
                   if negb (String.eqb (posted_path comment) "") && negb (line =? 0)
                   then {[ posted_path comment +:+ ":" +:+ pretty line ]} ∪ keys
                   else keys
               | None => keys
               end)
            comments commentKeys.

(** The outer [for (const review of reviews)]. *)
Fixpoint collectCommentKeys (octokit : Octokit) (owner repo : string) (prNumber : nat)
    (reviews : list Review) (commentKeys : gset string) : Result (gset string) :=
  match reviews with
  | [] => Ok commentKeys
  | review :: rest =>
      if isAttributed review then
        comments ← pulls_listCommentsForReview octokit owner repo prNumber (review_id review);
        collectCommentKeys octokit owner repo prNumber rest
          (addCommentKeys commentKeys comments)
      else collectCommentKeys octokit owner repo prNumber rest commentKeys
  end.

Definition getExistingComments (octokit : Octokit) (owner repo : string)
    (prNumber : nat) : Result (gset string) :=
  tryCatch
    (reviews ← pulls_listReviews octokit owner repo prNumber;
     collectCommentKeys octokit owner repo prNumber reviews ∅)
    (λ _, Ok ∅).

End ToString.


(* ================================================================= *)
(** ** Review Orchestrator: [reviewPullRequest] *)

(** What the reviewer reaches outside the process: the installation client
    of a repository ([null] when the app is not installed there) and the
    model endpoint ([callGemini]: the text of the first candidate, or a
    thrown error). *)
Record Env := {
  getRepositoryOctokit : string → string → Result (option Octokit);
  callGemini : string → Result string
}.

Record Config := {
  maxFiles : nat;
  maxLinesPerFile : nat
}.

Definition nonReviewableExtensions : list string :=
  [".min.js"; ".map"; ".lock"; ".svg"; ".png"; ".jpg"; ".jpeg"; ".gif";
   ".pdf"; ".zip"; ".tar"; ".gz"; ".exe"; ".dll"; ".so"; ".dylib"].

Definition isReviewableFile (config : Config) (file : ChangedFile) : bool :=
  if String.eqb (file_status file) "removed" then false
  else if maxLinesPerFile config <? file_changes file then false
  else
    let filename := toLowerCase (file_filename file) in
    if existsb (λ ext, endsWith filename ext) nonReviewableExtensions then false
    else true.

(** [if (file.patch)]: present and not empty. *)
Definition hasPatch (file : ChangedFile) : bool :=
  match file_patch file with
  | Some patch => negb (String.eqb patch "")
  | None => false
  end.

Section Orchestrator.

Variable JSON_parse : string → Result JsValue.
Variable otherToString : JsValue → string.
Variable config : Config.

(** The body of the loop over the chunks, with its [try]/[catch]. *)
Definition reviewChunk (env : Env) (file : ChangedFile) (total : nat)
    (i : nat) (hunk : Hunk) : Result (list JsValue) :=
  tryCatch
    (let hunkFile := {| file_filename := file_filename file;
                        file_status := file_status file;
                        file_additions := hunk_additions hunk;
                        file_deletions := hunk_deletions hunk;
                        file_changes := file_changes file;
                        file_patch := Some (hunk_content hunk) |} in
     prompt ← buildPrompt hunkFile;
     response ← callGemini env prompt;
     parseGeminiResponse JSON_parse response
       (file_filename file +:+ "[" +:+ pretty (i + 1) +:+ "/" +:+ pretty total +:+ "]"))
    (λ _, Ok []).

Fixpoint reviewChunks (env : Env) (file : ChangedFile) (total : nat)
    (i : nat) (hunks : list Hunk) : Result (list JsValue) :=
  match hunks with
  | [] => Ok []
  | hunk :: rest =>
      comments ← reviewChunk env file total i hunk;
      others ← reviewChunks env file total (S i) rest;
      Ok (comments ++ others)
  end.

Definition reviewLargeFile (env : Env) (file : ChangedFile) : Result (list JsValue) :=
  tryCatch
    (match file_patch file with
     | None => Throw "Cannot read properties of undefined (reading 'split')"
     | Some patch =>
         let diffLines := split_lines patch in
         let hunks := splitIntoHunks diffLines in
         reviewChunks env file (length hunks) 0 hunks
     end)
    (λ _, Ok []).

Definition reviewFile (env : Env) (file : ChangedFile) : Result (list JsValue) :=
  tryCatch
    (let diffLength := match file_patch file with
                       | Some patch => String.length patch
                       | None => 0
                       end in
     let maxSingleRequestLength := 3000 in
     if (maxSingleRequestLength <? diffLength) && (50 <? file_additions file)
     then reviewLargeFile env file
     else
       prompt ← buildPrompt file;
       response ← callGemini env prompt;
       parseGeminiResponse JSON_parse response (file_filename file))
    (λ _, Ok []).

(** [for (const file of reviewableFiles)] *)
Fixpoint reviewFiles (env : Env) (files : list ChangedFile) : Result (list JsValue) :=
  match files with
  | [] => Ok []
  | file :: rest =>
      comments ← (if hasPatch file then reviewFile env file else Ok []);
      others ← reviewFiles env rest;
      Ok (comments ++ others)
  end.

(** The [catch] of [reviewPullRequest] logs and throws the error again. *)
Definition reviewPullRequest (env : Env) (owner repo : string) (prNumber : nat)
    : Run unit :=
  andThen (quiet (getRepositoryOctokit env owner repo)) (λ client,
  match client with
  | None => quiet (Ok ())
  | Some octokit =>
      andThen (quiet (pulls_get octokit owner repo prNumber)) (λ pullRequest,
      if pr_draft pullRequest then quiet (Ok ())
      else if negb (String.eqb (pr_state pullRequest) "open") then quiet (Ok ())
      else
        andThen (quiet (pulls_listFiles octokit owner repo prNumber)) (λ files,
        if length files =? 0 then quiet (Ok ()) else
        let reviewableFiles :=
          take (maxFiles config) (List.filter (isReviewableFile config) files) in
        if length reviewableFiles =? 0 then quiet (Ok ()) else
        andThen (quiet (getExistingComments octokit owner repo prNumber))
          (λ existingComments,
        andThen (quiet (reviewFiles env reviewableFiles)) (λ allComments,
        andThen (quiet (filterDuplicateComments otherToString allComments existingComments))
          (λ newComments,
        if length newComments =? 0 then quiet (Ok ())
        else postReviewComments otherToString octokit owner repo prNumber newComments)))))
  end).

(** The key of both [processedPRs] maps: [`${owner}/${repo}#${number}`]. *)
Definition prKeyOf (owner repo : string) (number : nat) : string :=
  owner +:+ "/" +:+ repo +:+ "#" +:+ pretty number.

End Orchestrator.

(* ================================================================= *)
(** ** Polling path: [PollingPRReviewer.scanRepository] *)

Module Polling.

Record ProcessedPR := {
  id : string;
  updated_at : string;
  head_sha : string
}.

Section Scan.

Variable JSON_parse : string → Result JsValue.
Variable otherToString : JsValue → string.
Variable config : Config.

(** [isNew || hasNewCommits] *)
Definition isNew (processedPRs : gmap string ProcessedPR) (prKey : string) : bool :=
  match processedPRs !! prKey with
  | None => true
  | Some _ => false
  end.

Definition hasNewCommits (processedPRs : gmap string ProcessedPR) (prKey : string)
    (pr : PullRequest) : bool :=
  match processedPRs !! prKey with
  | None => false
  | Some processedPR => negb (String.eqb (pr_head_sha pr) (head_sha processedPR))
  end.

(** The body of [for (const pr of pullRequests)]: the calls of
    [pulls.createReview] made, and [processedPRs] afterwards. *)
Definition scanPullRequest (env : Env) (owner repo : string)
    (processedPRs : gmap string ProcessedPR) (pr : PullRequest)
    : list CreateReviewParams * gmap string ProcessedPR :=
  let prKey := prKeyOf owner repo (pr_number pr) in
  if isNew processedPRs prKey || hasNewCommits processedPRs prKey pr then
    match reviewPullRequest JSON_parse otherToString config env owner repo (pr_number pr) with
    | (calls, Ok _) =>
        (calls, <[prKey := {| id := pretty (pr_id pr);
                              updated_at := pr_updated_at pr;
                              head_sha := pr_head_sha pr |}]> processedPRs)
    | (calls, Throw _) => (calls, processedPRs)
    end
  else ([], processedPRs).

Fixpoint scanPullRequests (env : Env) (owner repo : string)
    (processedPRs : gmap string ProcessedPR) (pullRequests : list PullRequest)
    : list CreateReviewParams * gmap string ProcessedPR :=
  match pullRequests with
  | [] => ([], processedPRs)
  | pr :: rest =>
      let '(calls, processedPRs') := scanPullRequest env owner repo processedPRs pr in
      let '(calls', processedPRs'') := scanPullRequests env owner repo processedPRs' rest in
      (calls ++ calls', processedPRs'')
  end.

(** [scanRepository(owner, repo)] of a reviewer whose services are
    configured; every failure of the scan itself is logged and dropped. *)
Definition scanRepository (env : Env) (owner repo : string)
    (processedPRs : gmap string ProcessedPR)
    : list CreateReviewParams * gmap string ProcessedPR :=
  match getRepositoryOctokit env owner repo with
  | Ok (Some octokit) =>
      match pulls_list octokit owner repo with
      | Ok pullRequests => scanPullRequests env owner repo processedPRs pullRequests
      | Throw _ => ([], processedPRs)
      end
  | Ok None => ([], processedPRs)
  | Throw _ => ([], processedPRs)
  end.

End Scan.

End Polling.

(* ================================================================= *)
(** ** Webhook path: the [/webhook] route and [processPRReview] *)

Module Webhook.

Record ProcessedPR := {
  id : string;
  head_sha : string;
  reviewed_at : string
}.

(** The fields of the payload the route reads. *)
Record WebhookPayload := {
  action : string;
  pull_request : option (nat * string);  (* number, head.sha *)
  repository_owner : string;
  repository_name : string
}.

(** What the route does with a delivery whose signature was accepted and
    whose body parsed: answer at once, or answer and start
    [processPRReview] with the given arguments. *)
Inductive Handled :=
  | Answered (message : string)
  | Started (owner repo : string) (prNumber : nat) (action : string) (headSha : string).

Definition relevantActions : list string := ["opened"; "synchronize"; "reopened"].

Definition alreadyReviewed (processedPRs : gmap string ProcessedPR) (prKey headSha : string)
    : bool :=
  match processedPRs !! prKey with
  | Some processedPR => String.eqb (head_sha processedPR) headSha
  | None => false
  end.

Definition handleDelivery (processedPRs : gmap string ProcessedPR)
    (payload : WebhookPayload) : Handled :=
  match pull_request payload with
  | None => Answered "Not a pull request event"
  | Some (prNumber, headSha) =>
      if negb (bool_decide (action payload ∈ relevantActions))
      then Answered ("Ignoring action: " +:+ action payload)
      else
        let owner := repository_owner payload in
        let repo := repository_name payload in
        let prKey := prKeyOf owner repo prNumber in
        if alreadyReviewed processedPRs prKey headSha
        then Answered "PR already reviewed for this commit"
        else Started owner repo prNumber (action payload) headSha
  end.

Section Process.

Variable JSON_parse : string → Result JsValue.
Variable otherToString : JsValue → string.
Variable config : Config.

(** [processPRReview]; [now] is [new Date().toISOString()]. *)
Definition processPRReview (env : Env) (now : string)
    (processedPRs : gmap string ProcessedPR)
    (owner repo : string) (prNumber : nat) (action headSha : string)
    : list CreateReviewParams * gmap string ProcessedPR :=
  match reviewPullRequest JSON_parse otherToString config env owner repo prNumber with
  | (calls, Ok _) =>
      let prKey := prKeyOf owner repo prNumber in
      (calls, <[prKey := {| id := owner +:+ "/" +:+ repo +:+ "/" +:+ pretty prNumber;
                            head_sha := headSha;
                            reviewed_at := now |}]> processedPRs)
  | (calls, Throw _) => (calls, processedPRs)
  end.

End Process.

End Webhook.


(* ================================================================= *)
(** ** Notions used by the statements below *)

(** The value a comment holds under a name, [undefined] when it holds none. *)
Definition propertyOf (comment : JsValue) (key : string) : JsValue :=
  match comment with
  | JObject properties => default JUndefined (properties !! key)
  | _ => JUndefined
  end.

(** The [path:line] key of the specification: the path of the comment, a
    colon, and its line. *)
Definition pathLineKey (otherToString : JsValue → string) (comment : JsValue) : string :=
  toString otherToString (propertyOf comment "path") +:+ ":"
  +:+ toString otherToString (propertyOf comment "line").

(** A value whose properties can be read. *)
Definition readable (v : JsValue) : Prop := v ≠ JNull ∧ v ≠ JUndefined.

(** A rendering for the values [toString] leaves open; the examples below
    hold no such value. *)
Definition plainToString (v : JsValue) : string := "[object Object]".

(** A client on which every call fails, and variations of it. *)
Definition offline {A : Type} : Result A := Throw "request failed".

Definition offlineOctokit : Octokit :=
  {| pulls_list := λ _ _, offline;
     pulls_get := λ _ _ _, offline;
     pulls_listFiles := λ _ _ _, offline;
     pulls_listReviews := λ _ _ _, offline;
     pulls_listCommentsForReview := λ _ _ _ _, offline;
     pulls_createReview := λ _, offline |}.

(** An installation service that knows no repository. *)
Definition notInstalled : Env :=
  {| getRepositoryOctokit := λ _ _, Ok None;
     callGemini := λ _, offline |}.

(** A client that accepts reviews. *)
Definition acceptingOctokit : Octokit :=
  {| pulls_list := λ _ _, offline;
     pulls_get := λ _ _ _, offline;
     pulls_listFiles := λ _ _ _, offline;
     pulls_listReviews := λ _ _ _, offline;
     pulls_listCommentsForReview := λ _ _ _ _, offline;
     pulls_createReview := λ _, Ok () |}.


(** The condition under which the polling loop reviews a pull request. *)
Definition pollReviews (processedPRs : gmap string Polling.ProcessedPR)
    (owner repo : string) (pr : PullRequest) : bool :=
  let prKey := prKeyOf owner repo (pr_number pr) in
  Polling.isNew processedPRs prKey || Polling.hasNewCommits processedPRs prKey pr.

(** The payload of a pull-request event. *)
Definition payloadOf (action owner repo : string) (prNumber : nat) (headSha : string)
    : Webhook.WebhookPayload :=
  {| Webhook.action := action;
     Webhook.pull_request := Some (prNumber, headSha);
     Webhook.repository_owner := owner;
     Webhook.repository_name := repo |}.

(** The record the polling loop writes for a reviewed pull request. *)
Definition polledRecord (pr : PullRequest) : Polling.ProcessedPR :=
  {| Polling.id := pretty (pr_id pr);
     Polling.updated_at := pr_updated_at pr;
     Polling.head_sha := pr_head_sha pr |}.

(** The record [processPRReview] writes. *)
Definition hookedRecord (owner repo : string) (prNumber : nat) (headSha now : string)
    : Webhook.ProcessedPR :=
  {| Webhook.id := owner +:+ "/" +:+ repo +:+ "/" +:+ pretty prNumber;
     Webhook.head_sha := headSha;
     Webhook.reviewed_at := now |}.

(** ** A small world for the examples *)

Definition examplePR (draft : bool) (sha : string) : PullRequest :=
  {| pr_number := 7; pr_id := 1007; pr_title := "Add parser";
     pr_draft := draft; pr_state := "open"; pr_head_sha := sha;
     pr_updated_at := "2024-05-01T10:00:00Z" |}.

Definition exampleFile : ChangedFile :=
  {| file_filename := "f.ts"; file_status := "modified";
     file_additions := 1; file_deletions := 0; file_changes := 1;
     file_patch := Some ("@@ -1,0 +1,1 @@" +:+ nl +:+ "+eval(input)") |}.

(** A client that serves one pull request with one changed file and accepts
    reviews, but cannot list the reviews already posted. *)
Definition exampleOctokit (draft : bool) (sha : string) : Octokit :=
  {| pulls_list := λ _ _, Ok [examplePR draft sha];
     pulls_get := λ _ _ _, Ok (examplePR draft sha);
     pulls_listFiles := λ _ _ _, Ok [exampleFile];
     pulls_listReviews := λ _ _ _, offline;
     pulls_listCommentsForReview := λ _ _ _ _, offline;
     pulls_createReview := λ _, Ok () |}.

Definition exampleEnv (draft : bool) (sha : string) : Env :=
  {| getRepositoryOctokit := λ _ _, Ok (Some (exampleOctokit draft sha));
     callGemini := λ _, Ok "[one finding]" |}.

(** A parser that reads every text as an array of one finding. *)
Definition exampleParse (text : string) : Result JsValue :=
  Ok (JArray [commentAt "f.ts" (integerNumber 1) "eval of user input"]).

Definition exampleConfig : Config := {| maxFiles := 10; maxLinesPerFile := 500 |}.


(* ================================================================= *)
(** ** Further notions *)

(** The scan of the trimmed text ends outside string literals, with nothing
    closed that was not opened. *)
Definition endsInStructure (jsonString : string) : Prop :=
  let st := scanFrom 0 (trim jsonString) initialScanState in
  inString st = false ∧ escaped st = false ∧
  (0 ≤ openBraces st)%Z ∧ (0 ≤ openBrackets st)%Z.

(** The key [getExistingComments] adds for a posted comment, if any: the
    path must not be empty, the line neither [null] nor zero. *)
Definition postedKey (comment : PostedComment) : option string :=
  match posted_line comment with
  | Some line =>
      if negb (String.eqb (posted_path comment) "") && negb (line =? 0)
      then Some (posted_path comment +:+ ":" +:+ pretty line)
      else None
  | None => None
  end.

(** The model endpoint fails on every prompt. *)
Definition modelDown (env : Env) : Prop :=
  ∀ prompt, isOk (callGemini env prompt) = false.

(** A file that [reviewFile] sends to the model in one request. *)
Definition singleRequest (file : ChangedFile) : Prop :=
  match file_patch file with
  | Some patch => (3000 <? String.length patch) && (50 <? file_additions file) = false
  | None => True
  end.


(** The file object [reviewLargeFile] builds for a chunk:
    [{...file, patch: hunk.content, additions, deletions}]. *)
Definition hunkFileOf (file : ChangedFile) (hunk : Hunk) : ChangedFile :=
  {| file_filename := file_filename file;
     file_status := file_status file;
     file_additions := hunk_additions hunk;
     file_deletions := hunk_deletions hunk;
     file_changes := file_changes file;
     file_patch := Some (hunk_content hunk) |}.

(** The model call for the prompt of this file fails. *)
Definition callFailsFor (env : Env) (file : ChangedFile) : Prop :=
  ∀ prompt, buildPrompt file = Ok prompt → isOk (callGemini env prompt) = false.

(** A client whose pull request has two reviews, the first one attributed. *)
Definition exampleReviews : list Review :=
  [ {| review_id := 1; review_body := Some "Generated by Gemini AI" |};
    {| review_id := 2; review_body := None |} ].

Definition reviewedOctokit : Octokit :=
  {| pulls_list := λ _ _, offline;
     pulls_get := λ _ _ _, offline;
     pulls_listFiles := λ _ _ _, offline;
     pulls_listReviews := λ _ _ _, Ok exampleReviews;
     pulls_listCommentsForReview := λ _ _ _ _,
       Ok [ {| posted_path := "f.ts"; posted_line := Some 1 |};
            {| posted_path := "g.ts"; posted_line := None |} ];
     pulls_createReview := λ _, Ok () |}.

(** A changed file GitHub sends without a patch, as it does for a binary
    file whose name is not on the list of [isReviewableFile]. *)
Definition binaryFile : ChangedFile :=
  {| file_filename := "model.bin"; file_status := "added";
     file_additions := 0; file_deletions := 0; file_changes := 0;
     file_patch := None |}.

(** A client whose pull request changes a binary file and a source file. *)
Definition binaryFirstOctokit : Octokit :=
  {| pulls_list := λ _ _, Ok [examplePR false "sha1"];
     pulls_get := λ _ _ _, Ok (examplePR false "sha1");
     pulls_listFiles := λ _ _ _, Ok ([binaryFile] ++ [exampleFile]);
     pulls_listReviews := λ _ _ _, offline;
     pulls_listCommentsForReview := λ _ _ _ _, offline;
     pulls_createReview := λ _, Ok () |}.


(* ================================================================= *)
(** ** The sweeps of old records: [cleanupOldPRs] *)

Section Sweep.

(** [new Date(text)]: the time value of the date, [None] for an invalid
    date (whose time value, not-a-number, compares false with everything). *)
Variable dateOf : string → option Z.

(** [new Date(text) < cutoffDate] *)
Definition isBefore (text : string) (cutoffDate : Z) : bool :=
  match dateOf text with
  | Some time => (time <? cutoffDate)%Z
  | None => false
  end.

(** [PollingPRReviewer.cleanupOldPRs]; [cutoffDate] is the time value of
    the current date with its day of the month set back by seven. *)
Definition pollingCleanupOldPRs (cutoffDate : Z)
    (processedPRs : gmap string Polling.ProcessedPR) : gmap string Polling.ProcessedPR :=
  filter (λ entry, isBefore (Polling.updated_at entry.2) cutoffDate = false) processedPRs.

(** [WebhookPRReviewer.cleanupOldPRs] *)
Definition webhookCleanupOldPRs (cutoffDate : Z)
    (processedPRs : gmap string Webhook.ProcessedPR) : gmap string Webhook.ProcessedPR :=
  filter (λ entry, isBefore (Webhook.reviewed_at entry.2) cutoffDate = false) processedPRs.

End Sweep.

(** A reading of dates for the examples: one text, one time. *)
Definition exampleDateOf (text : string) : option Z :=
  if String.eqb text "2024-05-01T10:00:00Z" then Some 1714557600000%Z else None.


(* ================================================================= *)
(** ** The watched repositories: [loadRepositories] and
       [AuthManager.isValidRepositoryFormat] *)

(** [s.split(sep)] for a separator of one code unit. *)
Fixpoint splitOn (sep : ascii) (s : string) : list string :=
  match s with
  | EmptyString => [EmptyString]
  | String c s' =>
      if Ascii.eqb c sep then EmptyString :: splitOn sep s'
      else match splitOn sep s' with
           | part :: parts => String c part :: parts
           | [] => [String c EmptyString]
           end
  end.

(** [[...new Set(xs)]]: the first occurrence of each element, in order. *)
Fixpoint uniqueFrom (seen xs : list string) : list string :=
  match xs with
  | [] => []
  | x :: rest =>
      if bool_decide (x ∈ seen) then uniqueFrom seen rest
      else x :: uniqueFrom (x :: seen) rest
  end.

Definition unique (xs : list string) : list string := uniqueFrom [] xs.

Record Repository := {
  repo_owner : string;
  repo_name : string
}.

(** [const [owner, name] = repo.split('/')] for a text with a slash in it. *)
Definition toRepository (repo : string) : option Repository :=
  match splitOn "/" repo with
  | owner :: name :: _ => Some {| repo_owner := owner; repo_name := name |}
  | _ => None
  end.

(** [repos.filter(repo => repo.includes('/')).map(repo => ...)]; every text
    the filter lets through splits in two parts at least. *)
Definition repositoriesOf (repos : list string) : list Repository :=
  omap toRepository (List.filter (λ repo, includes repo "/") repos).

(** [loadRepositories]: [appRepos] is the outcome of
    [githubAuth.listAllAccessibleRepositories()], absent without GitHub App;
    [userRepos] is [authManager.getAllRepositories()]. *)
Definition loadRepositories (appRepos : option (Result (list string)))
    (userRepos : list string) : list Repository :=
  match appRepos with
  | None => []
  | Some (Ok allRepos) => repositoriesOf (unique (allRepos ++ userRepos))
  | Some (Throw _) => repositoriesOf userRepos
  end.

(** [`${r.owner}/${r.repo}`] *)
Definition fullName (r : Repository) : string :=
  repo_owner r +:+ "/" +:+ repo_name r.

(** The class [[a-zA-Z0-9_.-]]. *)
Definition isRepoChar (c : ascii) : bool :=
  let n := nat_of_ascii c in
  ((97 <=? n) && (n <=? 122)) || ((65 <=? n) && (n <=? 90))
  || ((48 <=? n) && (n <=? 57)) || (n =? 95) || (n =? 46) || (n =? 45).

(** [[a-zA-Z0-9_.-]+$] *)
Fixpoint matchesName (s : string) : bool :=
  match s with
  | EmptyString => false
  | String c EmptyString => isRepoChar c
  | String c s' => isRepoChar c && matchesName s'
  end.

(** [^[a-zA-Z0-9_.-]+\/[a-zA-Z0-9_.-]+$] from a position on; [started] tells
    that the first class has matched one code unit at least. *)
Fixpoint matchesRepository (started : bool) (s : string) : bool :=
  match s with
  | EmptyString => false
  | String c s' =>
      if isRepoChar c then matchesRepository true s'
      else if Ascii.eqb c "/" then started && matchesName s'
      else false
  end.

Definition isValidRepositoryFormat (repo : string) : bool :=
  matchesRepository false repo.

(** A name of the class, of one code unit at least. *)
Definition repoName (s : string) : Prop :=
  s ≠ "" ∧ Forall (λ c, isRepoChar c = true) (list_ascii_of_string s).


(* ================================================================= *)
(** ** The [/webhook] route and [GitHubAppAuth.verifyWebhookSignature] *)

(** The length in bytes of [Buffer.from(s)]: UTF-8 takes one byte for a code
    unit below 128 and two for the others below 256. *)
Definition byteLength (s : string) : nat :=
  sum_list (map (λ c, if nat_of_ascii c <? 128 then 1 else 2) (list_ascii_of_string s)).

(** A delivery of content type [application/json]: the raw body, as
    [express.raw] hands it over, and the [x-hub-signature-256] header. *)
Record Delivery := {
  delivery_body : string;
  delivery_signature : option string
}.

(** What the route did: the status and message of its answer, and the
    arguments of [processPRReview] when it started one. *)
Record Routed := {
  routed_status : nat;
  routed_message : string;
  routed_started : option Webhook.Handled
}.

Section Route.

(** [createHmac('sha256', secret).update(payload).digest('hex')] *)
Variable hmacSha256Hex : string → string → string.

(** [JSON.parse(req.body.toString())], read as a payload. *)
Variable parsePayload : string → Result Webhook.WebhookPayload.

Definition expectedSignature (secret payload : string) : string :=
  "sha256=" +:+ hmacSha256Hex secret payload.

(** [verifyWebhookSignature(payload, signature)] of an app whose
    configured secret is [secret]; [timingSafeEqual] throws on buffers of
    different lengths. *)
Definition verifyWebhookSignature (secret payload : string) (signature : option string)
    : Result bool :=
  match signature with
  | None => Ok false
  | Some signature =>
      if String.eqb signature "" || String.eqb secret "" then Ok false
      else
        let expected := expectedSignature secret payload in
        if byteLength signature =? byteLength expected
        then Ok (String.eqb signature expected)
        else Throw "Input buffers must have the same byte length"
  end.

(** The handler of [POST /webhook].  [webhookSecret] is the secret the
    server was started with, [githubAuth] the secret of the app's
    configuration when there is an app. *)
Definition webhookRoute (webhookSecret : string) (githubAuth : option string)
    (processedPRs : gmap string Webhook.ProcessedPR) (req : Delivery) : Routed :=
  let answer :=
    rejected ←
      (if String.eqb webhookSecret "" then Ok false
       else match githubAuth with
            | None => Ok false
            | Some secret =>
                verified ← verifyWebhookSignature secret (delivery_body req)
                             (delivery_signature req);
                Ok (negb verified)
            end);
    if rejected : bool
    then Ok {| routed_status := 401; routed_message := "Invalid signature";
               routed_started := None |}
    else
      payload ← parsePayload (delivery_body req);
      match Webhook.handleDelivery processedPRs payload with
      | Webhook.Answered message =>
          Ok {| routed_status := 200; routed_message := message; routed_started := None |}
      | started =>
          Ok {| routed_status := 200;
                routed_message := "Webhook received, processing PR review";
                routed_started := Some started |}
      end in
  match answer with
  | Ok routed => routed
  | Throw _ => {| routed_status := 500; routed_message := "Internal server error";
                  routed_started := None |}
  end.

End Route.

(** A stand-in for the HMAC in the examples. *)
Definition exampleHmac (secret payload : string) : string := "0f" +:+ secret.

Definition exampleParsePayload (body : string) : Result Webhook.WebhookPayload :=
  Ok (payloadOf "opened" "o" "r" 7 "sha1").


(* ================================================================= *)
(** ** [PollingPRReviewer.scanAllRepositories] *)

(** Whether the code unit [c] occurs in [s]. *)
Fixpoint occurs (c : ascii) (s : string) : bool :=
  match s with
  | EmptyString => false
  | String a s' => Ascii.eqb a c || occurs c s'
  end.

Section ScanAll.

Variable JSON_parse : string → Result JsValue.
Variable otherToString : JsValue → string.
Variable config : Config.

(** [for (const repo of this.repositories)]; [scanRepository] catches
    what its body throws, so the [catch] of the loop is never entered. *)
Fixpoint scanRepositories (env : Env) (processedPRs : gmap string Polling.ProcessedPR)
    (repositories : list Repository)
    : list CreateReviewParams * gmap string Polling.ProcessedPR :=
  match repositories with
  | [] => ([], processedPRs)
  | repo :: rest =>
      let '(calls, processedPRs') :=
        Polling.scanRepository JSON_parse otherToString config env
          (repo_owner repo) (repo_name repo) processedPRs in
      let '(calls', processedPRs'') := scanRepositories env processedPRs' rest in
      (calls ++ calls', processedPRs'')
  end.

(** [scanAllRepositories]: the repositories are loaded again, then scanned
    in their order. *)
Definition scanAllRepositories (env : Env) (appRepos : option (Result (list string)))
    (userRepos : list string) (processedPRs : gmap string Polling.ProcessedPR)
    : list CreateReviewParams * gmap string Polling.ProcessedPR :=
  scanRepositories env processedPRs (loadRepositories appRepos userRepos).

End ScanAll.


(* ================================================================= *)
(** ** [ConfigManager.updateEnvFile] *)

(** The index of the first line whose trimmed text starts with [prefix]: the
    [for] loop with its [break]. *)
Fixpoint findKey (prefix : string) (lines : list string) : option nat :=
  match lines with
  | [] => None
  | line :: rest =>
      if startsWith (trim line) prefix then Some 0
      else S <$> findKey prefix rest
  end.

(** The lines [updateEnvFile] joins and writes back. *)
Definition updateEnvLines (key value : string) (lines : list string) : list string :=
  let entry := key +:+ "=" +:+ value in
  match findKey (key +:+ "=") lines with
  | Some i => <[i := entry]> lines
  | None => lines ++ [entry]
  end.

(** The text [updateEnvFile(key, value)] writes to the [.env] file; [file] is
    the text of the file when it exists.  The assignment to [process.env]
    that follows the writing is no part of this text. *)
Definition updateEnvFile (key value : string) (file : option string) : string :=
  let envContent := default "" file in
  join_lines (updateEnvLines key value (split_lines envContent)).

(** The first code unit of a text, if any, is not white space. *)
Definition startsInText (s : string) : bool :=
  match s with
  | EmptyString => true
  | String c _ => negb (isWhiteSpace c)
  end.


(* ================================================================= *)
(** ** Two statements in the words of the specification *)

(** A response with one finding, whose line is 1.5. *)
Definition fractionalResponse : string :=
  "[{" +:+ jsonField "path" "a.ts" +:+ "," +:+ dquote +:+ "line" +:+ dquote +:+ ":1.5,"
       +:+ jsonField "severity" "error" +:+ "," +:+ jsonField "message" "m" +:+ "}]".

(** [JSON.parse] as far as that response goes: it is read as the array of
    its one object; every other text is turned down. *)
Definition parseFractional (text : string) : Result JsValue :=
  if String.eqb text fractionalResponse
  then Ok (JArray [commentAt "a.ts" oneAndAHalf "m"])
  else Throw "SyntaxError".

(** The contract of the parser as the specification words it: for every
    response the parser returns a list of comments that are valid. *)
Definition parserContractClaim (JSON_parse : string → Result JsValue) : Prop :=
  ∀ response filename,
    ∃ comments, parseGeminiResponse JSON_parse response filename = Ok comments ∧
                Forall specValidComment comments.

(** The consequence drawn for drafts, as the specification words it: once a
    draft that was never seen is scanned, the polling path does not review
    the pull request again at the same head commit, whatever sweep of old
    records it runs in between. *)
Definition draftPassedOverClaim (JSON_parse : string → Result JsValue)
    (otherToString : JsValue → string) (config : Config) (dateOf : string → option Z)
    : Prop :=
  ∀ (env env' : Env) (owner repo : string) (pr pr' : PullRequest)
    (octokit : Octokit) (pullRequest : PullRequest) (cutoffDate : Z),
    getRepositoryOctokit env owner repo = Ok (Some octokit) →
    pulls_get octokit owner repo (pr_number pr) = Ok pullRequest →
    pr_draft pullRequest = true →
    let recorded := (Polling.scanPullRequest JSON_parse otherToString config env owner repo
                       ∅ pr).2 in
    let swept := pollingCleanupOldPRs dateOf cutoffDate recorded in
    pr_number pr' = pr_number pr →
    pr_head_sha pr' = pr_head_sha pr →
    Polling.scanPullRequest JSON_parse otherToString config env' owner repo swept pr'
    = ([], swept).


(* ================================================================= *)
(** * Properties *)


(** ** Lines of a text *)

Lemma string_length_app (a b : string) :
  String.length (a +:+ b) = String.length a + String.length b.
Proof. induction a as [|c a IH]; simpl; [done | by rewrite IH]. Qed.

Lemma split_lines_nonempty (s : string) : split_lines s ≠ [].
Proof.
  induction s as [|c s IH]; simpl; [done|].
  destruct (Ascii.eqb c newline); [done|].
  by destruct (split_lines s).
Qed.

Lemma split_lines_oneLine (s : string) : Forall oneLine (split_lines s).
Proof.
  induction s as [|c s IH]; simpl.
  - by repeat constructor.
  - destruct (Ascii.eqb c newline) eqn:Hc.
    + by constructor.
    + destruct (split_lines s) as [|l ls]; [by repeat constructor|].
      inversion IH; subst. by constructor.
Qed.

Lemma split_lines_one (l : string) : oneLine l → split_lines l = [l].
Proof.
  induction l as [|c l IH]; simpl; [done|].
  intros [-> Hl]. by rewrite IH.
Qed.

Lemma split_lines_app (l r : string) :
  oneLine l → split_lines (l +:+ nl +:+ r) = l :: split_lines r.
Proof.
  induction l as [|c l IH]; simpl.
  - done.
  - intros [-> Hl]. by rewrite IH.
Qed.

Lemma split_join (ls : list string) :
  ls ≠ [] → Forall oneLine ls → split_lines (join_lines ls) = ls.
Proof.
  induction ls as [|l ls IH]; [done|].
  intros _ Hall. inversion Hall as [|? ? Hl Hls]; subst.
  destruct ls as [|l' ls].
  - simpl. by apply split_lines_one.
  - change (join_lines (l :: l' :: ls)) with (l +:+ nl +:+ join_lines (l' :: ls)).
    rewrite split_lines_app by done. by rewrite IH.
Qed.

Lemma join_split (s : string) : join_lines (split_lines s) = s.
Proof.
  induction s as [|c s IH]; simpl; [done|].
  destruct (Ascii.eqb c newline) eqn:Hc.
  - apply Ascii.eqb_eq in Hc as ->.
    pose proof (split_lines_nonempty s) as Hne.
    destruct (split_lines s) as [|l ls] eqn:Hs; [done|].
    change (join_lines ("" :: l :: ls)) with ("" +:+ nl +:+ join_lines (l :: ls)).
    by rewrite IH.
  - pose proof (split_lines_nonempty s) as Hne.
    destruct (split_lines s) as [|l ls] eqn:Hs; [done|].
    destruct ls as [|l' ls].
    + unfold join_lines in *; simpl in *. by rewrite IH.
    + change (join_lines (String c l :: l' :: ls))
        with (String c (l +:+ nl +:+ join_lines (l' :: ls))).
      change (join_lines (l :: l' :: ls)) with (l +:+ nl +:+ join_lines (l' :: ls)) in IH.
      by rewrite IH.
Qed.


(** ** Diff Segmenter *)

Lemma hunkHeader_not_counted (l : string) :
  isHunkHeader l = true → isAddition l = false ∧ isDeletion l = false.
Proof.
  unfold isHunkHeader, isAddition, isDeletion.
  destruct l as [|c l]; [done|]. cbn [startsWith].
  destruct (Ascii.eqb_spec "@" c) as [<-|]; [|done].
  intros _. done.
Qed.

Lemma countAdditions_snoc (p : list string) (l : string) :
  countAdditions (p ++ [l]) = countAdditions p + (if isAddition l then 1 else 0).
Proof.
  unfold countAdditions. rewrite List.filter_app, length_app. simpl.
  by destruct (isAddition l).
Qed.

Lemma countDeletions_snoc (p : list string) (l : string) :
  countDeletions (p ++ [l]) = countDeletions p + (if isDeletion l then 1 else 0).
Proof.
  unfold countDeletions. rewrite List.filter_app, length_app. simpl.
  by destruct (isDeletion l).
Qed.

Lemma isAddition_not_deletion (l : string) : isAddition l = true → isDeletion l = false.
Proof.
  unfold isAddition, isDeletion.
  destruct l as [|c l]; [done|]. cbn [startsWith].
  destruct (Ascii.eqb_spec "+" c) as [<-|]; [|done].
  intros _. done.
Qed.

Lemma adjacentOk_snoc (ps : list (list string)) (q : list string) :
  adjacentOk ps →
  (∀ p, last ps = Some p → length p = 101 ∨ startsHunk q) →
  adjacentOk (ps ++ [q]).
Proof.
  intros Hadj Hlast i p q' Hp Hq.
  destruct (decide (S i < length ps)) as [Hlt|Hge].
  - rewrite lookup_app_l in Hp by lia. rewrite lookup_app_l in Hq by lia. eauto.
  - assert (S i = length ps) as Hi.
    { apply lookup_lt_Some in Hq. rewrite length_app in Hq. simpl in Hq. lia. }
    rewrite lookup_app_l in Hp by lia.
    rewrite lookup_app_r in Hq by lia.
    replace (S i - length ps) with 0 in Hq by lia. simpl in Hq.
    injection Hq as <-.
    apply Hlast. rewrite last_lookup. by replace (pred (length ps)) with i by lia.
Qed.

Lemma headerOnlyFirst_snoc (p : list string) (l : string) :
  headerOnlyFirst p → isHunkHeader l = false → headerOnlyFirst (p ++ [l]).
Proof.
  unfold headerOnlyFirst. destruct p as [|x p]; simpl.
  - intros _ _. constructor.
  - intros Hp Hl. apply Forall_app. split; [done|]. by repeat constructor.
Qed.

Lemma startsHunk_snoc (p : list string) (l : string) :
  startsHunk p → startsHunk (p ++ [l]).
Proof. intros (x & t & -> & Hx). exists x, (t ++ [l]). done. Qed.

Lemma splitInv_init (headerLines : list string) :
  SplitInv headerLines [] initialSplitState [].
Proof.
  split; simpl; try done.
  - lia.
  - constructor.
Qed.

Lemma splitInv_step (headerLines seen : list string) (st : SplitState)
    (bodies : list (list string)) (line : string) :
  SplitInv headerLines seen st bodies →
  ∃ bodies', SplitInv headerLines (seen ++ [line]) (splitStep headerLines st line) bodies'.
Proof.
  intros [Hh Hl Hb Hlen Hhdr Ha Hd Hadj Hlast].
  unfold splitStep. fold (isHunkHeader line).
  destruct (isHunkHeader line) eqn:Hline.
  - (* a hunk header opens a new chunk *)
    destruct (hunkHeader_not_counted _ Hline) as [Hna Hnd].
    assert (countAdditions [line] = 0) as Hca
      by (unfold countAdditions; simpl; by rewrite Hna).
    assert (countDeletions [line] = 0) as Hcd
      by (unfold countDeletions; simpl; by rewrite Hnd).
    assert (startsHunk [line]) as Hsh by (by exists line, []).
    destruct (currentHunk st) as [|x cur] eqn:Hcur.
    + exists bodies. split; simpl.
      * done.
      * rewrite <- Hl. by rewrite app_nil_r.
      * done.
      * lia.
      * constructor.
      * done.
      * done.
      * done.
      * intros b _. by right.
    + exists (bodies ++ [x :: cur]). split; simpl.
      * unfold pushHunk. rewrite map_app. simpl. rewrite Hh, Ha, Hd. done.
      * rewrite concat_app. simpl. rewrite app_nil_r. by rewrite <- Hl.
      * apply Forall_app. split; [done|].
        apply Forall_singleton. split_and!; [done | simpl in *; lia | done].
      * lia.
      * constructor.
      * done.
      * done.
      * apply adjacentOk_snoc; done.
      * intros b _. by right.
  - (* any other line joins the current chunk *)
    assert (countAdditions (currentHunk st ++ [line]) =
            (if isAddition line then S (currentAdditions st) else currentAdditions st)) as Ha'.
    { rewrite countAdditions_snoc, Ha. destruct (isAddition line); lia. }
    assert (countDeletions (currentHunk st ++ [line]) =
            (if isAddition line then currentDeletions st
             else if isDeletion line then S (currentDeletions st)
             else currentDeletions st)) as Hd'.
    { rewrite countDeletions_snoc, Hd.
      destruct (isAddition line) eqn:E.
      - rewrite (isAddition_not_deletion _ E). lia.
      - destruct (isDeletion line); lia. }
    destruct (100 <? length (currentHunk st ++ [line])) eqn:Hbig.
    + apply Nat.ltb_lt in Hbig.
      assert (length (currentHunk st ++ [line]) = 101) as Hlen'.
      { rewrite length_app in *. simpl in *. lia. }
      exists (bodies ++ [currentHunk st ++ [line]]). split; simpl.
      * unfold pushHunk. rewrite map_app. simpl. rewrite Hh.
        unfold mkChunk. by rewrite Ha', Hd'.
      * rewrite concat_app. simpl. rewrite !app_nil_r. rewrite <- Hl.
        by rewrite app_assoc.
      * apply Forall_app. split; [done|].
        apply Forall_singleton. split_and!.
        -- by destruct (currentHunk st).
        -- lia.
        -- by apply headerOnlyFirst_snoc.
      * lia.
      * constructor.
      * done.
      * done.
      * apply adjacentOk_snoc; [done|].
        intros p Hp. destruct (Hlast p Hp) as [?|Hs]; [by left|].
        right. by apply startsHunk_snoc.
      * intros b Hb'. rewrite last_snoc in Hb'. injection Hb' as <-. by left.
    + apply Nat.ltb_ge in Hbig.
      exists bodies. split; simpl.
      * done.
      * rewrite <- Hl. by rewrite app_assoc.
      * done.
      * done.
      * by apply headerOnlyFirst_snoc.
      * done.
      * done.
      * done.
      * intros b Hb'. destruct (Hlast b Hb') as [?|Hs]; [by left|].
        right. by apply startsHunk_snoc.
Qed.

Lemma splitInv_fold (headerLines : list string) (lines seen : list string)
    (st : SplitState) (bodies : list (list string)) :
  SplitInv headerLines seen st bodies →
  ∃ bodies', SplitInv headerLines (seen ++ lines)
               (fold_left (splitStep headerLines) lines st) bodies'.
Proof.
  revert seen st bodies.
  induction lines as [|line lines IH]; intros seen st bodies Hinv; simpl.
  - exists bodies. by rewrite app_nil_r.
  - destruct (splitInv_step _ _ _ _ line Hinv) as [bodies1 H1].
    destruct (IH _ _ _ H1) as [bodies2 H2].
    exists bodies2. by rewrite <- app_assoc in H2.
Qed.

(** The chunks of a non-empty list of lines are the chunks of a list of
    portions that partition the lines. *)
Lemma splitIntoHunks_bodies (diffLines : list string) :
  diffLines ≠ [] →
  ∃ bodies,
    splitIntoHunks diffLines = map (mkChunk (captureHeaders 10 diffLines)) bodies ∧
    concat bodies = diffLines ∧
    Forall portionOk bodies ∧
    adjacentOk bodies.
Proof.
  intros Hne. unfold splitIntoHunks.
  set (headerLines := captureHeaders 10 diffLines).
  destruct (splitInv_fold headerLines diffLines [] _ _ (splitInv_init headerLines))
    as [bodies [Hh Hl Hb Hlen Hhdr Ha Hd Hadj Hlast]].
  simpl in Hl.
  destruct (currentHunk _) as [|x cur] eqn:Hcur; simpl.
  - rewrite app_nil_r in Hl.
    destruct bodies as [|b bodies]; [by subst|].
    rewrite Hh. simpl. exists (b :: bodies). done.
  - unfold pushHunk. rewrite length_app. simpl.
    replace (0 <? length (hunks _) + 1) with true
      by (symmetry; apply Nat.ltb_lt; lia).
    exists (bodies ++ [x :: cur]). split_and!.
    + rewrite map_app. simpl. rewrite Hh, Ha, Hd. done.
    + rewrite concat_app. simpl. by rewrite app_nil_r.
    + apply Forall_app. split; [done|].
      apply Forall_singleton. split_and!; [done | simpl in *; lia | done].
    + by apply adjacentOk_snoc.
Qed.

Lemma captureHeaders_oneLine (limit : nat) (ls : list string) :
  Forall oneLine ls → Forall oneLine (captureHeaders limit ls).
Proof.
  revert ls. induction limit as [|limit IH]; intros ls Hls; simpl; [constructor|].
  destruct Hls as [|l ls Hl Hls]; [constructor|].
  destruct (startsWith l "@@"); [constructor|].
  constructor; [done | by apply IH].
Qed.

Lemma hunkPortion_mkChunk (headerLines body : list string) :
  Forall oneLine headerLines → Forall oneLine body → body ≠ [] →
  hunkPortion headerLines (mkChunk headerLines body) = body.
Proof.
  intros Hh Hb Hne. unfold hunkPortion, mkChunk. simpl.
  rewrite split_join.
  - by rewrite drop_app_length.
  - destruct headerLines, body; done.
  - by apply Forall_app.
Qed.

Lemma hunkPortions_mkChunks (headerLines : list string) (bodies : list (list string)) :
  Forall oneLine headerLines → Forall (Forall oneLine) bodies →
  Forall portionOk bodies →
  map (hunkPortion headerLines) (map (mkChunk headerLines) bodies) = bodies.
Proof.
  intros Hh Hlines Hok.
  induction bodies as [|b bodies IH]; [done|].
  apply Forall_cons in Hlines as [Hb Hlines].
  apply Forall_cons in Hok as [[Hne _] Hok].
  simpl. rewrite IH by done.
  by rewrite hunkPortion_mkChunk.
Qed.

Lemma hunkLines_startsHunk (diffLines : list string) :
  startsHunk diffLines → hunkLines diffLines = diffLines.
Proof. intros (l & t & -> & Hl). simpl. by rewrite Hl. Qed.

(** C2 (amended).  For every diff text that opens with a hunk header, the
    parts of the returned chunks that come after the shared header lines, put
    together in order, are exactly the hunks of the diff in their original
    order.  For every diff text, each such part is non-empty, has at most 101
    lines, and holds a hunk header at its first line only, so a header always
    stays with the lines that follow it and no chunk spans two hunks.  A chunk
    boundary either is the start of a hunk or comes after a part of exactly
    101 lines: a hunk longer than that is cut by the size limit.  The counts
    of a chunk are the added and removed lines of its part. *)
Theorem splitIntoHunks_portions (patch : string) :
  let diffLines := split_lines patch in
  let headerLines := captureHeaders 10 diffLines in
  let chunks := splitIntoHunks diffLines in
  let ps := map (hunkPortion headerLines) chunks in
  (startsHunk diffLines → concat ps = hunkLines diffLines) ∧
  Forall portionOk ps ∧
  adjacentOk ps ∧
  Forall (λ h, hunk_additions h = countAdditions (hunkPortion headerLines h) ∧
               hunk_deletions h = countDeletions (hunkPortion headerLines h)) chunks.
Proof.
  intros diffLines headerLines chunks ps.
  destruct (splitIntoHunks_bodies diffLines (split_lines_nonempty patch))
    as (bodies & Hchunks & Hcat & Hok & Hadj).
  fold headerLines in Hchunks. fold chunks in Hchunks.
  pose proof (split_lines_oneLine patch) as Hlines. fold diffLines in Hlines.
  assert (Forall oneLine headerLines) as Hh by by apply captureHeaders_oneLine.
  assert (Forall (Forall oneLine) bodies) as Hb.
  { apply Forall_concat. by rewrite Hcat. }
  assert (ps = bodies) as Hps.
  { unfold ps. rewrite Hchunks. by apply hunkPortions_mkChunks. }
  rewrite Hps. split_and!; try done.
  - intros Hs. by rewrite hunkLines_startsHunk.
  - rewrite Hchunks. apply Forall_map, Forall_forall. intros b Hin.
    rewrite hunkPortion_mkChunk; [done | done | |].
    + by eapply Forall_forall in Hb.
    + eapply Forall_forall in Hok; [|done]. by destruct Hok.
Qed.

Lemma splitIntoHunks_portions_witness :
  let patch := "@@ -1 +1 @@" +:+ nl +:+ "-a" +:+ nl +:+ "+b" in
  startsHunk (split_lines patch) ∧
  concat (map (hunkPortion (captureHeaders 10 (split_lines patch)))
              (splitIntoHunks (split_lines patch)))
  = hunkLines (split_lines patch).
Proof.
  intros patch.
  assert (startsHunk (split_lines patch)) as Hs.
  { exists "@@ -1 +1 @@", ["-a"; "+b"]. split; reflexivity. }
  split; [exact Hs|].
  exact (proj1 (splitIntoHunks_portions patch) Hs).
Defined.

(** C2, as the specification words it, fails on a hunk of 101 added lines:
    the single hunk is spread over two chunks. *)
Lemma chunkCoverage_largeHunk : ¬ chunkCoverage largeHunkPatch.
Proof.
  unfold chunkCoverage. intros [_ Hall].
  assert (map (hunkPortion (captureHeaders 10 (split_lines largeHunkPatch)))
              (splitIntoHunks (split_lines largeHunkPatch)) !! 1 = Some ["+x"]) as H1
    by (vm_compute; reflexivity).
  eapply Forall_lookup in Hall; [|exact H1].
  destruct Hall as (l & t & Heq & Hl).
  injection Heq as <- <-. vm_compute in Hl. discriminate.
Qed.


(** ** Prompt Builder *)

Lemma linesLength_app (a b : list string) :
  linesLength (a ++ b) = linesLength a + linesLength b.
Proof. induction a as [|l a IH]; simpl; [done|]. rewrite IH. lia. Qed.

Lemma length_join_lines (ls : list string) :
  ls ≠ [] → String.length (join_lines ls) + 1 = linesLength ls.
Proof.
  induction ls as [|l ls IH]; [done|]. intros _.
  destruct ls as [|l' ls].
  - unfold join_lines, linesLength. simpl. lia.
  - change (join_lines (l :: l' :: ls)) with (l +:+ nl +:+ join_lines (l' :: ls)).
    rewrite !string_length_app.
    change (linesLength (l :: l' :: ls))
      with (String.length l + 1 + linesLength (l' :: ls)).
    rewrite <- IH by done. simpl. lia.
Qed.

Lemma linesLength_split (s : string) :
  linesLength (split_lines s) = String.length s + 1.
Proof.
  rewrite <- length_join_lines by apply split_lines_nonempty.
  by rewrite join_split.
Qed.

Lemma calculateMaxDiffLength_range (file : ChangedFile) :
  1500 ≤ calculateMaxDiffLength file ≤ 2500.
Proof. unfold calculateMaxDiffLength. lia. Qed.

(** The loop stops at a line boundary, and always by the marker, when what
    is left does not fit. *)
Lemma truncateLoop_spec (maxLen : nat) (lines kept : list string) (cur : nat) :
  cur = linesLength kept →
  cur ≤ maxLen + 1 →
  maxLen + 1 < cur + linesLength lines →
  ∃ k, k < length lines ∧
       truncateLoop maxLen lines kept cur = kept ++ take k lines ++ [truncationMarker] ∧
       linesLength (kept ++ take k lines) ≤ maxLen + 1.
Proof.
  revert kept cur.
  induction lines as [|line rest IH]; intros kept cur Hcur Hle Htot; simpl in *.
  - lia.
  - destruct (maxLen <? cur + String.length line) eqn:Hcmp.
    + exists 0. simpl. rewrite app_nil_r. split_and!; [lia | done | lia].
    + apply Nat.ltb_ge in Hcmp.
      destruct (IH (kept ++ [line]) (cur + (String.length line + 1)))
        as (k & Hk & Heq & Hlen).
      * rewrite linesLength_app. simpl. lia.
      * lia.
      * lia.
      * exists (S k). simpl. split_and!; [lia | |].
        -- rewrite Heq. by rewrite <- app_assoc.
        -- by rewrite <- app_assoc in Hlen.
Qed.

(** C4 (amended).  When the patch is longer than the budget
    [1500 + min(additions*10, 1000)], the diff put into the prompt consists of
    the first [k] whole lines of the patch followed by the truncation marker
    on a line of its own: no line is cut, and the marker is always there.
    The kept lines fit the budget; the whole diff portion is at most the
    budget, plus the newline that separates the marker, plus the marker. *)
Theorem promptDiff_truncated (file : ChangedFile) (patch : string) :
  calculateMaxDiffLength file < String.length patch →
  ∃ k, k < length (split_lines patch) ∧
       promptDiff file patch
         = join_lines (take k (split_lines patch) ++ [truncationMarker]) ∧
       String.length (join_lines (take k (split_lines patch)))
         ≤ calculateMaxDiffLength file ∧
       String.length (promptDiff file patch)
         ≤ calculateMaxDiffLength file + 1 + String.length truncationMarker.
Proof.
  intros Hlong. unfold promptDiff.
  replace (calculateMaxDiffLength file <? String.length patch) with true
    by (symmetry; by apply Nat.ltb_lt).
  destruct (truncateLoop_spec (calculateMaxDiffLength file) (split_lines patch) [] 0)
    as (k & Hk & Heq & Hlen).
  - done.
  - lia.
  - rewrite linesLength_split. lia.
  - rewrite app_nil_l in Heq, Hlen. exists k. rewrite Heq. split_and!; [done | done | |].
    + destruct (take k (split_lines patch)) as [|l ls] eqn:Htake; [unfold join_lines; simpl; lia|].
      pose proof (length_join_lines (l :: ls) ltac:(done)). lia.
    + assert (String.length (join_lines (take k (split_lines patch) ++ [truncationMarker])) + 1
              = linesLength (take k (split_lines patch)) + (String.length truncationMarker + 1)).
      { rewrite length_join_lines by (by destruct (take k (split_lines patch))).
        rewrite linesLength_app. simpl. lia. }
      lia.
Qed.

Lemma promptDiff_truncated_witness :
  calculateMaxDiffLength longLineFile < String.length longLinePatch ∧
  ∃ k, k < length (split_lines longLinePatch) ∧
       promptDiff longLineFile longLinePatch
         = join_lines (take k (split_lines longLinePatch) ++ [truncationMarker]) ∧
       String.length (join_lines (take k (split_lines longLinePatch)))
         ≤ calculateMaxDiffLength longLineFile ∧
       String.length (promptDiff longLineFile longLinePatch)
         ≤ calculateMaxDiffLength longLineFile + 1 + String.length truncationMarker.
Proof.
  assert (calculateMaxDiffLength longLineFile < String.length longLinePatch) as H.
  { apply Nat.ltb_lt. vm_compute. reflexivity. }
  split; [exact H|].
  exact (promptDiff_truncated longLineFile longLinePatch H).
Defined.

(** C4, with the bound of the specification, fails when the kept lines fill
    the budget exactly: the result is one unit longer than budget plus
    marker. *)
Lemma truncationBound_longLine : ¬ truncationBound longLineFile longLinePatch.
Proof.
  unfold truncationBound. intros H.
  assert (calculateMaxDiffLength longLineFile < String.length longLinePatch) as Hlong.
  { apply Nat.ltb_lt. vm_compute. reflexivity. }
  specialize (H Hlong). apply Nat.leb_le in H.
  vm_compute in H. discriminate.
Qed.


(** ** Response Repairer *)

Lemma scanFrom_app (a b : string) (i : Z) (st : ScanState) :
  scanFrom i (a +:+ b) st
  = scanFrom (i + Z.of_nat (String.length a)) b (scanFrom i a st).
Proof.
  revert i st. induction a as [|c a IH]; intros i st; simpl.
  - by rewrite Z.add_0_r.
  - rewrite IH. f_equal. lia.
Qed.

Lemma scanStep_index (st : ScanState) (i : Z) (c : ascii) :
  lastCompleteObjectIndex (scanStep st i c) = lastCompleteObjectIndex st
  ∨ (lastCompleteObjectIndex (scanStep st i c) = i ∧ atElementEnd (scanStep st i c)).
Proof.
  unfold scanStep, atElementEnd.
  destruct (escaped st); [by left|].
  destruct (Ascii.eqb c "\"); [by left|].
  destruct (Ascii.eqb c "034"); [by left|].
  destruct (inString st); simpl; [by left|].
  destruct (Ascii.eqb c "["); [by left|].
  destruct (Ascii.eqb c "]"); [by left|].
  destruct (Ascii.eqb c "{"); [by left|].
  destruct (Ascii.eqb c "}"); [|by left]. simpl.
  destruct ((openBraces st - 1 =? 0)%Z && (openBrackets st =? 1)%Z) eqn:E; [|by left].
  apply andb_true_iff in E as [?%Z.eqb_eq ?%Z.eqb_eq]. by right.
Qed.

(** The recorded index is the position of some step of the scan. *)
Lemma scanFrom_index_range (s : string) (i : Z) (st : ScanState) :
  let st' := scanFrom i s st in
  lastCompleteObjectIndex st' = lastCompleteObjectIndex st
  ∨ (i ≤ lastCompleteObjectIndex st' < i + Z.of_nat (String.length s))%Z.
Proof.
  revert i st. induction s as [|c s IH]; intros i st; simpl; [by left|].
  destruct (IH (i + 1)%Z (scanStep st i c)) as [Heq|Hin].
  - rewrite Heq. destruct (scanStep_index st i c) as [?|[? _]]; [by left|right; lia].
  - right. lia.
Qed.

(** Scanning up to the recorded index, and no further, ends just after a
    top-level element. *)
Lemma scanFrom_cut (s : string) (i : Z) (st : ScanState) :
  (lastCompleteObjectIndex st < i)%Z →
  let j := lastCompleteObjectIndex (scanFrom i s st) in
  (i ≤ j)%Z →
  atElementEnd (scanFrom i (String.substring 0 (Z.to_nat (j - i + 1)) s) st).
Proof.
  revert i st. induction s as [|c s IH]; intros i st Hlt j Hj.
  - simpl in j. lia.
  - simpl in j.
    destruct (scanFrom_index_range s (i + 1) (scanStep st i c)) as [Heq|Hin].
    + (* the index was recorded by this step *)
      fold j in Heq.
      destruct (scanStep_index st i c) as [Hsame|[Hi Hend]]; [lia|].
      replace (Z.to_nat (j - i + 1)) with 1 by lia.
      simpl. by destruct s.
    + fold j in Hin.
      replace (Z.to_nat (j - i + 1)) with (S (Z.to_nat (j - (i + 1) + 1))) by lia.
      simpl. apply IH; [|lia].
      destruct (scanStep_index st i c) as [->|[-> _]]; lia.
Qed.

Lemma scanFrom_braces (n : nat) (i : Z) (st : ScanState) :
  inString st = false → escaped st = false →
  let st' := scanFrom i (string_of_list_ascii (replicate n "}"%char)) st in
  openBraces st' = (openBraces st - Z.of_nat n)%Z ∧
  openBrackets st' = openBrackets st ∧
  inString st' = false ∧ escaped st' = false.
Proof.
  revert i st. induction n as [|n IH]; intros i st Hs He; simpl.
  - split_and!; [lia | done..].
  - destruct (IH (i + 1)%Z (scanStep st i "}")) as (Hb & Hk & Hs' & He').
    + unfold scanStep. by rewrite He, Hs.
    + unfold scanStep. by rewrite He, Hs.
    + rewrite Hb, Hk. split_and!; [|  | done..].
      * unfold scanStep. rewrite He, Hs. simpl. lia.
      * unfold scanStep. by rewrite He, Hs.
Qed.

Lemma scanFrom_brackets (n : nat) (i : Z) (st : ScanState) :
  inString st = false → escaped st = false →
  let st' := scanFrom i (string_of_list_ascii (replicate n "]"%char)) st in
  openBraces st' = openBraces st ∧
  openBrackets st' = (openBrackets st - Z.of_nat n)%Z.
Proof.
  revert i st. induction n as [|n IH]; intros i st Hs He; simpl.
  - split; [done | lia].
  - destruct (IH (i + 1)%Z (scanStep st i "]")) as (Hb & Hk).
    + unfold scanStep. by rewrite He, Hs.
    + unfold scanStep. by rewrite He, Hs.
    + rewrite Hb, Hk. split.
      * unfold scanStep. by rewrite He, Hs.
      * unfold scanStep. rewrite He, Hs. simpl. lia.
Qed.

(** Whenever [repairIncompleteJson] truncates to the last complete element,
    it goes on to append the closers counted on the text before truncation:
    what it returns closes more than is open. *)
Lemma repairIncompleteJson_overcloses (jsonString : string) :
  truncates jsonString → ¬ closesEvenly (repairIncompleteJson jsonString).
Proof.
  unfold truncates, closesEvenly, repairIncompleteJson.
  set (text := trim jsonString).
  set (st := scanFrom 0 text initialScanState).
  intros [Hopen Hidx].
  replace (((0 <? openBraces st)%Z || (1 <? openBrackets st)%Z)
           && (-1 <? lastCompleteObjectIndex st)%Z) with true.
  2:{ symmetry. apply andb_true_iff. split; [|by apply Z.ltb_lt].
      apply orb_true_iff. destruct Hopen; [left|right]; by apply Z.ltb_lt. }
  set (cut := String.substring 0 (Z.to_nat (lastCompleteObjectIndex st + 1)) text).
  assert (atElementEnd (scanFrom 0 cut initialScanState)) as (Hb & Hk & Hs & He).
  { pose proof (scanFrom_cut text 0 initialScanState) as H.
    simpl in H. fold st in H. rewrite Z.sub_0_r in H. apply H; [lia|].
    fold st. lia. }
  rewrite !scanFrom_app.
  set (stc := scanFrom 0 cut initialScanState) in *.
  destruct (scanFrom_braces (Z.to_nat (openBraces st))
              (0 + Z.of_nat (String.length cut)) stc Hs He) as (Hb1 & Hk1 & Hs1 & He1).
  unfold closers.
  set (st1 := scanFrom _ (string_of_list_ascii (replicate (Z.to_nat (openBraces st)) "}"%char)) stc) in *.
  destruct (scanFrom_brackets (Z.to_nat (openBrackets st))
              (0 + Z.of_nat (String.length cut)
               + Z.of_nat (String.length (string_of_list_ascii
                             (replicate (Z.to_nat (openBraces st)) "}"%char))))
              st1 Hs1 He1) as (Hb2 & Hk2).
  intros [Hz1 Hz2]. rewrite Hb2 in Hz1. rewrite Hk2 in Hz2. lia.
Qed.

(** Where the repair works: only the closing bracket is missing, or the
    text is cut inside its first element. *)
Example repairIncompleteJson_missing_bracket :
  repairIncompleteJson ("[" +:+ firstComment) = "[" +:+ firstComment +:+ "]".
Proof. vm_compute. reflexivity. Qed.

Example repairIncompleteJson_first_element_cut :
  repairIncompleteJson ("  [{" +:+ jsonField "path" "a.ts" +:+ "," +:+ dquote +:+ "line"
                        +:+ dquote +:+ ":1")
  = "[{" +:+ jsonField "path" "a.ts" +:+ "," +:+ dquote +:+ "line" +:+ dquote +:+ ":1}]".
Proof. vm_compute. reflexivity. Qed.

(** C1.  On a response cut inside its second element, [repairIncompleteJson]
    truncates to the end of the first element and then appends the closers it
    counted before truncating, a brace and a bracket: the result carries a
    brace too many and is not the array of the first element. *)
Theorem repairIncompleteJson_cutResponse :
  repairIncompleteJson cutResponse = "[" +:+ firstComment +:+ "}]" ∧
  repairIncompleteJson cutResponse ≠ "[" +:+ firstComment +:+ "]" ∧
  ¬ closesEvenly (repairIncompleteJson cutResponse).
Proof.
  split_and!.
  - vm_compute. reflexivity.
  - vm_compute. discriminate.
  - apply repairIncompleteJson_overcloses.
    unfold truncates. vm_compute. split; [by left | done].
Qed.


(** ** Response Parser *)

Lemma truthy_default (o : option JsValue) :
  truthy (default JUndefined o) = true → ∃ v, o = Some v ∧ truthy v = true.
Proof. destruct o as [v|]; simpl; [eauto | done]. Qed.

Lemma validComment_object (properties : gmap string JsValue) :
  validComment (JObject properties) = Ok true →
  passesValidation (JObject properties).
Proof.
  unfold validComment, getProperty. simpl.
  destruct (truthy (default JUndefined (properties !! "path"))) eqn:Hpath;
    simpl; [|done].
  destruct (truthy (default JUndefined (properties !! "message"))) eqn:Hmsg;
    simpl; [|done].
  destruct (truthy (default JUndefined (properties !! "line"))) eqn:Hline;
    simpl; [|done].
  destruct (truthy (default JUndefined (properties !! "severity"))) eqn:Hsev;
    simpl; [|done].
  apply truthy_default in Hpath as (path & Hp & Hpt).
  apply truthy_default in Hmsg as (message & Hm & Hmt).
  apply truthy_default in Hline as (line & Hl & Hlt).
  apply truthy_default in Hsev as (severity & Hs & Hst).
  rewrite Hs, Hl. simpl.
  destruct severity as [| | | |sev| |]; simpl; try done.
  destruct (bool_decide (sev ∈ ["error"; "warning"; "info"])) eqn:Hin; simpl; [|done].
  apply bool_decide_eq_true in Hin.
  destruct line as [| | |n| | |]; simpl; try done.
  destruct (numberLeZero n) eqn:Hn; [done|]. intros _.
  exists properties, path, message, sev, n. done.
Qed.

Lemma validComment_passes (comment : JsValue) :
  validComment comment = Ok true ↔ passesValidation comment.
Proof.
  split.
  - destruct comment; try done. apply validComment_object.
  - intros (properties & path & message & severity & line & -> &
            Hp & Hpt & Hm & Hmt & Hs & Hin & Hl & Hlt & Hn).
    unfold validComment, getProperty. simpl.
    rewrite Hp, Hm, Hl, Hs. simpl. rewrite Hpt, Hmt. simpl.
    simpl in Hlt. rewrite Hlt. simpl.
    assert ((severity =? "")%string = false) as ->.
    { apply String.eqb_neq. intros ->.
      repeat (apply elem_of_cons in Hin as [Hin|Hin]; [discriminate|]).
      by apply elem_of_nil in Hin. }
    simpl. rewrite bool_decide_eq_true_2 by done. simpl.
    by rewrite Hn.
Qed.



Lemma arrayFilter_passes (arr kept : list JsValue) :
  arrayFilter validComment arr = Ok kept → Forall passesValidation kept.
Proof.
  revert kept. induction arr as [|c arr IH]; intros kept; simpl.
  - intros [= <-]. constructor.
  - destruct (validComment c) as [keep|] eqn:Hc; simpl; [|done].
    destruct (arrayFilter validComment arr) as [kept'|]; simpl; [|done].
    intros [= <-]. destruct keep.
    + constructor; [by apply validComment_passes | by apply IH].
    + by apply IH.
Qed.

Lemma validateComments_passes (jsonData : JsValue) (kept : list JsValue) :
  validateComments jsonData = Ok kept → Forall passesValidation kept.
Proof.
  destruct jsonData; simpl; try (intros [= <-]; constructor).
  apply arrayFilter_passes.
Qed.

Lemma validateComments_not_array (jsonData : JsValue) :
  isArray jsonData = false → validateComments jsonData = Ok [].
Proof. by destruct jsonData. Qed.




(** A [null] element makes the filter callback throw: the whole batch is
    lost to the outer [catch]. *)
Lemma parseGeminiResponse_null_element (JSON_parse : string → Result JsValue)
    (response filename : string) (rest : list JsValue) :
  JSON_parse (trim response) = Ok (JArray (JNull :: rest)) →
  parseGeminiResponse JSON_parse response filename = Ok [].
Proof.
  intros Hparse. unfold parseGeminiResponse, parseGeminiResponse_try, parseDirect.
  rewrite Hparse. reflexivity.
Qed.

Lemma parseGeminiResponse_returns (JSON_parse : string → Result JsValue)
    (response filename : string) :
  ∃ comments, parseGeminiResponse JSON_parse response filename = Ok comments ∧
              Forall passesValidation comments.
Proof.
  unfold parseGeminiResponse, parseGeminiResponse_try.
  destruct (parseDirect JSON_parse response) as [jsonData|e].
  - destruct (validateComments jsonData) as [kept|e] eqn:Hv; simpl.
    + exists kept. split; [done|]. by eapply validateComments_passes.
    + exists []. by split.
  - destruct (extractJson JSON_parse response) as [jsonData|].
    + destruct (validateComments jsonData) as [kept|e'] eqn:Hv; simpl.
      * exists kept. split; [done|]. by eapply validateComments_passes.
      * exists []. by split.
    + exists []. by split.
Qed.

(** C6 (amended).  [parseGeminiResponse] never completes abruptly: for every
    response, file name and behaviour of [JSON.parse] it returns a list, whose
    elements all passed the validation of the code (a truthy path and message,
    a severity of the closed set, a number above zero as line), and it returns
    the empty list when the response is beyond recovery: no array in it, no
    parse even after repair, or a value that is not an array. *)
Theorem parseGeminiResponse_never_throws (JSON_parse : string → Result JsValue)
    (response filename : string) :
  (∃ comments, parseGeminiResponse JSON_parse response filename = Ok comments ∧
               Forall passesValidation comments) ∧
  (Unrecoverable JSON_parse response →
   parseGeminiResponse JSON_parse response filename = Ok []).
Proof.
  split.
  - apply parseGeminiResponse_returns.
  - unfold parseGeminiResponse, parseGeminiResponse_try.
    intros [Hdirect Hno | start Hdirect Hmatch Hstart Hrepair
           | jsonMatch Hdirect Hmatch Hparse Hrepair
           | jsonData Hdirect Hextract Harr];
      destruct (parseDirect JSON_parse response) as [|e]; try done.
    + unfold extractJson.
      destruct (matchJsonArray response) as [m|] eqn:Hm; [|by rewrite Hno].
      unfold matchJsonArray in Hm. by rewrite Hno in Hm.
    + unfold extractJson. rewrite Hmatch, Hstart.
      by destruct (JSON_parse _).
    + unfold extractJson. rewrite Hmatch.
      destruct (JSON_parse jsonMatch); [done|].
      by destruct (JSON_parse _).
    + rewrite Hextract. by rewrite validateComments_not_array.
Qed.

Lemma parseGeminiResponse_never_throws_witness :
  Unrecoverable rejectAll "No issues found." ∧
  parseGeminiResponse rejectAll "No issues found." "a.ts" = Ok [].
Proof.
  assert (Unrecoverable rejectAll "No issues found.") as H.
  { apply NoArrayPresent; reflexivity. }
  split; [exact H|].
  exact (proj2 (parseGeminiResponse_never_throws rejectAll "No issues found." "a.ts") H).
Defined.

(** The finding of [fractionalResponse] comes back from the parser, whatever
    [JSON.parse] does on other texts. *)
Lemma parseGeminiResponse_fractional (JSON_parse : string → Result JsValue)
    (filename : string) :
  JSON_parse fractionalResponse = Ok (JArray [commentAt "a.ts" oneAndAHalf "m"]) →
  parseGeminiResponse JSON_parse fractionalResponse filename
  = Ok [commentAt "a.ts" oneAndAHalf "m"].
Proof.
  intros Hparse. unfold parseGeminiResponse, parseGeminiResponse_try, parseDirect.
  change (trim fractionalResponse) with fractionalResponse.
  rewrite Hparse. vm_compute. reflexivity.
Qed.

Lemma fractional_not_specValid : ¬ specValidComment (commentAt "a.ts" oneAndAHalf "m").
Proof.
  intros (properties & path & message & severity & line & Heq &
          _ & _ & _ & _ & _ & _ & Hl & Hint).
  injection Heq as <-.
  rewrite lookup_insert_ne in Hl by done. rewrite lookup_insert_eq in Hl.
  injection Hl as <-.
  destruct Hint as [Hden _]. vm_compute in Hden. discriminate.
Qed.

(** C6, as the specification words it, fails on a response whose finding has
    the line 1.5: the parser returns the finding, and a line that is no whole
    number makes no valid comment. *)
Lemma parserContractClaim_fractional_line : ¬ parserContractClaim parseFractional.
Proof.
  intros Hclaim.
  destruct (Hclaim fractionalResponse "a.ts") as (comments & Hrun & Hvalid).
  rewrite (parseGeminiResponse_fractional parseFractional "a.ts") in Hrun
    by (vm_compute; reflexivity).
  injection Hrun as <-.
  apply Forall_cons in Hvalid as [Hvalid _].
  by apply fractional_not_specValid.
Qed.



(** ** Comment Deduplicator *)


Lemma commentKey_readable (otherToString : JsValue → string) (comment : JsValue) :
  readable comment →
  commentKey otherToString comment = Ok (pathLineKey otherToString comment).
Proof.
  intros [Hnull Hundef]. unfold pathLineKey, commentKey.
  by destruct comment.
Qed.

Lemma passesValidation_readable (comment : JsValue) :
  passesValidation comment → readable comment.
Proof. intros (properties & ? & ? & ? & ? & -> & _). by split. Qed.

Lemma filterDuplicateComments_filter (otherToString : JsValue → string)
    (comments : list JsValue) (existing : gset string) :
  Forall readable comments →
  filterDuplicateComments otherToString comments existing
  = Ok (List.filter (λ c, negb (bool_decide (pathLineKey otherToString c ∈ existing)))
          comments).
Proof.
  unfold filterDuplicateComments.
  induction 1 as [|c comments Hc _ IH]; [done|].
  simpl. rewrite (commentKey_readable _ _ Hc). simpl. rewrite IH. simpl.
  by destruct (bool_decide _).
Qed.





(** The example of the specification: with ["a.ts:10"] already posted, of
    two comments on lines 10 and 11 of [a.ts] only the second is kept. *)
Lemma filterDuplicateComments_example :
  filterDuplicateComments plainToString
    [commentAt "a.ts" (integerNumber 10) "first"; commentAt "a.ts" (integerNumber 11) "second"]
    {[ "a.ts:10" ]}
  = Ok [commentAt "a.ts" (integerNumber 11) "second"].
Proof. vm_compute. reflexivity. Qed.


(** ** Posting *)

Lemma posted_andThen_quiet {A B : Type} (r : Result A)
    (next : A → Run B) (p : CreateReviewParams) :
  p ∈ posted (andThen (quiet r) next) → ∃ a, r = Ok a ∧ p ∈ posted (next a).
Proof.
  unfold andThen, quiet, posted. destruct r as [a|e]; simpl.
  - destruct (next a) as [calls r'] eqn:Hn. simpl. intros Hp.
    exists a. rewrite Hn. done.
  - intros Hp. by apply elem_of_nil in Hp.
Qed.

Lemma andThen_quiet_ok {A B : Type} (a : A) (next : A → Run B) :
  andThen (quiet (Ok a)) next = next a.
Proof. unfold andThen, quiet. by destruct (next a). Qed.

Lemma andThen_quiet_throw {A B : Type} (e : string) (next : A → Run B) :
  andThen (quiet (Throw e)) next = quiet (Throw e).
Proof. reflexivity. Qed.

Lemma postReviewComments_event (otherToString : JsValue → string) (octokit : Octokit)
    (owner repo : string) (prNumber : nat) (comments : list JsValue)
    (p : CreateReviewParams) :
  p ∈ posted (postReviewComments otherToString octokit owner repo prNumber comments) →
  cr_event p = "COMMENT".
Proof.
  unfold postReviewComments.
  destruct (length comments =? 0); [intros Hp; by apply elem_of_nil in Hp|].
  intros Hp.
  apply posted_andThen_quiet in Hp as (errorCount & _ & Hp).
  apply posted_andThen_quiet in Hp as (warningCount & _ & Hp).
  apply posted_andThen_quiet in Hp as (infoCount & _ & Hp).
  apply posted_andThen_quiet in Hp as (reviewComments & _ & Hp).
  unfold posted in Hp. simpl in Hp.
  apply list_elem_of_singleton in Hp as ->. reflexivity.
Qed.

Lemma reviewPullRequest_posted (JSON_parse : string → Result JsValue)
    (otherToString : JsValue → string) (config : Config) (env : Env)
    (owner repo : string) (prNumber : nat) (p : CreateReviewParams) :
  p ∈ posted (reviewPullRequest JSON_parse otherToString config env owner repo prNumber) →
  ∃ octokit comments,
    p ∈ posted (postReviewComments otherToString octokit owner repo prNumber comments).
Proof.
  unfold reviewPullRequest. intros Hp.
  apply posted_andThen_quiet in Hp as (client & _ & Hp).
  destruct client as [octokit|]; [|by apply elem_of_nil in Hp].
  apply posted_andThen_quiet in Hp as (pullRequest & _ & Hp).
  destruct (pr_draft pullRequest); [by apply elem_of_nil in Hp|].
  destruct (negb _); [by apply elem_of_nil in Hp|].
  apply posted_andThen_quiet in Hp as (files & _ & Hp).
  destruct (length files =? 0); [by apply elem_of_nil in Hp|].
  destruct (length (take _ _) =? 0); [by apply elem_of_nil in Hp|].
  apply posted_andThen_quiet in Hp as (existingComments & _ & Hp).
  apply posted_andThen_quiet in Hp as (allComments & _ & Hp).
  apply posted_andThen_quiet in Hp as (newComments & _ & Hp).
  destruct (length newComments =? 0); [by apply elem_of_nil in Hp|].
  eauto.
Qed.

Lemma scanPullRequest_posted (JSON_parse : string → Result JsValue)
    (otherToString : JsValue → string) (config : Config) (env : Env)
    (owner repo : string) (processedPRs : gmap string Polling.ProcessedPR)
    (pr : PullRequest) (p : CreateReviewParams) :
  p ∈ (Polling.scanPullRequest JSON_parse otherToString config env owner repo
         processedPRs pr).1 →
  p ∈ posted (reviewPullRequest JSON_parse otherToString config env owner repo (pr_number pr)).
Proof.
  unfold Polling.scanPullRequest, posted.
  destruct (_ || _); [|intros Hp; by apply elem_of_nil in Hp].
  by destruct (reviewPullRequest _ _ _ _ _ _ _) as [calls [|]].
Qed.

Lemma scanPullRequests_posted (JSON_parse : string → Result JsValue)
    (otherToString : JsValue → string) (config : Config) (env : Env)
    (owner repo : string) (pullRequests : list PullRequest)
    (processedPRs : gmap string Polling.ProcessedPR) (p : CreateReviewParams) :
  p ∈ (Polling.scanPullRequests JSON_parse otherToString config env owner repo
         processedPRs pullRequests).1 →
  ∃ prNumber,
    p ∈ posted (reviewPullRequest JSON_parse otherToString config env owner repo prNumber).
Proof.
  revert processedPRs.
  induction pullRequests as [|pr rest IH]; intros processedPRs; simpl.
  - intros Hp. by apply elem_of_nil in Hp.
  - destruct (Polling.scanPullRequest _ _ _ _ _ _ _ pr) as [calls m'] eqn:Hone.
    destruct (Polling.scanPullRequests _ _ _ _ _ _ m' rest) as [calls' m''] eqn:Hrest.
    simpl. intros [Hp|Hp]%elem_of_app.
    + exists (pr_number pr). apply scanPullRequest_posted with (processedPRs := processedPRs).
      by rewrite Hone.
    + apply (IH m'). by rewrite Hrest.
Qed.

(** C8.  Every review the system posts carries the event COMMENT, never
    APPROVE or REQUEST_CHANGES: this holds of every call of
    [pulls.createReview] made by [postReviewComments], hence by
    [reviewPullRequest], by a scan of the polling path and by
    [processPRReview] of the webhook path. *)
Theorem posted_reviews_are_comments (JSON_parse : string → Result JsValue)
    (otherToString : JsValue → string) (config : Config) (env : Env)
    (owner repo : string) (p : CreateReviewParams) :
  (∀ octokit prNumber comments,
     p ∈ posted (postReviewComments otherToString octokit owner repo prNumber comments) →
     cr_event p = "COMMENT" ∧ cr_event p ≠ "APPROVE" ∧ cr_event p ≠ "REQUEST_CHANGES") ∧
  (∀ prNumber,
     p ∈ posted (reviewPullRequest JSON_parse otherToString config env owner repo prNumber) →
     cr_event p = "COMMENT") ∧
  (∀ processedPRs,
     p ∈ (Polling.scanRepository JSON_parse otherToString config env owner repo
            processedPRs).1 →
     cr_event p = "COMMENT") ∧
  (∀ now processedPRs prNumber action headSha,
     p ∈ (Webhook.processPRReview JSON_parse otherToString config env now processedPRs
            owner repo prNumber action headSha).1 →
     cr_event p = "COMMENT").
Proof.
  assert (∀ prNumber,
     p ∈ posted (reviewPullRequest JSON_parse otherToString config env owner repo prNumber) →
     cr_event p = "COMMENT") as Hreview.
  { intros prNumber Hp.
    apply reviewPullRequest_posted in Hp as (octokit & comments & Hp).
    by eapply postReviewComments_event. }
  split_and!.
  - intros octokit prNumber comments Hp.
    apply postReviewComments_event in Hp. rewrite Hp. done.
  - exact Hreview.
  - intros processedPRs. unfold Polling.scanRepository.
    destruct (getRepositoryOctokit env owner repo) as [[octokit|]|];
      try (intros Hp; by apply elem_of_nil in Hp).
    destruct (pulls_list octokit owner repo) as [pullRequests|];
      [|intros Hp; by apply elem_of_nil in Hp].
    intros Hp. apply scanPullRequests_posted in Hp as [prNumber Hp]. eauto.
  - intros now processedPRs prNumber action headSha. unfold Webhook.processPRReview.
    intros Hp. apply (Hreview prNumber). unfold posted.
    by destruct (reviewPullRequest _ _ _ _ _ _ _) as [calls [|]].
Qed.

Lemma posted_reviews_are_comments_witness :
  let comments := [commentAt "a.ts" (integerNumber 3) "x"] in
  let run := postReviewComments plainToString acceptingOctokit "o" "r" 7 comments in
  ∃ p, p ∈ posted run ∧ completion run = Ok () ∧ cr_event p = "COMMENT".
Proof.
  intros comments run.
  assert (∃ p, posted run = [p] ∧ completion run = Ok ()) as (p & Hrun & Hdone).
  { eexists. split; vm_compute; reflexivity. }
  exists p.
  assert (p ∈ posted run) as Hp by (rewrite Hrun; apply list_elem_of_singleton; reflexivity).
  split_and!; [exact Hp | exact Hdone |].
  exact (proj1 (proj1 (posted_reviews_are_comments rejectAll plainToString
                         {| maxFiles := 10; maxLinesPerFile := 500 |}
                         {| getRepositoryOctokit := λ _ _, offline;
                            callGemini := λ _, offline |}
                         "o" "r" p)
                  acceptingOctokit 7 comments Hp)).
Defined.


(** ** Review Orchestrator *)

Section OrchestratorFacts.

Context (JSON_parse : string → Result JsValue) (otherToString : JsValue → string)
        (config : Config).

Lemma reviewChunk_returns (env : Env) (file : ChangedFile) (total i : nat) (hunk : Hunk) :
  ∃ comments, reviewChunk JSON_parse env file total i hunk = Ok comments ∧
              Forall passesValidation comments.
Proof.
  unfold reviewChunk.
  destruct (buildPrompt _) as [prompt|]; simpl; [|by exists []].
  destruct (callGemini env prompt) as [response|]; simpl; [|by exists []].
  destruct (parseGeminiResponse_returns JSON_parse response
              (file_filename file +:+ "[" +:+ pretty (i + 1) +:+ "/" +:+ pretty total +:+ "]"))
    as (comments & -> & Hc).
  by exists comments.
Qed.

Lemma reviewChunks_passes (env : Env) (file : ChangedFile) (total : nat)
    (hunks : list Hunk) (i : nat) (comments : list JsValue) :
  reviewChunks JSON_parse env file total i hunks = Ok comments →
  Forall passesValidation comments.
Proof.
  revert i comments. induction hunks as [|hunk rest IH]; intros i comments; simpl.
  - intros [= <-]. constructor.
  - destruct (reviewChunk_returns env file total i hunk) as (c1 & -> & H1). simpl.
    destruct (reviewChunks JSON_parse env file total (S i) rest) as [c2|] eqn:H2;
      simpl; [|done].
    intros [= <-]. apply Forall_app. split; [done|]. by eapply IH.
Qed.

Lemma reviewLargeFile_returns (env : Env) (file : ChangedFile) :
  ∃ comments, reviewLargeFile JSON_parse env file = Ok comments ∧
              Forall passesValidation comments.
Proof.
  unfold reviewLargeFile.
  destruct (file_patch file) as [patch|]; simpl; [|by exists []].
  destruct (reviewChunks _ _ _ _ _ _) as [comments|] eqn:Hc; simpl; [|by exists []].
  exists comments. split; [done|]. by eapply reviewChunks_passes.
Qed.

(** A failure inside the review of one file yields no comment and no
    exception. *)
Lemma reviewFile_returns (env : Env) (file : ChangedFile) :
  ∃ comments, reviewFile JSON_parse env file = Ok comments ∧
              Forall passesValidation comments.
Proof.
  unfold reviewFile.
  destruct (_ && _).
  - destruct (reviewLargeFile_returns env file) as (comments & -> & Hc).
    by exists comments.
  - destruct (buildPrompt file) as [prompt|]; simpl; [|by exists []].
    destruct (callGemini env prompt) as [response|]; simpl; [|by exists []].
    destruct (parseGeminiResponse_returns JSON_parse response (file_filename file))
      as (comments & -> & Hc).
    by exists comments.
Qed.

Lemma reviewFiles_returns (env : Env) (files : list ChangedFile) :
  ∃ comments, reviewFiles JSON_parse env files = Ok comments ∧
              Forall passesValidation comments.
Proof.
  induction files as [|file rest (others & IH & Ho)]; simpl.
  - by exists [].
  - assert (∃ c, (if hasPatch file then reviewFile JSON_parse env file else Ok []) = Ok c
                 ∧ Forall passesValidation c) as (c & -> & Hc).
    { destruct (hasPatch file); [apply reviewFile_returns | by exists []]. }
    rewrite IH. simpl. exists (c ++ others). split; [done|]. by apply Forall_app.
Qed.

Lemma getExistingComments_returns (octokit : Octokit) (owner repo : string) (prNumber : nat) :
  ∃ existing, getExistingComments octokit owner repo prNumber = Ok existing.
Proof.
  unfold getExistingComments.
  destruct (_ ≫= _) as [existing|]; simpl; eauto.
Qed.




(** [reviewPullRequest] up to the end of the file filter. *)
Lemma reviewPullRequest_open (env : Env) (owner repo : string) (prNumber : nat)
    (octokit : Octokit) (pullRequest : PullRequest) (files : list ChangedFile) :
  getRepositoryOctokit env owner repo = Ok (Some octokit) →
  pulls_get octokit owner repo prNumber = Ok pullRequest →
  pr_draft pullRequest = false →
  pr_state pullRequest = "open" →
  pulls_listFiles octokit owner repo prNumber = Ok files →
  take (maxFiles config) (List.filter (isReviewableFile config) files) ≠ [] →
  ∃ existing allComments,
    getExistingComments octokit owner repo prNumber = Ok existing ∧
    reviewFiles JSON_parse env
      (take (maxFiles config) (List.filter (isReviewableFile config) files)) = Ok allComments ∧
    Forall passesValidation allComments ∧
    reviewPullRequest JSON_parse otherToString config env owner repo prNumber
    = let newComments :=
        List.filter (λ c, negb (bool_decide (pathLineKey otherToString c ∈ existing)))
          allComments in
      if length newComments =? 0 then quiet (Ok ())
      else postReviewComments otherToString octokit owner repo prNumber newComments.
Proof.
  intros Hclient Hget Hdraft Hstate Hfiles Hreviewable.
  destruct (getExistingComments_returns octokit owner repo prNumber) as [existing Hex].
  destruct (reviewFiles_returns env
              (take (maxFiles config) (List.filter (isReviewableFile config) files)))
    as (allComments & Hall & Hvalid).
  exists existing, allComments. split_and!; [done..|].
  unfold reviewPullRequest.
  rewrite Hclient, andThen_quiet_ok, Hget, andThen_quiet_ok, Hdraft, Hstate.
  simpl negb. cbv iota.
  rewrite Hfiles, andThen_quiet_ok.
  assert ((length files =? 0) = false) as ->.
  { apply Nat.eqb_neq. destruct files; [|done].
    exfalso. apply Hreviewable. simpl. apply take_nil. }
  assert ((length (take (maxFiles config) (List.filter (isReviewableFile config) files))
           =? 0) = false) as ->.
  { apply Nat.eqb_neq. by destruct (take _ _). }
  rewrite Hex, andThen_quiet_ok, Hall, andThen_quiet_ok.
  rewrite filterDuplicateComments_filter.
  - by rewrite andThen_quiet_ok.
  - eapply Forall_impl; [exact Hvalid|]. apply passesValidation_readable.
Qed.

End OrchestratorFacts.


(** ** The key [owner/repo#number] *)

Lemma string_app_assoc (a b c : string) : (a +:+ b) +:+ c = a +:+ b +:+ c.
Proof.
  induction a as [|x a IH]; [done|].
  change (String x ((a +:+ b) +:+ c) = String x (a +:+ b +:+ c)). by rewrite IH.
Qed.

Lemma occurs_app (c : ascii) (a b : string) :
  occurs c (a +:+ b) = occurs c a || occurs c b.
Proof.
  induction a as [|x a IH]; [done|].
  change (String x a +:+ b) with (String x (a +:+ b)).
  cbn [occurs]. by rewrite IH, orb_assoc.
Qed.

Lemma occurs_here (c : ascii) (s : string) : occurs c (String c s) = true.
Proof. cbn [occurs]. by rewrite Ascii.eqb_refl. Qed.

Lemma cut_at_first (c : ascii) (a a' b b' : string) :
  occurs c a = false → occurs c a' = false →
  a +:+ String c b = a' +:+ String c b' → a = a' ∧ b = b'.
Proof.
  revert a'. induction a as [|x a IH]; intros [|x' a'] Ha Ha' Heq.
  - by injection Heq as ->.
  - injection Heq as <- _. cbn [occurs] in Ha'. by rewrite Ascii.eqb_refl in Ha'.
  - injection Heq as -> _. cbn [occurs] in Ha. by rewrite Ascii.eqb_refl in Ha.
  - injection Heq as -> Heq. cbn [occurs] in Ha, Ha'.
    apply orb_false_elim in Ha as [_ Ha]. apply orb_false_elim in Ha' as [_ Ha'].
    destruct (IH a' Ha Ha' Heq) as [-> ->]. done.
Qed.

Lemma cut_at_last (c : ascii) (a a' b b' : string) :
  occurs c b = false → occurs c b' = false →
  a +:+ String c b = a' +:+ String c b' → a = a' ∧ b = b'.
Proof.
  intros Hb Hb'. revert a'. induction a as [|x a IH]; intros [|x' a'] Heq.
  - by injection Heq as ->.
  - injection Heq as <- Heq. exfalso. rewrite Heq, occurs_app, occurs_here in Hb.
    by rewrite orb_true_r in Hb.
  - injection Heq as -> Heq. exfalso. rewrite <- Heq, occurs_app, occurs_here in Hb'.
    by rewrite orb_true_r in Hb'.
  - injection Heq as -> Heq. by destruct (IH a' Heq) as [-> ->].
Qed.

Lemma pretty_N_char_digit (x : N) : Ascii.eqb (pretty_N_char x) "#" = false.
Proof. unfold pretty_N_char. by repeat case_match. Qed.

Lemma pretty_N_go_digits (x : N) (s : string) :
  occurs "#" s = false → occurs "#" (pretty_N_go x s) = false.
Proof.
  revert s. induction (N.lt_wf_0 x) as [x _ IH]; intros s Hs.
  destruct (decide (x = 0%N)) as [->|Hx]; [by rewrite pretty_N_go_0|].
  rewrite pretty_N_go_step by lia. apply IH.
  - apply N.div_lt; lia.
  - cbn [occurs]. by rewrite pretty_N_char_digit.
Qed.

Lemma pretty_nat_digits (n : nat) : occurs "#" (pretty n) = false.
Proof.
  unfold pretty, pretty_nat, pretty, pretty_N.
  destruct (decide (N.of_nat n = 0%N)); [done|]. by apply pretty_N_go_digits.
Qed.

Lemma prKeyOf_cut (owner owner' repo repo' : string) (n n' : nat) :
  occurs "/" owner = false → occurs "/" owner' = false →
  prKeyOf owner repo n = prKeyOf owner' repo' n' →
  owner = owner' ∧ repo = repo' ∧ n = n'.
Proof.
  unfold prKeyOf. intros Ho Ho' Heq.
  change (owner +:+ String "/" (repo +:+ "#" +:+ pretty n)
          = owner' +:+ String "/" (repo' +:+ "#" +:+ pretty n')) in Heq.
  apply cut_at_first in Heq as [-> Heq]; [|done..].
  change (repo +:+ String "#" (pretty n) = repo' +:+ String "#" (pretty n')) in Heq.
  apply cut_at_last in Heq as [-> Heq]; [|apply pretty_nat_digits..].
  by apply (inj pretty) in Heq as ->.
Qed.

(** Equal keys name the same repository, by its full name, and the same
    number. *)
Lemma prKeyOf_repository (owner owner' repo repo' : string) (n n' : nat) :
  prKeyOf owner repo n = prKeyOf owner' repo' n' →
  owner +:+ "/" +:+ repo = owner' +:+ "/" +:+ repo' ∧ n = n'.
Proof.
  unfold prKeyOf. intros Heq.
  assert (∀ (o r : string) (m : nat),
            o +:+ "/" +:+ r +:+ "#" +:+ pretty m
            = (o +:+ "/" +:+ r) +:+ String "#" (pretty m)) as Hshape.
  { intros o r m. by rewrite !string_app_assoc. }
  rewrite !Hshape in Heq.
  apply cut_at_last in Heq as [Hname Heq]; [|apply pretty_nat_digits..].
  split; [done|]. by apply (inj pretty) in Heq.
Qed.

Lemma prKeyOf_other (owner owner' repo repo' : string) (n n' : nat) :
  owner' +:+ "/" +:+ repo' ≠ owner +:+ "/" +:+ repo ∨ n' ≠ n →
  prKeyOf owner' repo' n' ≠ prKeyOf owner repo n.
Proof. intros Hother Heq. apply prKeyOf_repository in Heq as [? ?]. by destruct Hother. Qed.


(** ** Idempotency of the two triggering paths *)

Lemma pollReviews_spec (processedPRs : gmap string Polling.ProcessedPR)
    (owner repo : string) (pr : PullRequest) :
  pollReviews processedPRs owner repo pr = true ↔
  processedPRs !! prKeyOf owner repo (pr_number pr) = None ∨
  ∃ r, processedPRs !! prKeyOf owner repo (pr_number pr) = Some r ∧
       Polling.head_sha r ≠ pr_head_sha pr.
Proof.
  unfold pollReviews, Polling.isNew, Polling.hasNewCommits.
  destruct (processedPRs !! _) as [r|]; simpl.
  - rewrite negb_true_iff, String.eqb_neq. split.
    + intros Hne. right. exists r. split; [done|]. congruence.
    + intros [?|(r' & [= <-] & Hne)]; [done|]. congruence.
  - split; [by left | done].
Qed.

Lemma pollReviews_recorded (processedPRs : gmap string Polling.ProcessedPR)
    (owner repo : string) (pr : PullRequest) (r : Polling.ProcessedPR) :
  pollReviews (<[prKeyOf owner repo (pr_number pr) := r]> processedPRs) owner repo pr
  = negb (String.eqb (pr_head_sha pr) (Polling.head_sha r)).
Proof.
  unfold pollReviews, Polling.isNew, Polling.hasNewCommits.
  by rewrite lookup_insert_eq.
Qed.

Lemma pollReviews_lookup (processedPRs : gmap string Polling.ProcessedPR)
    (owner repo : string) (pr : PullRequest) (r : Polling.ProcessedPR) :
  processedPRs !! prKeyOf owner repo (pr_number pr) = Some r →
  pollReviews processedPRs owner repo pr
  = negb (String.eqb (pr_head_sha pr) (Polling.head_sha r)).
Proof.
  intros Hr. unfold pollReviews, Polling.isNew, Polling.hasNewCommits.
  by rewrite Hr.
Qed.

Lemma handleDelivery_relevant (processedPRs : gmap string Webhook.ProcessedPR)
    (action owner repo : string) (prNumber : nat) (headSha : string) :
  action ∈ Webhook.relevantActions →
  Webhook.handleDelivery processedPRs (payloadOf action owner repo prNumber headSha)
  = if Webhook.alreadyReviewed processedPRs (prKeyOf owner repo prNumber) headSha
    then Webhook.Answered "PR already reviewed for this commit"
    else Webhook.Started owner repo prNumber action headSha.
Proof.
  intros Haction. unfold Webhook.handleDelivery, payloadOf. simpl.
  by rewrite bool_decide_eq_true_2.
Qed.

Lemma alreadyReviewed_spec (processedPRs : gmap string Webhook.ProcessedPR)
    (prKey headSha : string) :
  Webhook.alreadyReviewed processedPRs prKey headSha = false ↔
  processedPRs !! prKey = None ∨
  ∃ r, processedPRs !! prKey = Some r ∧ Webhook.head_sha r ≠ headSha.
Proof.
  unfold Webhook.alreadyReviewed.
  destruct (processedPRs !! prKey) as [r|].
  - rewrite String.eqb_neq. split.
    + intros Hne. right. by exists r.
    + intros [?|(r' & [= <-] & Hne)]; done.
  - split; [by left | done].
Qed.

Section PollingCheck.

Context (JSON_parse : string → Result JsValue) (otherToString : JsValue → string)
        (config : Config).

(** The outcome of a step of the polling loop that reviews: what
    [reviewPullRequest] posted, and the record set if it returned. *)
Lemma scanPullRequest_reviews (env : Env) (owner repo : string)
    (polled : gmap string Polling.ProcessedPR) (pr : PullRequest) :
  let prKey := prKeyOf owner repo (pr_number pr) in
  let run := reviewPullRequest JSON_parse otherToString config env owner repo
               (pr_number pr) in
  (polled !! prKey = None ∨
   ∃ r, polled !! prKey = Some r ∧ Polling.head_sha r ≠ pr_head_sha pr) →
  Polling.scanPullRequest JSON_parse otherToString config env owner repo polled pr
  = (posted run,
     if isOk (completion run) then <[prKey := polledRecord pr]> polled else polled).
Proof.
  intros prKey run Hdue. apply pollReviews_spec in Hdue.
  unfold Polling.scanPullRequest. unfold pollReviews in Hdue. rewrite Hdue.
  fold run. unfold posted, completion. by destruct run as [calls [|]].
Qed.

Lemma scanPullRequest_passes (env : Env) (owner repo : string)
    (polled : gmap string Polling.ProcessedPR) (pr : PullRequest)
    (r : Polling.ProcessedPR) :
  polled !! prKeyOf owner repo (pr_number pr) = Some r →
  Polling.head_sha r = pr_head_sha pr →
  Polling.scanPullRequest JSON_parse otherToString config env owner repo polled pr
  = ([], polled).
Proof.
  intros Hr Hsha. unfold Polling.scanPullRequest, Polling.isNew, Polling.hasNewCommits.
  by rewrite Hr, Hsha, String.eqb_refl.
Qed.

End PollingCheck.

(** An installation service that knows no repository: every review returns
    at once. *)
Lemma notInstalled_returns (JSON_parse : string → Result JsValue)
    (otherToString : JsValue → string) (config : Config) (owner repo : string)
    (prNumber : nat) :
  reviewPullRequest JSON_parse otherToString config notInstalled owner repo prNumber
  = quiet (Ok ()).
Proof. reflexivity. Qed.

(** C5.  In the polling path and in the webhook path alike, a pull request
    is reviewed if and only if there is no record for it or the recorded
    commit differs from the head commit.  In the polling path the step of the
    scan then runs [reviewPullRequest] and records the head commit when it
    returns; it does nothing, whatever the services would answer, exactly when
    the recorded commit is the head commit.  In the webhook path the route
    starts [processPRReview] in the first case and answers that the commit is
    already reviewed in the second.  So a pull request never seen is reviewed,
    and once a review of a commit is recorded, a trigger for the same commit is
    skipped and a trigger for another commit is reviewed.  A record counts for
    its own pull request only: records of another repository or another
    number change nothing. *)
Theorem idempotency_check (JSON_parse : string → Result JsValue)
    (otherToString : JsValue → string) (config : Config)
    (owner repo : string) (pr : PullRequest) (action : string)
    (polled : gmap string Polling.ProcessedPR) (hooked : gmap string Webhook.ProcessedPR) :
  action ∈ Webhook.relevantActions →
  let prKey := prKeyOf owner repo (pr_number pr) in
  let headSha := pr_head_sha pr in
  let scan := λ env, Polling.scanPullRequest JSON_parse otherToString config env owner repo in
  let run := λ env, reviewPullRequest JSON_parse otherToString config env owner repo
                      (pr_number pr) in
  let deliver := λ hooked sha,
    Webhook.handleDelivery hooked (payloadOf action owner repo (pr_number pr) sha) in
  let started := λ sha, Webhook.Started owner repo (pr_number pr) action sha in
  let answered := Webhook.Answered "PR already reviewed for this commit" in
  (* the polling path *)
  ((polled !! prKey = None ∨
    ∃ r, polled !! prKey = Some r ∧ Polling.head_sha r ≠ headSha) →
   ∀ env, scan env polled pr
          = (posted (run env),
             if isOk (completion (run env))
             then <[prKey := polledRecord pr]> polled else polled)) ∧
  ((∀ env, scan env polled pr = ([], polled)) ↔
   ∃ r, polled !! prKey = Some r ∧ Polling.head_sha r = headSha) ∧
  (* the webhook path *)
  (deliver hooked headSha = started headSha ↔
   hooked !! prKey = None ∨
   ∃ r, hooked !! prKey = Some r ∧ Webhook.head_sha r ≠ headSha) ∧
  (deliver hooked headSha = answered ↔
   ∃ r, hooked !! prKey = Some r ∧ Webhook.head_sha r = headSha) ∧
  (* after a review of the head commit is recorded *)
  (∀ env,
     (polled !! prKey = None ∨
      ∃ r, polled !! prKey = Some r ∧ Polling.head_sha r ≠ headSha) →
     isOk (completion (run env)) = true →
     let polled' := (scan env polled pr).2 in
     ∀ env' pr',
       pr_number pr' = pr_number pr →
       (pr_head_sha pr' = headSha → scan env' polled' pr' = ([], polled')) ∧
       (pr_head_sha pr' ≠ headSha →
        scan env' polled' pr'
        = (posted (run env'),
           if isOk (completion (run env'))
           then <[prKey := polledRecord pr']> polled' else polled'))) ∧
  (∀ env now,
     isOk (completion (run env)) = true →
     let hooked' := (Webhook.processPRReview JSON_parse otherToString config env now hooked
                       owner repo (pr_number pr) action headSha).2 in
     ∀ sha, deliver hooked' sha = if String.eqb sha headSha then answered else started sha) ∧
  (* the records of other pull requests *)
  (∀ owner' repo' n' r r',
     owner' +:+ "/" +:+ repo' ≠ owner +:+ "/" +:+ repo ∨ n' ≠ pr_number pr →
     (∀ env, scan env (<[prKeyOf owner' repo' n' := r]> polled) pr
             = ((scan env polled pr).1,
                <[prKeyOf owner' repo' n' := r]> (scan env polled pr).2)) ∧
     deliver (<[prKeyOf owner' repo' n' := r']> hooked) headSha = deliver hooked headSha).
Proof.
  intros Haction prKey headSha scan run deliver started answered.
  assert (∀ m sha, deliver m sha
                   = if Webhook.alreadyReviewed m prKey sha then answered else started sha)
    as Hdeliver.
  { intros m sha. unfold deliver. by rewrite handleDelivery_relevant. }
  split_and!.
  - intros Hdue env. by apply scanPullRequest_reviews.
  - split.
    + intros Hskip. specialize (Hskip notInstalled).
      destruct (polled !! prKey) as [r|] eqn:Hr.
      * exists r. split; [done|].
        destruct (decide (Polling.head_sha r = headSha)) as [|Hne]; [done|].
        unfold scan in Hskip. rewrite scanPullRequest_reviews in Hskip by eauto.
        rewrite notInstalled_returns in Hskip. simpl in Hskip.
        injection Hskip as Hskip.
        apply (f_equal (λ m, m !! prKey)) in Hskip.
        fold prKey in Hskip. rewrite lookup_insert_eq, Hr in Hskip.
        injection Hskip as <-. done.
      * unfold scan in Hskip. rewrite scanPullRequest_reviews in Hskip by eauto.
        rewrite notInstalled_returns in Hskip. simpl in Hskip.
        injection Hskip as Hskip.
        apply (f_equal (λ m, m !! prKey)) in Hskip.
        fold prKey in Hskip. by rewrite lookup_insert_eq, Hr in Hskip.
    + intros (r & Hr & Hsha) env. by eapply scanPullRequest_passes.
  - rewrite Hdeliver, <- alreadyReviewed_spec.
    destruct (Webhook.alreadyReviewed hooked prKey headSha); split; done.
  - rewrite Hdeliver. unfold Webhook.alreadyReviewed.
    destruct (hooked !! prKey) as [r|].
    + destruct (String.eqb_spec (Webhook.head_sha r) headSha) as [Heq|Hne].
      * split; [|done]. intros _. by exists r.
      * split; [done|]. by intros (r' & [= <-] & ?).
    + split; [done|]. by intros (r' & ? & _).
  - intros env Hdue Hok polled' env' pr' Hnum.
    assert (polled' = <[prKey := polledRecord pr]> polled) as Hp.
    { unfold polled', scan. rewrite scanPullRequest_reviews by done.
      fold (run env). by rewrite Hok. }
    assert (prKeyOf owner repo (pr_number pr') = prKey) as Hkey
      by (unfold prKey; by rewrite Hnum).
    assert (run env'
            = reviewPullRequest JSON_parse otherToString config env' owner repo
                (pr_number pr')) as Hrun by (unfold run; by rewrite Hnum).
    split.
    + intros Hsha. unfold scan. apply (scanPullRequest_passes _ _ _ _ _ _ _ _ (polledRecord pr)).
      * rewrite Hkey, Hp. apply lookup_insert_eq.
      * done.
    + intros Hsha. unfold scan. rewrite scanPullRequest_reviews.
      * by rewrite Hkey, <- Hrun.
      * right. exists (polledRecord pr). rewrite Hkey, Hp, lookup_insert_eq.
        split; [done|]. simpl. fold headSha. congruence.
  - intros env now Hok hooked' sha. rewrite Hdeliver.
    assert (hooked' !! prKey
            = Some (hookedRecord owner repo (pr_number pr) headSha now)) as Hrec.
    { unfold hooked', Webhook.processPRReview. fold (run env).
      unfold completion in Hok. destruct (run env) as [calls [|]]; [|done].
      apply lookup_insert_eq. }
    unfold Webhook.alreadyReviewed. rewrite Hrec. simpl.
    rewrite (String.eqb_sym headSha sha). done.
  - intros owner' repo' n' r r' Hother.
    pose proof (prKeyOf_other owner owner' repo repo' (pr_number pr) n' Hother) as Hne.
    split.
    + intros env. unfold scan, Polling.scanPullRequest, Polling.isNew, Polling.hasNewCommits.
      fold prKey. rewrite lookup_insert_ne by done.
      destruct (_ || _); [|done]. fold (run env).
      destruct (run env) as [calls [|]]; simpl; [|done].
      by rewrite insert_insert_ne by done.
    + rewrite !Hdeliver. unfold Webhook.alreadyReviewed.
      by rewrite lookup_insert_ne by done.
Qed.

Lemma idempotency_check_witness :
  let pr := examplePR false "sha1" in
  let env := exampleEnv false "sha1" in
  let scan := Polling.scanPullRequest exampleParse plainToString exampleConfig env "o" "r" in
  "opened" ∈ Webhook.relevantActions ∧
  length (scan ∅ pr).1 = 1 ∧
  scan (scan ∅ pr).2 pr = ([], (scan ∅ pr).2) ∧
  length (scan (scan ∅ pr).2 (examplePR false "sha2")).1 = 1.
Proof.
  intros pr env scan.
  assert ("opened" ∈ Webhook.relevantActions) as Haction.
  { apply elem_of_cons. left. reflexivity. }
  split; [exact Haction|].
  pose proof (idempotency_check exampleParse plainToString exampleConfig "o" "r" pr
                "opened" ∅ ∅ Haction) as (Hreviews & _ & _ & _ & Hnext & _).
  assert ((∅ : gmap string Polling.ProcessedPR) !! prKeyOf "o" "r" (pr_number pr) = None ∨
          ∃ r, (∅ : gmap string Polling.ProcessedPR) !! prKeyOf "o" "r" (pr_number pr)
               = Some r ∧ Polling.head_sha r ≠ pr_head_sha pr) as Hdue.
  { left. reflexivity. }
  split.
  - unfold scan. rewrite (Hreviews Hdue env). reflexivity.
  - destruct (Hnext env Hdue eq_refl env (examplePR false "sha1") eq_refl) as [Hsame _].
    destruct (Hnext env Hdue eq_refl env (examplePR false "sha2") eq_refl) as [_ Hother].
    split.
    + exact (Hsame eq_refl).
    + unfold scan. rewrite Hother by discriminate. reflexivity.
Defined.


(** ** Recording a review *)

Section Recording.

Context (JSON_parse : string → Result JsValue) (otherToString : JsValue → string)
        (config : Config).

Lemma scanPullRequest_state (env : Env) (owner repo : string)
    (processedPRs : gmap string Polling.ProcessedPR) (pr : PullRequest) :
  (Polling.scanPullRequest JSON_parse otherToString config env owner repo processedPRs pr).2
  = if pollReviews processedPRs owner repo pr
       && isOk (completion (reviewPullRequest JSON_parse otherToString config env owner repo (pr_number pr)))
    then <[prKeyOf owner repo (pr_number pr) := polledRecord pr]> processedPRs
    else processedPRs.
Proof.
  unfold Polling.scanPullRequest, pollReviews, completion.
  destruct (_ || _); simpl; [|done].
  by destruct (reviewPullRequest _ _ _ _ _ _ _) as [calls [|]].
Qed.

Lemma scanPullRequest_skip (env : Env) (owner repo : string)
    (processedPRs : gmap string Polling.ProcessedPR) (pr : PullRequest) :
  pollReviews processedPRs owner repo pr = false →
  Polling.scanPullRequest JSON_parse otherToString config env owner repo processedPRs pr
  = ([], processedPRs).
Proof.
  unfold Polling.scanPullRequest, pollReviews. by intros ->.
Qed.

Lemma processPRReview_state (env : Env) (now : string)
    (processedPRs : gmap string Webhook.ProcessedPR)
    (owner repo : string) (prNumber : nat) (action headSha : string) :
  (Webhook.processPRReview JSON_parse otherToString config env now processedPRs
     owner repo prNumber action headSha).2
  = if isOk (completion (reviewPullRequest JSON_parse otherToString config env owner repo prNumber))
    then <[prKeyOf owner repo prNumber := hookedRecord owner repo prNumber headSha now]>
           processedPRs
    else processedPRs.
Proof.
  unfold Webhook.processPRReview, completion.
  by destruct (reviewPullRequest _ _ _ _ _ _ _) as [calls [|]].
Qed.

(** The terminal conditions of [reviewPullRequest]: it returns, having
    posted nothing. *)
Lemma reviewPullRequest_not_installed (env : Env) (owner repo : string) (prNumber : nat) :
  getRepositoryOctokit env owner repo = Ok None →
  reviewPullRequest JSON_parse otherToString config env owner repo prNumber = quiet (Ok ()).
Proof. intros H. unfold reviewPullRequest. by rewrite H, andThen_quiet_ok. Qed.

Lemma reviewPullRequest_draft_or_closed (env : Env) (owner repo : string) (prNumber : nat)
    (octokit : Octokit) (pullRequest : PullRequest) :
  getRepositoryOctokit env owner repo = Ok (Some octokit) →
  pulls_get octokit owner repo prNumber = Ok pullRequest →
  pr_draft pullRequest = true ∨ pr_state pullRequest ≠ "open" →
  reviewPullRequest JSON_parse otherToString config env owner repo prNumber = quiet (Ok ()).
Proof.
  intros Hclient Hget Hskip. unfold reviewPullRequest.
  rewrite Hclient, andThen_quiet_ok, Hget, andThen_quiet_ok.
  destruct (pr_draft pullRequest); [done|].
  destruct Hskip as [?|Hstate]; [done|].
  apply String.eqb_neq in Hstate. by rewrite Hstate.
Qed.

Lemma reviewPullRequest_no_files (env : Env) (owner repo : string) (prNumber : nat)
    (octokit : Octokit) (pullRequest : PullRequest) (files : list ChangedFile) :
  getRepositoryOctokit env owner repo = Ok (Some octokit) →
  pulls_get octokit owner repo prNumber = Ok pullRequest →
  pulls_listFiles octokit owner repo prNumber = Ok files →
  take (maxFiles config) (List.filter (isReviewableFile config) files) = [] →
  (pr_draft pullRequest = false → pr_state pullRequest = "open" →
   reviewPullRequest JSON_parse otherToString config env owner repo prNumber = quiet (Ok ())).
Proof.
  intros Hclient Hget Hfiles Hnone Hdraft Hstate. unfold reviewPullRequest.
  rewrite Hclient, andThen_quiet_ok, Hget, andThen_quiet_ok, Hdraft, Hstate.
  simpl negb. cbv iota.
  rewrite Hfiles, andThen_quiet_ok, Hnone.
  by destruct (length files =? 0).
Qed.

End Recording.

(** C9 (amended).  In both triggering paths the record of a pull request is
    set to the head commit exactly when [reviewPullRequest] returns, and is
    left as it was when [reviewPullRequest] throws; the records of other pull
    requests stay as they are.  [reviewPullRequest] returns also when it
    skipped the pull request (draft, not open, no reviewable file) or found
    nothing new to post.  So a draft is recorded at its head commit, and for
    as long as that record is kept the polling path passes the pull request
    over, whatever the state of the world, and reviews it again when its head
    commit changes. *)
Theorem record_follows_review (JSON_parse : string → Result JsValue)
    (otherToString : JsValue → string) (config : Config) (env : Env)
    (owner repo : string) (pr : PullRequest)
    (polled : gmap string Polling.ProcessedPR) :
  let prKey := prKeyOf owner repo (pr_number pr) in
  let run := reviewPullRequest JSON_parse otherToString config env owner repo (pr_number pr) in
  let scan := λ env, Polling.scanPullRequest JSON_parse otherToString config env owner repo in
  let polled' := (scan env polled pr).2 in
  let due := polled !! prKey = None ∨
             ∃ r, polled !! prKey = Some r ∧ Polling.head_sha r ≠ pr_head_sha pr in
  (* the polling path, for a pull request that is due for review *)
  (due →
   polled' = (if isOk (completion run)
              then <[prKey := polledRecord pr]> polled else polled)) ∧
  (* the webhook path *)
  (∀ now hooked action headSha,
     (Webhook.processPRReview JSON_parse otherToString config env now hooked
        owner repo (pr_number pr) action headSha).2
     = if isOk (completion run)
       then <[prKey := hookedRecord owner repo (pr_number pr) headSha now]> hooked
       else hooked) ∧
  (* the records of other pull requests *)
  (∀ owner' repo' n' now hooked action headSha,
     owner' +:+ "/" +:+ repo' ≠ owner +:+ "/" +:+ repo ∨ n' ≠ pr_number pr →
     polled' !! prKeyOf owner' repo' n' = polled !! prKeyOf owner' repo' n' ∧
     (Webhook.processPRReview JSON_parse otherToString config env now hooked
        owner repo (pr_number pr) action headSha).2 !! prKeyOf owner' repo' n'
     = hooked !! prKeyOf owner' repo' n') ∧
  (* skipping is returning *)
  (∀ octokit pullRequest,
     getRepositoryOctokit env owner repo = Ok (Some octokit) →
     pulls_get octokit owner repo (pr_number pr) = Ok pullRequest →
     (pr_draft pullRequest = true ∨ pr_state pullRequest ≠ "open" → run = quiet (Ok ())) ∧
     (∀ files,
        pulls_listFiles octokit owner repo (pr_number pr) = Ok files →
        take (maxFiles config) (List.filter (isReviewableFile config) files) = [] →
        pr_draft pullRequest = false → pr_state pullRequest = "open" →
        run = quiet (Ok ())) ∧
     (∀ files,
        pulls_listFiles octokit owner repo (pr_number pr) = Ok files →
        take (maxFiles config) (List.filter (isReviewableFile config) files) ≠ [] →
        pr_draft pullRequest = false → pr_state pullRequest = "open" →
        ∃ existing allComments,
          getExistingComments octokit owner repo (pr_number pr) = Ok existing ∧
          reviewFiles JSON_parse env
            (take (maxFiles config) (List.filter (isReviewableFile config) files))
          = Ok allComments ∧
          (List.filter (λ c, negb (bool_decide (pathLineKey otherToString c ∈ existing)))
             allComments = [] →
           run = quiet (Ok ()))) ∧
     (* a draft is recorded, and passed over while the record is kept *)
     (due → pr_draft pullRequest = true →
      polled' !! prKey = Some (polledRecord pr) ∧
      ∀ env' pr' later,
        pr_number pr' = pr_number pr →
        later !! prKey = polled' !! prKey →
        (pr_head_sha pr' = pr_head_sha pr → scan env' later pr' = ([], later)) ∧
        (pr_head_sha pr' ≠ pr_head_sha pr →
         scan env' later pr'
         = (posted (reviewPullRequest JSON_parse otherToString config env' owner repo
                      (pr_number pr)),
            if isOk (completion (reviewPullRequest JSON_parse otherToString config env'
                                   owner repo (pr_number pr)))
            then <[prKey := polledRecord pr']> later else later)))).
Proof.
  intros prKey run scan polled' due.
  assert (due →
          polled' = (if isOk (completion run)
                     then <[prKey := polledRecord pr]> polled else polled)) as Hpolled.
  { intros Hdue. unfold polled', scan. by rewrite scanPullRequest_reviews. }
  split_and!.
  - exact Hpolled.
  - intros now hooked action headSha. apply processPRReview_state.
  - intros owner' repo' n' now hooked action headSha Hother.
    pose proof (prKeyOf_other owner owner' repo repo' (pr_number pr) n' Hother) as Hne.
    split.
    + unfold polled', scan. rewrite scanPullRequest_state.
      destruct (_ && _); [|done]. by rewrite lookup_insert_ne.
    + rewrite processPRReview_state.
      destruct (isOk _); [|done]. by rewrite lookup_insert_ne.
  - intros octokit pullRequest Hclient Hget. split_and!.
    + intros Hskip. by eapply reviewPullRequest_draft_or_closed.
    + intros files Hfiles Hnone Hdraft Hstate. by eapply reviewPullRequest_no_files.
    + intros files Hfiles Hsome Hdraft Hstate.
      destruct (reviewPullRequest_open JSON_parse otherToString config env owner repo
                  (pr_number pr) octokit pullRequest files)
        as (existing & allComments & Hex & Hall & _ & Hrun); try done.
      exists existing, allComments. split_and!; [done..|].
      intros Hempty. unfold run. rewrite Hrun. cbv zeta. by rewrite Hempty.
    + intros Hdue Hdraft. specialize (Hpolled Hdue).
      assert (run = quiet (Ok ())) as Hrun.
      { eapply reviewPullRequest_draft_or_closed; eauto. }
      rewrite Hrun in Hpolled. simpl in Hpolled.
      assert (polled' !! prKey = Some (polledRecord pr)) as Hrec.
      { rewrite Hpolled. apply lookup_insert_eq. }
      split; [exact Hrec|].
      intros env' pr' later Hnum Hlater.
      rewrite Hrec in Hlater. unfold prKey in Hlater. rewrite <- Hnum in Hlater.
      split.
      * intros Hsha. unfold scan.
        by apply (scanPullRequest_passes _ _ _ _ _ _ _ _ (polledRecord pr)).
      * intros Hsha. unfold scan. rewrite scanPullRequest_reviews.
        -- unfold prKey. by rewrite Hnum.
        -- right. exists (polledRecord pr). split; [done|]. simpl. congruence.
Qed.

Lemma record_follows_review_witness :
  let env := exampleEnv true "sha1" in
  let pr := examplePR true "sha1" in
  let scan := Polling.scanPullRequest exampleParse plainToString exampleConfig in
  ((∅ : gmap string Polling.ProcessedPR) !! prKeyOf "o" "r" (pr_number pr) = None ∨
   ∃ r, (∅ : gmap string Polling.ProcessedPR) !! prKeyOf "o" "r" (pr_number pr) = Some r ∧
        Polling.head_sha r ≠ pr_head_sha pr) ∧
  (scan env "o" "r" ∅ pr).2 !! prKeyOf "o" "r" 7 = Some (polledRecord pr) ∧
  scan (exampleEnv false "sha1") "o" "r" (scan env "o" "r" ∅ pr).2 (examplePR false "sha1")
  = ([], (scan env "o" "r" ∅ pr).2).
Proof.
  intros env pr scan.
  assert ((∅ : gmap string Polling.ProcessedPR) !! prKeyOf "o" "r" (pr_number pr) = None ∨
          ∃ r, (∅ : gmap string Polling.ProcessedPR) !! prKeyOf "o" "r" (pr_number pr)
               = Some r ∧ Polling.head_sha r ≠ pr_head_sha pr) as H.
  { left. reflexivity. }
  split; [exact H|].
  pose proof (record_follows_review exampleParse plainToString exampleConfig env
                "o" "r" pr ∅) as (_ & _ & _ & Hskip).
  destruct (Hskip (exampleOctokit true "sha1") pr eq_refl eq_refl) as (_ & _ & _ & Hdraft).
  destruct (Hdraft H eq_refl) as [Hrec Hlater].
  split; [exact Hrec|].
  exact (proj1 (Hlater (exampleEnv false "sha1") (examplePR false "sha1") _
                  eq_refl eq_refl) eq_refl).
Defined.

(** C9, as the specification words it, fails once the hourly sweep has run:
    the record of the draft carries the date of the pull request's last
    update, the sweep drops it when that date is more than seven days back,
    and the next scan reviews the pull request at the same head commit and
    posts a review. *)
Lemma draftPassedOverClaim_swept :
  ¬ draftPassedOverClaim exampleParse plainToString exampleConfig exampleDateOf.
Proof.
  intros Hclaim.
  specialize (Hclaim (exampleEnv true "sha1") (exampleEnv false "sha1") "o" "r"
                (examplePR true "sha1") (examplePR false "sha1")
                (exampleOctokit true "sha1") (examplePR true "sha1") 1715248800000%Z
                eq_refl eq_refl eq_refl eq_refl eq_refl).
  apply (f_equal (λ outcome, length outcome.1)) in Hclaim.
  vm_compute in Hclaim. discriminate.
Qed.

(** ** Failure of the fetch of existing comments *)




(** The example world, end to end: the finding on [f.ts] is posted as one
    review with the event COMMENT, whose summary counts one error. *)
Example reviewPullRequest_example :
  let run := reviewPullRequest exampleParse plainToString exampleConfig
               (exampleEnv false "sha1") "o" "r" 7 in
  map cr_event (posted run) = ["COMMENT"] ∧
  map cr_body (posted run) = [buildSummaryComment 1 0 0] ∧
  includes (buildSummaryComment 1 0 0) "**1** error(s) found" = true ∧
  completion run = Ok ().
Proof. vm_compute. done. Qed.

(** The summary of a review posted by [postReviewComments] holds neither of
    the two markers [getExistingComments] looks for. *)
Example own_summary_not_attributed :
  isAttributed {| review_id := 1; review_body := Some (buildSummaryComment 1 0 0) |} = false.
Proof. vm_compute. reflexivity. Qed.


(** ** More on the Diff Segmenter *)

Lemma captureHeaders_prefix (limit : nat) (diffLines : list string) :
  let headerLines := captureHeaders limit diffLines in
  length headerLines ≤ limit ∧
  Forall (λ l, isHunkHeader l = false) headerLines ∧
  headerLines = take (length headerLines) diffLines ∧
  (length headerLines = limit ∨ headerLines = diffLines
   ∨ startsHunk (drop (length headerLines) diffLines)).
Proof.
  revert diffLines. induction limit as [|limit IH]; intros diffLines; simpl.
  - split_and!; [lia | constructor | done | by left].
  - destruct diffLines as [|line rest]; simpl.
    + split_and!; [lia | constructor | done | right; by left].
    + fold (isHunkHeader line). destruct (isHunkHeader line) eqn:Hline; simpl.
      * split_and!; [lia | constructor | done |].
        right; right. by exists line, rest.
      * destruct (IH rest) as (Hlen & Hnone & Hpre & Hmax).
        split_and!; [lia | by constructor | by f_equal |].
        destruct Hmax as [?|[?|?]]; [left; lia | right; left; by f_equal | by right; right].
Qed.

(** X1.  Every chunk carries the shared header: at most ten lines from the top of
    the diff, none of them a hunk header, as many as fit before the first hunk
    header; the text of each chunk starts with exactly these lines. *)
Theorem splitIntoHunks_headers (patch : string) :
  let diffLines := split_lines patch in
  let headerLines := captureHeaders 10 diffLines in
  length headerLines ≤ 10 ∧
  Forall (λ l, isHunkHeader l = false) headerLines ∧
  headerLines = take (length headerLines) diffLines ∧
  (length headerLines = 10 ∨ headerLines = diffLines
   ∨ startsHunk (drop (length headerLines) diffLines)) ∧
  Forall (λ h, take (length headerLines) (split_lines (hunk_content h)) = headerLines)
    (splitIntoHunks diffLines).
Proof.
  intros diffLines headerLines.
  destruct (captureHeaders_prefix 10 diffLines) as (Hlen & Hnone & Hpre & Hmax).
  split_and!; [done..|].
  destruct (splitIntoHunks_bodies diffLines (split_lines_nonempty patch))
    as (bodies & Hchunks & Hcat & Hok & _).
  fold headerLines in Hchunks. rewrite Hchunks.
  pose proof (split_lines_oneLine patch) as Hlines. fold diffLines in Hlines.
  assert (Forall oneLine headerLines) as Hh by by apply captureHeaders_oneLine.
  assert (Forall (Forall oneLine) bodies) as Hb.
  { apply Forall_concat. by rewrite Hcat. }
  apply Forall_map, Forall_forall. intros body Hin. simpl.
  rewrite split_join.
  - by rewrite take_app_length.
  - eapply Forall_forall in Hok; [|done]. destruct Hok as [Hne _].
    destruct headerLines, body; done.
  - apply Forall_app. split; [done|]. by eapply Forall_forall in Hb.
Qed.

Lemma countAdditions_app (a b : list string) :
  countAdditions (a ++ b) = countAdditions a + countAdditions b.
Proof. unfold countAdditions. by rewrite List.filter_app, length_app. Qed.

Lemma countDeletions_app (a b : list string) :
  countDeletions (a ++ b) = countDeletions a + countDeletions b.
Proof. unfold countDeletions. by rewrite List.filter_app, length_app. Qed.

Lemma sum_counts_mkChunks (headerLines : list string) (bodies : list (list string)) :
  sum_list (map hunk_additions (map (mkChunk headerLines) bodies))
    = countAdditions (concat bodies) ∧
  sum_list (map hunk_deletions (map (mkChunk headerLines) bodies))
    = countDeletions (concat bodies).
Proof.
  induction bodies as [|b bodies [IHa IHd]]; [done|]. simpl.
  rewrite countAdditions_app, countDeletions_app, IHa, IHd. done.
Qed.

(** X2.  The counts of the chunks add up to the counts of the diff: every added
    line (a line that starts with [+] but not with [+++]) and every removed
    line (likewise with [-]) is counted in exactly one chunk.  This holds for
    any list of lines, the empty one included. *)
Theorem splitIntoHunks_counts (diffLines : list string) :
  sum_list (map hunk_additions (splitIntoHunks diffLines)) = countAdditions diffLines ∧
  sum_list (map hunk_deletions (splitIntoHunks diffLines)) = countDeletions diffLines.
Proof.
  destruct diffLines as [|line rest]; [done|].
  destruct (splitIntoHunks_bodies (line :: rest)) as (bodies & -> & Hcat & _); [done|].
  destruct (sum_counts_mkChunks (captureHeaders 10 (line :: rest)) bodies) as [Ha Hd].
  by rewrite Ha, Hd, Hcat.
Qed.


(** ** More on the Response Repairer *)

Lemma string_app_empty_r (s : string) : s +:+ "" = s.
Proof.
  induction s as [|c s IH]; [reflexivity|].
  change (String c (s +:+ "") = String c s). by f_equal.
Qed.

Lemma truncates_decide (jsonString : string) :
  let st := scanFrom 0 (trim jsonString) initialScanState in
  ¬ truncates jsonString →
  ((0 <? openBraces st)%Z || (1 <? openBrackets st)%Z)
    && (-1 <? lastCompleteObjectIndex st)%Z = false.
Proof.
  intros st Hno. unfold truncates in Hno. fold st in Hno.
  destruct ((0 <? openBraces st)%Z) eqn:Hb;
    destruct ((1 <? openBrackets st)%Z) eqn:Hk;
    destruct ((-1 <? lastCompleteObjectIndex st)%Z) eqn:Hi; try done;
    exfalso; apply Hno; lia.
Qed.

(** X3.  The repair leaves alone a text whose brackets and braces pair up, and
    where the scan ends outside string literals with no closer in excess, the
    repaired text pairs up exactly when nothing was truncated. *)
Theorem repairIncompleteJson_closes (jsonString : string) :
  (closesEvenly (trim jsonString) → repairIncompleteJson jsonString = trim jsonString) ∧
  (endsInStructure jsonString →
   (closesEvenly (repairIncompleteJson jsonString) ↔ ¬ truncates jsonString)).
Proof.
  split.
  - unfold closesEvenly, repairIncompleteJson. intros [Hb Hk].
    rewrite Hb, Hk. simpl. by rewrite !string_app_empty_r.
  - intros (Hs & He & Hb & Hk). split.
    + intros Hclosed Htrunc. by apply (repairIncompleteJson_overcloses jsonString).
    + intros Hno. unfold closesEvenly, repairIncompleteJson.
      set (text := trim jsonString) in *.
      set (st := scanFrom 0 text initialScanState) in *.
      pose proof (truncates_decide jsonString Hno) as Hcond.
      fold text in Hcond. fold st in Hcond. rewrite Hcond.
      rewrite !scanFrom_app. fold st. unfold closers.
      destruct (scanFrom_braces (Z.to_nat (openBraces st))
                  (0 + Z.of_nat (String.length text)) st Hs He) as (Hb1 & Hk1 & Hs1 & He1).
      set (st1 := scanFrom _ (string_of_list_ascii
                                (replicate (Z.to_nat (openBraces st)) "}"%char)) st) in *.
      destruct (scanFrom_brackets (Z.to_nat (openBrackets st))
                  (0 + Z.of_nat (String.length text)
                   + Z.of_nat (String.length (string_of_list_ascii
                                 (replicate (Z.to_nat (openBraces st)) "}"%char))))
                  st1 Hs1 He1) as (Hb2 & Hk2).
      rewrite Hb2, Hk2, Hb1, Hk1. lia.
Qed.

Lemma repairIncompleteJson_closes_witness :
  endsInStructure ("[" +:+ firstComment) ∧
  closesEvenly (repairIncompleteJson ("[" +:+ firstComment)).
Proof.
  assert (endsInStructure ("[" +:+ firstComment)) as H.
  { unfold endsInStructure. vm_compute. done. }
  split; [exact H|].
  apply (proj2 (repairIncompleteJson_closes ("[" +:+ firstComment)) H).
  unfold truncates. vm_compute. intros [[?|?] ?]; done.
Defined.


(** ** Existing comments, when the fetch succeeds *)

Lemma addCommentKey_step (c : PostedComment) (keys : gset string) (k : string) :
  k ∈ match postedKey c with Some key => {[ key ]} ∪ keys | None => keys end ↔
  k ∈ keys ∨ postedKey c = Some k.
Proof.
  destruct (postedKey c) as [key|].
  - rewrite elem_of_union, elem_of_singleton. split.
    + intros [->|?]; [by right | by left].
    + intros [?|[= ->]]; [by right | by left].
  - split; [by left|]. by intros [?|?].
Qed.

Lemma addCommentKeys_spec (comments : list PostedComment) (keys : gset string) (k : string) :
  k ∈ addCommentKeys keys comments ↔
  k ∈ keys ∨ ∃ comment, comment ∈ comments ∧ postedKey comment = Some k.
Proof.
  unfold addCommentKeys. revert keys.
  induction comments as [|c comments IH]; intros keys; simpl.
  - split; [by left|]. intros [?|(c & Hc & _)]; [done|]. by apply elem_of_nil in Hc.
  - rewrite IH.
    assert (∀ keys, match posted_line c with
                    | Some line =>
                        if negb (String.eqb (posted_path c) "") && negb (line =? 0)
                        then {[ posted_path c +:+ ":" +:+ pretty line ]} ∪ keys
                        else keys
                    | None => keys
                    end
                    = match postedKey c with
                      | Some key => {[ key ]} ∪ keys
                      | None => keys
                      end) as ->.
    { intros keys0. unfold postedKey. destruct (posted_line c) as [line|]; [|done].
      by destruct (negb _ && negb _). }
    rewrite addCommentKey_step. split.
    + intros [[?|Hk]|(c' & Hc' & Hk)].
      * by left.
      * right. exists c. split; [by left|done].
      * right. exists c'. split; [by right|done].
    + intros [?|(c' & Hc' & Hk)]; [left; by left|].
      apply elem_of_cons in Hc' as [->|Hc'].
      * left. by right.
      * right. by exists c'.
Qed.

Lemma collectCommentKeys_spec (octokit : Octokit) (owner repo : string) (prNumber : nat)
    (reviews : list Review) (keys : gset string) :
  (∀ review, review ∈ reviews → isAttributed review = true →
     isOk (pulls_listCommentsForReview octokit owner repo prNumber (review_id review)) = true) →
  ∃ keys',
    collectCommentKeys octokit owner repo prNumber reviews keys = Ok keys' ∧
    ∀ k, k ∈ keys' ↔
      k ∈ keys ∨
      ∃ review comments comment,
        review ∈ reviews ∧ isAttributed review = true ∧
        pulls_listCommentsForReview octokit owner repo prNumber (review_id review)
          = Ok comments ∧
        comment ∈ comments ∧ postedKey comment = Some k.
Proof.
  revert keys. induction reviews as [|r rest IH]; intros keys Hfetch; simpl.
  - exists keys. split; [done|]. intros k. split; [by left|].
    intros [?|(review & ? & ? & Hin & _)]; [done|]. by apply elem_of_nil in Hin.
  - assert (∀ review, review ∈ rest → isAttributed review = true →
              isOk (pulls_listCommentsForReview octokit owner repo prNumber
                      (review_id review)) = true) as Hrest.
    { intros review Hin. apply Hfetch. by right. }
    destruct (isAttributed r) eqn:Hattr.
    + pose proof (Hfetch r ltac:(by left) Hattr) as Hr.
      destruct (pulls_listCommentsForReview octokit owner repo prNumber (review_id r))
        as [comments|] eqn:Hcs; [|done].
      simpl. destruct (IH (addCommentKeys keys comments) Hrest) as (keys' & -> & Hkeys).
      exists keys'. split; [done|]. intros k. rewrite Hkeys, addCommentKeys_spec. split.
      * intros [[?|(c & Hc & Hk)]|(review & cs & c & Hin & ? & ? & ? & ?)].
        -- by left.
        -- right. exists r, comments, c. split_and!; [by left|done..].
        -- right. exists review, cs, c. split_and!; [by right|done..].
      * intros [?|(review & cs & c & Hin & Ha & Hf & Hc & Hk)]; [left; by left|].
        apply elem_of_cons in Hin as [->|Hin].
        -- rewrite Hcs in Hf. injection Hf as <-. left. right. by exists c.
        -- right. by exists review, cs, c.
    + destruct (IH keys Hrest) as (keys' & -> & Hkeys).
      exists keys'. split; [done|]. intros k. rewrite Hkeys. split.
      * intros [?|(review & cs & c & Hin & ? & ? & ? & ?)]; [by left|].
        right. exists review, cs, c. split_and!; [by right|done..].
      * intros [?|(review & cs & c & Hin & Ha & Hf & Hc & Hk)]; [by left|].
        apply elem_of_cons in Hin as [->|Hin]; [congruence|].
        right. by exists review, cs, c.
Qed.

(** X4.  When the reviews and the comments of every attributed review can be
    fetched, [getExistingComments] returns exactly the [path:line] keys of the
    comments of the attributed reviews that have a path and a line; comments
    of other reviews, and comments whose line is [null] or zero, add no key. *)
Theorem getExistingComments_keys (octokit : Octokit) (owner repo : string) (prNumber : nat)
    (reviews : list Review) :
  pulls_listReviews octokit owner repo prNumber = Ok reviews →
  (∀ review, review ∈ reviews → isAttributed review = true →
     isOk (pulls_listCommentsForReview octokit owner repo prNumber (review_id review)) = true) →
  ∃ keys,
    getExistingComments octokit owner repo prNumber = Ok keys ∧
    ∀ k, k ∈ keys ↔
      ∃ review comments comment,
        review ∈ reviews ∧ isAttributed review = true ∧
        pulls_listCommentsForReview octokit owner repo prNumber (review_id review)
          = Ok comments ∧
        comment ∈ comments ∧ postedKey comment = Some k.
Proof.
  intros Hreviews Hfetch. unfold getExistingComments. rewrite Hreviews. simpl.
  destruct (collectCommentKeys_spec octokit owner repo prNumber reviews ∅ Hfetch)
    as (keys & -> & Hkeys).
  exists keys. split; [done|]. intros k. rewrite Hkeys. split.
  - intros [Hk|?]; [by apply not_elem_of_empty in Hk | done].
  - intros ?. by right.
Qed.

Lemma getExistingComments_keys_witness :
  pulls_listReviews reviewedOctokit "o" "r" 7 = Ok exampleReviews ∧
  ∃ keys,
    getExistingComments reviewedOctokit "o" "r" 7 = Ok keys ∧
    ∀ k, k ∈ keys ↔
      ∃ review comments comment,
        review ∈ exampleReviews ∧ isAttributed review = true ∧
        pulls_listCommentsForReview reviewedOctokit "o" "r" 7 (review_id review)
          = Ok comments ∧
        comment ∈ comments ∧ postedKey comment = Some k.
Proof.
  split; [reflexivity|].
  apply (getExistingComments_keys reviewedOctokit "o" "r" 7 exampleReviews);
    [reflexivity | intros; reflexivity].
Defined.

(** ** Posting, for comments that passed validation *)








(** ** The outcomes of [reviewPullRequest] *)






(** ** Failures of the model stay local *)

Section Isolation.

Context (JSON_parse : string → Result JsValue) (otherToString : JsValue → string)
        (config : Config).

Lemma reviewChunk_call_fails (env : Env) (file : ChangedFile) (total i : nat) (hunk : Hunk) :
  callFailsFor env (hunkFileOf file hunk) →
  reviewChunk JSON_parse env file total i hunk = Ok [].
Proof.
  intros Hfail. unfold reviewChunk. fold (hunkFileOf file hunk).
  destruct (buildPrompt (hunkFileOf file hunk)) as [prompt|] eqn:Hp; [|done].
  specialize (Hfail prompt Hp). simpl.
  by destruct (callGemini env prompt).
Qed.

Lemma reviewFile_call_fails (env : Env) (file : ChangedFile) :
  singleRequest file → callFailsFor env file →
  reviewFile JSON_parse env file = Ok [].
Proof.
  intros Hsingle Hfail. unfold reviewFile, singleRequest in *.
  destruct (file_patch file) as [patch|] eqn:Hpatch.
  - rewrite Hsingle.
    destruct (buildPrompt file) as [prompt|] eqn:Hp; [|done].
    specialize (Hfail prompt Hp). simpl.
    by destruct (callGemini env prompt).
  - simpl. unfold buildPrompt. by rewrite Hpatch.
Qed.

Lemma reviewFiles_app_eq (env : Env) (before after : list ChangedFile)
    (first rest : list JsValue) :
  reviewFiles JSON_parse env before = Ok first →
  reviewFiles JSON_parse env after = Ok rest →
  reviewFiles JSON_parse env (before ++ after) = Ok (first ++ rest).
Proof.
  intros Hfirst Hrest. revert first Hfirst.
  induction before as [|file before IH]; intros first; simpl.
  - by intros [= <-].
  - destruct (if hasPatch file then reviewFile JSON_parse env file else Ok [])
      as [c|]; simpl; [|done].
    destruct (reviewFiles JSON_parse env before) as [others|]; simpl; [|done].
    intros [= <-]. rewrite (IH others eq_refl). simpl. by rewrite app_assoc.
Qed.

Lemma reviewFiles_app (env : Env) (before after : list ChangedFile) :
  ∃ first rest,
    reviewFiles JSON_parse env before = Ok first ∧
    reviewFiles JSON_parse env after = Ok rest ∧
    reviewFiles JSON_parse env (before ++ after) = Ok (first ++ rest).
Proof.
  destruct (reviewFiles_returns JSON_parse env before) as (first & Hfirst & _).
  destruct (reviewFiles_returns JSON_parse env after) as (rest & Hrest & _).
  exists first, rest. split_and!; [done..|]. by apply reviewFiles_app_eq.
Qed.

Lemma reviewChunks_all_fail (env : Env) (file : ChangedFile) (total : nat)
    (hunks : list Hunk) (i : nat) :
  modelDown env → reviewChunks JSON_parse env file total i hunks = Ok [].
Proof.
  intros Hdown. revert i. induction hunks as [|hunk rest IH]; intros i; [done|].
  simpl. rewrite reviewChunk_call_fails by (intros prompt _; apply Hdown).
  by rewrite IH.
Qed.

Lemma reviewFile_model_down (env : Env) (file : ChangedFile) :
  modelDown env → reviewFile JSON_parse env file = Ok [].
Proof.
  intros Hdown. unfold reviewFile.
  destruct (_ && _).
  - unfold reviewLargeFile. destruct (file_patch file); [|done].
    by rewrite reviewChunks_all_fail.
  - destruct (buildPrompt file) as [prompt|]; [|done]. simpl.
    specialize (Hdown prompt). by destruct (callGemini env prompt).
Qed.

Lemma reviewFiles_model_down (env : Env) (files : list ChangedFile) :
  modelDown env → reviewFiles JSON_parse env files = Ok [].
Proof.
  intros Hdown. induction files as [|file rest IH]; [done|]. simpl.
  rewrite IH. destruct (hasPatch file); [|done].
  by rewrite reviewFile_model_down.
Qed.

End Isolation.

(** X7.  A file without patch, and a file whose model call fails, contribute no
    comment and leave the comments of the files before and after as they are;
    the comments of a list of files are those of its parts, in order.  In a
    file reviewed chunk by chunk, a chunk whose model call fails is skipped
    and the remaining chunks are still reviewed. *)
Theorem review_failures_stay_local (JSON_parse : string → Result JsValue) (env : Env)
    (file : ChangedFile) (before after : list ChangedFile) :
  (∃ first rest,
     reviewFiles JSON_parse env before = Ok first ∧
     reviewFiles JSON_parse env after = Ok rest ∧
     reviewFiles JSON_parse env (before ++ after) = Ok (first ++ rest)) ∧
  (hasPatch file = false ∨ (singleRequest file ∧ callFailsFor env file) →
   reviewFiles JSON_parse env (before ++ file :: after)
   = reviewFiles JSON_parse env (before ++ after)) ∧
  (∀ total i hunk hunks,
     callFailsFor env (hunkFileOf file hunk) →
     reviewChunks JSON_parse env file total i (hunk :: hunks)
     = reviewChunks JSON_parse env file total (S i) hunks).
Proof.
  split_and!.
  - apply reviewFiles_app.
  - intros Hskip.
    assert (reviewFiles JSON_parse env [file] = Ok []) as Hone.
    { simpl. destruct Hskip as [->|[Hsingle Hfail]]; [done|].
      destruct (hasPatch file); [|done]. by rewrite reviewFile_call_fails. }
    destruct (reviewFiles_app JSON_parse env before (file :: after)) as (c1 & c2 & H1 & H2 & ->).
    destruct (reviewFiles_app JSON_parse env [file] after) as (d1 & d2 & G1 & G2 & G3).
    destruct (reviewFiles_app JSON_parse env before after) as (e1 & e2 & E1 & E2 & ->).
    simpl app in G3. rewrite Hone in G1. injection G1 as <-.
    rewrite H2 in G3. injection G3 as ->.
    rewrite H1 in E1. injection E1 as <-.
    rewrite G2 in E2. injection E2 as <-. done.
  - intros total i hunk hunks Hfail. simpl.
    rewrite reviewChunk_call_fails by done. simpl.
    by destruct (reviewChunks JSON_parse env file total (S i) hunks).
Qed.

Lemma review_failures_stay_local_witness :
  let env := {| getRepositoryOctokit := λ _ _, offline; callGemini := λ _, offline |} in
  singleRequest exampleFile ∧ callFailsFor env exampleFile ∧
  reviewFiles exampleParse env ([] ++ exampleFile :: []) = reviewFiles exampleParse env ([] ++ []).
Proof.
  intros env.
  assert (singleRequest exampleFile) as Hsingle by reflexivity.
  assert (callFailsFor env exampleFile) as Hfail by (intros prompt _; reflexivity).
  split; [exact Hsingle|]. split; [exact Hfail|].
  exact (proj1 (proj2 (review_failures_stay_local exampleParse env exampleFile [] []))
           (or_intror (conj Hsingle Hfail))).
Defined.

(** X8.  While the model endpoint is down, [reviewPullRequest] of an open pull
    request whose data GitHub serves returns normally and posts nothing: no
    file yields a comment.  The polling path therefore records the pull
    request as reviewed at its head commit, and passes it over from then on
    although it was never reviewed. *)
Theorem model_outage_is_recorded (JSON_parse : string → Result JsValue)
    (otherToString : JsValue → string) (config : Config) (env : Env)
    (owner repo : string) (pr : PullRequest) (octokit : Octokit)
    (pullRequest : PullRequest) (files : list ChangedFile)
    (polled : gmap string Polling.ProcessedPR) :
  modelDown env →
  getRepositoryOctokit env owner repo = Ok (Some octokit) →
  pulls_get octokit owner repo (pr_number pr) = Ok pullRequest →
  pulls_listFiles octokit owner repo (pr_number pr) = Ok files →
  pollReviews polled owner repo pr = true →
  let polled' := (Polling.scanPullRequest JSON_parse otherToString config env owner repo
                    polled pr).2 in
  reviewPullRequest JSON_parse otherToString config env owner repo (pr_number pr)
    = quiet (Ok ()) ∧
  polled' !! prKeyOf owner repo (pr_number pr) = Some (polledRecord pr) ∧
  pollReviews polled' owner repo pr = false.
Proof.
  intros Hdown Hclient Hget Hfiles Hdue polled'.
  assert (reviewPullRequest JSON_parse otherToString config env owner repo (pr_number pr)
          = quiet (Ok ())) as Hrun.
  { unfold reviewPullRequest.
    rewrite Hclient, andThen_quiet_ok, Hget, andThen_quiet_ok.
    destruct (pr_draft pullRequest); [done|].
    destruct (negb _); [done|].
    rewrite Hfiles, andThen_quiet_ok.
    destruct (length files =? 0); [done|].
    destruct (length (take _ _) =? 0); [done|].
    destruct (getExistingComments_returns octokit owner repo (pr_number pr)) as [existing ->].
    rewrite andThen_quiet_ok, reviewFiles_model_down by done.
    by rewrite andThen_quiet_ok. }
  assert (polled' = <[prKeyOf owner repo (pr_number pr) := polledRecord pr]> polled) as Hp.
  { unfold polled'. by rewrite scanPullRequest_state, Hdue, Hrun. }
  split_and!; [done | |].
  - rewrite Hp. apply lookup_insert_eq.
  - rewrite Hp, pollReviews_recorded. simpl. by rewrite String.eqb_refl.
Qed.

Lemma model_outage_is_recorded_witness :
  let env := {| getRepositoryOctokit := λ _ _, Ok (Some (exampleOctokit false "sha1"));
                callGemini := λ _, offline |} in
  let pr := examplePR false "sha1" in
  modelDown env ∧
  pollReviews (Polling.scanPullRequest exampleParse plainToString exampleConfig env
                 "o" "r" ∅ pr).2 "o" "r" pr = false.
Proof.
  intros env pr.
  assert (modelDown env) as Hdown by (intros prompt; reflexivity).
  split; [exact Hdown|].
  exact (proj2 (proj2 (model_outage_is_recorded exampleParse plainToString exampleConfig env
                         "o" "r" pr (exampleOctokit false "sha1") pr [exampleFile] ∅
                         Hdown eq_refl eq_refl eq_refl eq_refl))).
Defined.


(** ** The scan of a list of pull requests *)

Section ScanFacts.

Context (JSON_parse : string → Result JsValue) (otherToString : JsValue → string)
        (config : Config) (env : Env) (owner repo : string).

Lemma scanPullRequest_lookup (polled : gmap string Polling.ProcessedPR)
    (pr : PullRequest) (k : string) :
  let polled' := (Polling.scanPullRequest JSON_parse otherToString config env owner repo
                    polled pr).2 in
  (k ≠ prKeyOf owner repo (pr_number pr) → polled' !! k = polled !! k) ∧
  (is_Some (polled !! k) → is_Some (polled' !! k)).
Proof.
  intros polled'. unfold polled'. rewrite scanPullRequest_state.
  destruct (_ && _); [|done]. split.
  - intros Hk. by rewrite lookup_insert_ne.
  - intros Hsome. destruct (decide (prKeyOf owner repo (pr_number pr) = k)) as [<-|Hne].
    + rewrite lookup_insert_eq. by eexists.
    + by rewrite lookup_insert_ne.
Qed.

Lemma scanPullRequests_cons (polled : gmap string Polling.ProcessedPR)
    (pr : PullRequest) (rest : list PullRequest) :
  let one := Polling.scanPullRequest JSON_parse otherToString config env owner repo polled pr in
  let more := Polling.scanPullRequests JSON_parse otherToString config env owner repo
                one.2 rest in
  Polling.scanPullRequests JSON_parse otherToString config env owner repo polled (pr :: rest)
  = (one.1 ++ more.1, more.2).
Proof.
  simpl. destruct (Polling.scanPullRequest _ _ _ _ _ _ _ _) as [calls polled'].
  simpl. by destruct (Polling.scanPullRequests _ _ _ _ _ _ _ _).
Qed.

Lemma scanPullRequests_app (first rest : list PullRequest)
    (polled : gmap string Polling.ProcessedPR) :
  let one := Polling.scanPullRequests JSON_parse otherToString config env owner repo
               polled first in
  let more := Polling.scanPullRequests JSON_parse otherToString config env owner repo
                one.2 rest in
  Polling.scanPullRequests JSON_parse otherToString config env owner repo polled
    (first ++ rest)
  = (one.1 ++ more.1, more.2).
Proof.
  revert polled. induction first as [|pr first IH]; intros polled.
  - simpl. by destruct (Polling.scanPullRequests _ _ _ _ _ _ _ _).
  - cbv zeta in *. rewrite <- app_comm_cons, !scanPullRequests_cons. cbv zeta.
    rewrite IH. simpl. by rewrite app_assoc.
Qed.

Lemma scanPullRequests_lookup (pullRequests : list PullRequest)
    (polled : gmap string Polling.ProcessedPR) (k : string) :
  let polled' := (Polling.scanPullRequests JSON_parse otherToString config env owner repo
                    polled pullRequests).2 in
  ((∀ pr, pr ∈ pullRequests → prKeyOf owner repo (pr_number pr) ≠ k) →
   polled' !! k = polled !! k) ∧
  (is_Some (polled !! k) → is_Some (polled' !! k)).
Proof.
  revert polled. induction pullRequests as [|pr rest IH]; intros polled; [done|].
  cbv zeta. rewrite scanPullRequests_cons. cbv zeta. simpl.
  destruct (scanPullRequest_lookup polled pr k) as [Hother Hkeep].
  destruct (IH (Polling.scanPullRequest JSON_parse otherToString config env owner repo
                  polled pr).2) as [IHother IHkeep].
  split.
  - intros Hnone. rewrite IHother.
    + apply Hother. intros ->. by apply (Hnone pr); [left|].
    + intros pr' Hin. apply Hnone. by right.
  - intros Hsome. by apply IHkeep, Hkeep.
Qed.

End ScanFacts.

(** X9.  A scan handles the open pull requests one after the other: scanning a
    list is scanning its first part and then the rest from the records
    reached.  A pull request whose review throws leaves the records as they
    were and the scan goes on with the next one.  Records of pull requests
    that are not in the list are untouched, and a scan never drops a record.
    When the installation or the list of pull requests cannot be had, the
    scan posts nothing and changes nothing. *)
Theorem scan_failures_stay_local (JSON_parse : string → Result JsValue)
    (otherToString : JsValue → string) (config : Config) (env : Env)
    (owner repo : string) (polled : gmap string Polling.ProcessedPR) :
  let scan := Polling.scanPullRequests JSON_parse otherToString config env owner repo in
  (∀ first rest,
     scan polled (first ++ rest)
     = ((scan polled first).1 ++ (scan (scan polled first).2 rest).1,
        (scan (scan polled first).2 rest).2)) ∧
  (∀ pr rest e,
     completion (reviewPullRequest JSON_parse otherToString config env owner repo
                   (pr_number pr)) = Throw e →
     (scan polled (pr :: rest)).2 = (scan polled rest).2) ∧
  (∀ pullRequests k,
     (∀ pr, pr ∈ pullRequests → prKeyOf owner repo (pr_number pr) ≠ k) →
     (scan polled pullRequests).2 !! k = polled !! k) ∧
  (∀ pullRequests k,
     is_Some (polled !! k) → is_Some ((scan polled pullRequests).2 !! k)) ∧
  (isOk (getRepositoryOctokit env owner repo) = false ∨
   getRepositoryOctokit env owner repo = Ok None ∨
   (∃ octokit, getRepositoryOctokit env owner repo = Ok (Some octokit) ∧
               isOk (pulls_list octokit owner repo) = false) →
   Polling.scanRepository JSON_parse otherToString config env owner repo polled
   = ([], polled)).
Proof.
  intros scan. split_and!.
  - intros first rest. apply scanPullRequests_app.
  - intros pr rest e Hthrow. unfold scan. rewrite scanPullRequests_cons. cbv zeta. simpl.
    rewrite scanPullRequest_state, Hthrow. simpl. by rewrite andb_false_r.
  - intros pullRequests k. apply scanPullRequests_lookup.
  - intros pullRequests k. apply scanPullRequests_lookup.
  - unfold Polling.scanRepository.
    intros [Hfail|[->|(octokit & -> & Hfail)]]; [|done|].
    + by destruct (getRepositoryOctokit env owner repo) as [[?|]|].
    + by destruct (pulls_list octokit owner repo).
Qed.

Lemma scan_failures_stay_local_witness :
  let env := {| getRepositoryOctokit := λ _ _, Ok (Some offlineOctokit);
                callGemini := λ _, offline |} in
  let scan := Polling.scanPullRequests rejectAll plainToString exampleConfig env "o" "r" in
  let pr := examplePR false "sha1" in
  completion (reviewPullRequest rejectAll plainToString exampleConfig env "o" "r"
                (pr_number pr)) = Throw "request failed" ∧
  (scan ∅ [pr; examplePR false "sha2"]).2 = (scan ∅ [examplePR false "sha2"]).2.
Proof.
  intros env scan pr.
  assert (completion (reviewPullRequest rejectAll plainToString exampleConfig env "o" "r"
                        (pr_number pr)) = Throw "request failed") as H by reflexivity.
  split; [exact H|].
  exact (proj1 (proj2 (scan_failures_stay_local rejectAll plainToString exampleConfig env
                         "o" "r" ∅)) pr [examplePR false "sha2"] "request failed" H).
Defined.


(** ** The sweeps of old records *)

Lemma pollingCleanup_lookup (dateOf : string → option Z) (cutoffDate : Z)
    (polled : gmap string Polling.ProcessedPR) (k : string) :
  pollingCleanupOldPRs dateOf cutoffDate polled !! k
  = match polled !! k with
    | Some r => if isBefore dateOf (Polling.updated_at r) cutoffDate then None else Some r
    | None => None
    end.
Proof.
  unfold pollingCleanupOldPRs.
  destruct (polled !! k) as [r|] eqn:Hk.
  - destruct (isBefore dateOf (Polling.updated_at r) cutoffDate) eqn:Hold.
    + apply map_lookup_filter_None. right. intros r' Hr'. simpl.
      rewrite Hk in Hr'. injection Hr' as <-. by rewrite Hold.
    + apply map_lookup_filter_Some. by split.
  - apply map_lookup_filter_None. by left.
Qed.

Lemma webhookCleanup_lookup (dateOf : string → option Z) (cutoffDate : Z)
    (hooked : gmap string Webhook.ProcessedPR) (k : string) :
  webhookCleanupOldPRs dateOf cutoffDate hooked !! k
  = match hooked !! k with
    | Some r => if isBefore dateOf (Webhook.reviewed_at r) cutoffDate then None else Some r
    | None => None
    end.
Proof.
  unfold webhookCleanupOldPRs.
  destruct (hooked !! k) as [r|] eqn:Hk.
  - destruct (isBefore dateOf (Webhook.reviewed_at r) cutoffDate) eqn:Hold.
    + apply map_lookup_filter_None. right. intros r' Hr'. simpl.
      rewrite Hk in Hr'. injection Hr' as <-. by rewrite Hold.
    + apply map_lookup_filter_Some. by split.
  - apply map_lookup_filter_None. by left.
Qed.

(** X10.  The sweep of the polling path drops exactly the records whose
    [updated_at] is a valid date before the cutoff; a record with an invalid
    date is kept by every sweep.  Once the record of a pull request is dropped,
    the next scan reviews the pull request again, also at an unchanged head
    commit. *)
Theorem pollingCleanup_drops_old (dateOf : string → option Z) (cutoffDate : Z)
    (polled : gmap string Polling.ProcessedPR) (owner repo : string) (pr : PullRequest)
    (r : Polling.ProcessedPR) :
  polled !! prKeyOf owner repo (pr_number pr) = Some r →
  let swept := pollingCleanupOldPRs dateOf cutoffDate polled in
  (swept !! prKeyOf owner repo (pr_number pr) = None ↔
     ∃ time, dateOf (Polling.updated_at r) = Some time ∧ (time < cutoffDate)%Z) ∧
  (swept !! prKeyOf owner repo (pr_number pr) = None ∨
   swept !! prKeyOf owner repo (pr_number pr) = Some r) ∧
  (swept !! prKeyOf owner repo (pr_number pr) = None →
   pollReviews swept owner repo pr = true) ∧
  (swept !! prKeyOf owner repo (pr_number pr) = Some r →
   pollReviews swept owner repo pr = pollReviews polled owner repo pr).
Proof.
  intros Hr swept.
  assert (swept !! prKeyOf owner repo (pr_number pr)
          = if isBefore dateOf (Polling.updated_at r) cutoffDate then None else Some r) as Hs.
  { unfold swept. by rewrite pollingCleanup_lookup, Hr. }
  split_and!.
  - rewrite Hs. unfold isBefore.
    destruct (dateOf (Polling.updated_at r)) as [time|].
    + destruct (time <? cutoffDate)%Z eqn:Hlt.
      * split; [|done]. intros _. exists time. split; [done|]. by apply Z.ltb_lt.
      * split; [done|]. intros (t & [= <-] & Ht). apply Z.ltb_ge in Hlt. lia.
    + split; [done|]. by intros (t & ? & _).
  - rewrite Hs. destruct (isBefore _ _ _); [by left | by right].
  - intros Hnone. apply pollReviews_spec. by left.
  - intros Hsome. by rewrite (pollReviews_lookup swept owner repo pr r Hsome),
                             (pollReviews_lookup polled owner repo pr r Hr).
Qed.

Lemma pollingCleanup_drops_old_witness :
  let pr := examplePR false "sha1" in
  let polled := <[prKeyOf "o" "r" 7 := polledRecord pr]> (∅ : gmap string Polling.ProcessedPR) in
  polled !! prKeyOf "o" "r" (pr_number pr) = Some (polledRecord pr) ∧
  pollReviews polled "o" "r" pr = false ∧
  pollReviews (pollingCleanupOldPRs exampleDateOf 1714557600001 polled) "o" "r" pr = true.
Proof.
  intros pr polled.
  assert (polled !! prKeyOf "o" "r" (pr_number pr) = Some (polledRecord pr)) as H
    by apply lookup_insert_eq.
  split; [exact H|]. split; [vm_compute; reflexivity|].
  destruct (pollingCleanup_drops_old exampleDateOf 1714557600001 polled "o" "r" pr
              (polledRecord pr) H) as (Hdrop & _ & Hagain & _).
  apply Hagain. apply Hdrop. exists 1714557600000%Z. split; [reflexivity | lia].
Defined.

(** X11.  The polling path stamps a record with the pull request's own
    [updated_at], not with the time of the review.  So the record of a pull
    request that was last updated before the cutoff is dropped by the first
    sweep after its review, and the next scan reviews it once more: such a
    pull request is reviewed again after every sweep. *)
Theorem stale_pull_request_reviewed_again (JSON_parse : string → Result JsValue)
    (otherToString : JsValue → string) (config : Config) (env : Env)
    (dateOf : string → option Z) (cutoffDate time : Z)
    (owner repo : string) (pr : PullRequest) (polled : gmap string Polling.ProcessedPR) :
  dateOf (pr_updated_at pr) = Some time → (time < cutoffDate)%Z →
  pollReviews polled owner repo pr = true →
  isOk (completion (reviewPullRequest JSON_parse otherToString config env owner repo
                      (pr_number pr))) = true →
  let polled' := (Polling.scanPullRequest JSON_parse otherToString config env owner repo
                    polled pr).2 in
  let swept := pollingCleanupOldPRs dateOf cutoffDate polled' in
  polled' !! prKeyOf owner repo (pr_number pr) = Some (polledRecord pr) ∧
  swept !! prKeyOf owner repo (pr_number pr) = None ∧
  pollReviews swept owner repo pr = true.
Proof.
  intros Hdate Hold Hdue Hok polled' swept.
  assert (polled' !! prKeyOf owner repo (pr_number pr) = Some (polledRecord pr)) as Hrec.
  { unfold polled'. rewrite scanPullRequest_state, Hdue, Hok. apply lookup_insert_eq. }
  assert (swept !! prKeyOf owner repo (pr_number pr) = None) as Hnone.
  { unfold swept. rewrite pollingCleanup_lookup, Hrec. unfold isBefore. simpl.
    rewrite Hdate.
    by replace (time <? cutoffDate)%Z with true by (symmetry; by apply Z.ltb_lt). }
  split_and!; [done..|]. apply pollReviews_spec. by left.
Qed.

Lemma stale_pull_request_reviewed_again_witness :
  let env := exampleEnv false "sha1" in
  let pr := examplePR false "sha1" in
  let polled' := (Polling.scanPullRequest exampleParse plainToString exampleConfig env
                    "o" "r" ∅ pr).2 in
  exampleDateOf (pr_updated_at pr) = Some 1714557600000%Z ∧
  (1714557600000 < 1714557600001)%Z ∧
  pollReviews ∅ "o" "r" pr = true ∧
  isOk (completion (reviewPullRequest exampleParse plainToString exampleConfig env "o" "r"
                      (pr_number pr))) = true ∧
  pollReviews (pollingCleanupOldPRs exampleDateOf 1714557600001 polled') "o" "r" pr = true.
Proof.
  intros env pr polled'.
  assert (exampleDateOf (pr_updated_at pr) = Some 1714557600000%Z) as H1 by reflexivity.
  assert (1714557600000 < 1714557600001)%Z as H2 by lia.
  assert (pollReviews ∅ "o" "r" pr = true) as H3 by reflexivity.
  assert (isOk (completion (reviewPullRequest exampleParse plainToString exampleConfig env
                              "o" "r" (pr_number pr))) = true) as H4
    by (vm_compute; reflexivity).
  split_and!; [exact H1 | exact H2 | exact H3 | exact H4 |].
  exact (proj2 (proj2 (stale_pull_request_reviewed_again exampleParse plainToString
                         exampleConfig env exampleDateOf 1714557600001 1714557600000
                         "o" "r" pr ∅ H1 H2 H3 H4))).
Defined.

(** X12.  The webhook path stamps a record with the time of the review.  A sweep
    keeps the record while the cutoff is not after that time, and with it the
    answer that the commit is already reviewed; a sweep with a later cutoff
    drops it, and a delivery for the same commit starts a review again. *)
Theorem webhookCleanup_keeps_recent (dateOf : string → option Z) (cutoffDate reviewed : Z)
    (hooked : gmap string Webhook.ProcessedPR) (owner repo action : string)
    (prNumber : nat) (headSha now : string) :
  dateOf now = Some reviewed →
  action ∈ Webhook.relevantActions →
  let record := hookedRecord owner repo prNumber headSha now in
  let hooked' := <[prKeyOf owner repo prNumber := record]> hooked in
  let swept := webhookCleanupOldPRs dateOf cutoffDate hooked' in
  let payload := payloadOf action owner repo prNumber headSha in
  ((cutoffDate ≤ reviewed)%Z →
   swept !! prKeyOf owner repo prNumber = Some record ∧
   Webhook.handleDelivery swept payload
   = Webhook.Answered "PR already reviewed for this commit") ∧
  ((reviewed < cutoffDate)%Z →
   swept !! prKeyOf owner repo prNumber = None ∧
   Webhook.handleDelivery swept payload
   = Webhook.Started owner repo prNumber action headSha).
Proof.
  intros Hdate Haction record hooked' swept payload.
  assert (swept !! prKeyOf owner repo prNumber
          = if (reviewed <? cutoffDate)%Z then None else Some record) as Hs.
  { unfold swept. rewrite webhookCleanup_lookup. unfold hooked'.
    rewrite lookup_insert_eq. unfold isBefore. simpl. by rewrite Hdate. }
  unfold payload. rewrite handleDelivery_relevant by done.
  unfold Webhook.alreadyReviewed. rewrite Hs. split.
  - intros Hle. replace (reviewed <? cutoffDate)%Z with false
      by (symmetry; by apply Z.ltb_ge).
    split; [done|]. simpl. by rewrite String.eqb_refl.
  - intros Hlt. replace (reviewed <? cutoffDate)%Z with true
      by (symmetry; by apply Z.ltb_lt).
    done.
Qed.

Lemma webhookCleanup_keeps_recent_witness :
  let now := "2024-05-01T10:00:00Z" in
  let hooked' := <[prKeyOf "o" "r" 7 := hookedRecord "o" "r" 7 "sha1" now]>
                   (∅ : gmap string Webhook.ProcessedPR) in
  exampleDateOf now = Some 1714557600000%Z ∧
  "opened" ∈ Webhook.relevantActions ∧
  (1714557600000 ≤ 1714557600000)%Z ∧
  Webhook.handleDelivery (webhookCleanupOldPRs exampleDateOf 1714557600000 hooked')
    (payloadOf "opened" "o" "r" 7 "sha1")
  = Webhook.Answered "PR already reviewed for this commit".
Proof.
  intros now hooked'.
  assert (exampleDateOf now = Some 1714557600000%Z) as H1 by reflexivity.
  assert ("opened" ∈ Webhook.relevantActions) as H2 by (apply elem_of_cons; by left).
  assert (1714557600000 ≤ 1714557600000)%Z as H3 by lia.
  split_and!; [exact H1 | exact H2 | exact H3 |].
  exact (proj2 (proj1 (webhookCleanup_keeps_recent exampleDateOf 1714557600000 1714557600000
                         ∅ "o" "r" "opened" 7 "sha1" now H1 H2) H3)).
Defined.


(** ** The watched repositories *)

Lemma matchesName_spec (s : string) : matchesName s = true ↔ repoName s.
Proof.
  unfold repoName. induction s as [|c s IH]; simpl.
  - split; [done | by intros [? _]].
  - destruct s as [|c' s].
    + simpl. split.
      * intros Hc. split; [done|]. by repeat constructor.
      * intros [_ Hall]. by inversion Hall.
    + rewrite andb_true_iff, IH. split.
      * intros [Hc [_ Hall]]. split; [done|]. by constructor.
      * intros [_ Hall]. inversion Hall; subst. by split_and!.
Qed.

Lemma splitOn_name (s : string) :
  Forall (λ c, isRepoChar c = true) (list_ascii_of_string s) → splitOn "/" s = [s].
Proof.
  induction s as [|c s IH]; simpl; [done|].
  intros Hall. inversion Hall as [|? ? Hc Hs]; subst.
  destruct (Ascii.eqb_spec c "/") as [->|_]; [done|].
  by rewrite IH.
Qed.

Lemma splitOn_slash (owner rest : string) :
  Forall (λ c, isRepoChar c = true) (list_ascii_of_string owner) →
  splitOn "/" (owner +:+ "/" +:+ rest) = owner :: splitOn "/" rest.
Proof.
  induction owner as [|c owner IH]; intros Hall.
  - reflexivity.
  - inversion Hall as [|? ? Hc Hs]; subst.
    change (String c owner +:+ "/" +:+ rest) with (String c (owner +:+ "/" +:+ rest)).
    simpl. destruct (Ascii.eqb_spec c "/") as [->|_]; [done|].
    by rewrite IH.
Qed.

Lemma matchesRepository_spec (started : bool) (s : string) :
  matchesRepository started s = true ↔
  ∃ owner name, s = owner +:+ "/" +:+ name ∧
                Forall (λ c, isRepoChar c = true) (list_ascii_of_string owner) ∧
                (started = true ∨ owner ≠ "") ∧ repoName name.
Proof.
  revert started. induction s as [|c s IH]; intros started; simpl.
  - split; [done|]. intros (owner & name & Heq & _). by destruct owner.
  - destruct (isRepoChar c) eqn:Hc.
    + rewrite IH. split.
      * intros (owner & name & -> & Hall & _ & Hname).
        exists (String c owner), name. split_and!; [done | by constructor | by right | done].
      * intros (owner & name & Heq & Hall & _ & Hname).
        destruct owner as [|c' owner].
        -- simpl in Heq. injection Heq as -> ->. done.
        -- injection Heq as -> ->. inversion Hall; subst.
           exists owner, name. split_and!; [done | done | by left | done].
    + destruct (Ascii.eqb_spec c "/") as [->|Hne].
      * rewrite andb_true_iff, matchesName_spec. split.
        -- intros [-> Hname]. exists "", s. split_and!; [done | constructor | by left | done].
        -- intros (owner & name & Heq & Hall & Hstart & Hname).
           destruct owner as [|c' owner].
           ++ simpl in Heq. injection Heq as ->. split; [|done].
              by destruct Hstart.
           ++ injection Heq as <- ->. inversion Hall; subst. done.
      * split; [done|]. intros (owner & name & Heq & Hall & _).
        destruct owner as [|c' owner].
        -- simpl in Heq. by injection Heq as -> _.
        -- injection Heq as -> _. inversion Hall; subst. congruence.
Qed.

(** X13.  A text is a valid repository exactly when it is a name, a slash and a
    name, a name being one or more of the letters, digits, underscore, dot and
    dash: one slash, nothing empty.  Such a text splits at the slash into its
    two names. *)
Theorem isValidRepositoryFormat_spec (repo : string) :
  (isValidRepositoryFormat repo = true ↔
   ∃ owner name, repo = owner +:+ "/" +:+ name ∧ repoName owner ∧ repoName name) ∧
  (isValidRepositoryFormat repo = true →
   ∃ r, toRepository repo = Some r ∧ fullName r = repo ∧
        repoName (repo_owner r) ∧ repoName (repo_name r)).
Proof.
  assert (isValidRepositoryFormat repo = true ↔
          ∃ owner name, repo = owner +:+ "/" +:+ name ∧ repoName owner ∧ repoName name) as Hiff.
  { unfold isValidRepositoryFormat. rewrite matchesRepository_spec. split.
    - intros (owner & name & -> & Hall & [?|Hne] & Hname); [done|].
      exists owner, name. by split_and!.
    - intros (owner & name & -> & [Hne Hall] & Hname).
      exists owner, name. split_and!; [done | done | by right | done]. }
  split; [exact Hiff|].
  intros (owner & name & -> & [Hne Hall] & [Hne' Hall'])%Hiff.
  exists {| repo_owner := owner; repo_name := name |}.
  unfold toRepository. rewrite splitOn_slash, splitOn_name by done.
  by split_and!.
Qed.

Lemma isValidRepositoryFormat_spec_witness :
  isValidRepositoryFormat "octo-org/hello_world.js" = true ∧
  ∃ r, toRepository "octo-org/hello_world.js" = Some r ∧
       fullName r = "octo-org/hello_world.js".
Proof.
  assert (isValidRepositoryFormat "octo-org/hello_world.js" = true) as H by reflexivity.
  split; [exact H|].
  destruct (proj2 (isValidRepositoryFormat_spec "octo-org/hello_world.js") H)
    as (r & Hr & Hname & _).
  exists r. split; assumption.
Defined.

Lemma splitOn_nonempty (sep : ascii) (s : string) : splitOn sep s ≠ [].
Proof.
  induction s as [|c s IH]; simpl; [done|].
  destruct (Ascii.eqb c sep); [done|]. by destruct (splitOn sep s).
Qed.

Lemma includes_slash_cons (c : ascii) (s : string) :
  includes (String c s) "/" = Ascii.eqb c "/" || includes s "/".
Proof.
  unfold includes. cbn [String.index String.prefix].
  destruct (ascii_dec "/" c) as [<-|Hne]; [by destruct s|].
  destruct (Ascii.eqb_spec c "/") as [->|_]; [done|].
  by destruct (String.index 0 "/" s).
Qed.

Lemma includes_slash_parts (s : string) :
  includes s "/" = true → ∃ first second rest, splitOn "/" s = first :: second :: rest.
Proof.
  induction s as [|c s IH]; [done|].
  rewrite includes_slash_cons. simpl.
  destruct (Ascii.eqb c "/"); simpl.
  - intros _. pose proof (splitOn_nonempty "/" s).
    destruct (splitOn "/" s) as [|second rest] eqn:Hs; [done|]. by eexists _, _, _.
  - intros Hin. destruct (IH Hin) as (first & second & rest & ->). by eexists _, _, _.
Qed.

Lemma slash_includes (owner name : string) : includes (owner +:+ "/" +:+ name) "/" = true.
Proof.
  induction owner as [|c owner IH].
  - change ("" +:+ "/" +:+ name) with (String "/" name). by rewrite includes_slash_cons.
  - change (String c owner +:+ "/" +:+ name) with (String c (owner +:+ "/" +:+ name)).
    rewrite includes_slash_cons, IH. by destruct (Ascii.eqb c "/").
Qed.

Lemma repositoriesOf_cons (text : string) (repos : list string) (r : Repository) :
  includes text "/" = true → toRepository text = Some r →
  repositoriesOf (text :: repos) = r :: repositoriesOf repos.
Proof.
  intros Hin Hr. unfold repositoriesOf. cbn [List.filter]. rewrite Hin.
  simpl. by rewrite Hr.
Qed.

Lemma repositoriesOf_skip (text : string) (repos : list string) :
  includes text "/" = false → repositoriesOf (text :: repos) = repositoriesOf repos.
Proof. intros Hin. unfold repositoriesOf. cbn [List.filter]. by rewrite Hin. Qed.

Lemma repositoriesOf_parts (repos : list string) :
  Forall2 (λ text r, ∃ rest, splitOn "/" text = repo_owner r :: repo_name r :: rest)
    (List.filter (λ repo, includes repo "/") repos) (repositoriesOf repos).
Proof.
  induction repos as [|text repos IH]; [constructor|].
  cbn [List.filter]. destruct (includes text "/") eqn:Hin.
  - destruct (includes_slash_parts text Hin) as (first & second & rest & Hs).
    rewrite (repositoriesOf_cons text repos {| repo_owner := first; repo_name := second |})
      by (done || (unfold toRepository; by rewrite Hs)).
    constructor; [|done]. by exists rest.
  - by rewrite repositoriesOf_skip.
Qed.

Lemma repositoriesOf_valid (repos : list string) :
  Forall (λ repo, isValidRepositoryFormat repo = true) repos →
  map fullName (repositoriesOf repos) = repos.
Proof.
  induction 1 as [|text repos Hvalid _ IH]; [done|].
  unfold isValidRepositoryFormat in Hvalid.
  apply matchesRepository_spec in Hvalid as (owner & name & -> & Hall & _ & [_ Hall']).
  rewrite (repositoriesOf_cons _ repos {| repo_owner := owner; repo_name := name |}).
  - simpl. by rewrite IH.
  - apply slash_includes.
  - unfold toRepository. by rewrite splitOn_slash, splitOn_name.
Qed.

Lemma uniqueFrom_spec (xs seen : list string) :
  NoDup (uniqueFrom seen xs) ∧
  (∀ x, x ∈ uniqueFrom seen xs ↔ x ∈ xs ∧ x ∉ seen) ∧
  sublist (uniqueFrom seen xs) xs.
Proof.
  revert seen. induction xs as [|x xs IH]; intros seen; simpl.
  - split_and!; [constructor | | done]. intros x. split; [by intros ?%elem_of_nil|].
    by intros [?%elem_of_nil _].
  - destruct (bool_decide (x ∈ seen)) eqn:Hseen.
    + apply bool_decide_eq_true in Hseen.
      destruct (IH seen) as (Hnd & Hin & Hsub). split_and!; [done | | by constructor].
      intros y. rewrite Hin, elem_of_cons. split; [intros [? ?]; split; [by right|done]|].
      intros [[->|?] Hy]; [done|]. by split.
    + apply bool_decide_eq_false in Hseen.
      destruct (IH (x :: seen)) as (Hnd & Hin & Hsub). split_and!.
      * constructor; [|done]. rewrite Hin. intros [_ Hx]. apply Hx. by left.
      * intros y. rewrite !elem_of_cons, Hin, elem_of_cons. split.
        -- intros [->|[Hy Hn]]; [by split; [left|]|]. split; [by right|].
           intros Hs. apply Hn. by right.
        -- intros [[->|Hy] Hn]; [by left|].
           destruct (decide (y = x)) as [->|Hne]; [by left|].
           right. split; [done|]. by intros [?|?].
      * by constructor.
Qed.

Lemma filter_all_true {A : Type} (f : A → bool) (l : list A) :
  Forall (λ x, f x = true) l → List.filter f l = l.
Proof. induction 1 as [|x l Hx _ IH]; [done|]. simpl. by rewrite Hx, IH. Qed.

(** X14.  What [loadRepositories] watches.  Every text with a slash among the
    listed names yields one repository, made of the text before the first
    slash and the text up to the second one: anything after a second slash is
    dropped.  When all listed names are valid repositories, the watched list
    is the list of distinct names, first occurrences in order: it names each
    repository once, and each by its full name.  When the app's list cannot
    be had, the names registered by the users alone are watched; without
    GitHub App nothing is. *)
Theorem loadRepositories_watched (allRepos userRepos : list string) (e : string) :
  let listed := unique (allRepos ++ userRepos) in
  let watched := loadRepositories (Some (Ok allRepos)) userRepos in
  NoDup listed ∧ (∀ text, text ∈ listed ↔ text ∈ allRepos ++ userRepos) ∧
  Forall2 (λ text r, ∃ rest, splitOn "/" text = repo_owner r :: repo_name r :: rest)
    (List.filter (λ repo, includes repo "/") listed) watched ∧
  (Forall (λ repo, isValidRepositoryFormat repo = true) (allRepos ++ userRepos) →
   map fullName watched = listed) ∧
  loadRepositories (Some (Throw e)) userRepos = repositoriesOf userRepos ∧
  loadRepositories None userRepos = [].
Proof.
  intros listed watched.
  destruct (uniqueFrom_spec (allRepos ++ userRepos) []) as (Hnd & Hin & Hsub).
  split_and!; [done | | | | done | done].
  - intros text. unfold listed, unique. rewrite Hin. split; [by intros [? _]|].
    intros ?. split; [done|]. by intros ?%elem_of_nil.
  - apply repositoriesOf_parts.
  - intros Hvalid. apply repositoriesOf_valid.
    apply Forall_forall. intros text Htext.
    apply Hin in Htext as [Htext _]. by eapply Forall_forall in Hvalid.
Qed.

Lemma loadRepositories_watched_witness :
  let allRepos := ["octo/app"; "octo/lib"] in
  let userRepos := ["octo/lib"; "me/tool"] in
  Forall (λ repo, isValidRepositoryFormat repo = true) (allRepos ++ userRepos) ∧
  map fullName (loadRepositories (Some (Ok allRepos)) userRepos)
  = ["octo/app"; "octo/lib"; "me/tool"].
Proof.
  intros allRepos userRepos.
  assert (Forall (λ repo, isValidRepositoryFormat repo = true) (allRepos ++ userRepos)) as H.
  { repeat constructor. }
  split; [exact H|].
  rewrite (proj1 (proj2 (proj2 (proj2 (loadRepositories_watched allRepos userRepos ""))))
             H).
  vm_compute. reflexivity.
Defined.


(** ** The [/webhook] route *)

Lemma verifyWebhookSignature_true (hmac : string → string → string)
    (secret payload : string) (signature : option string) :
  verifyWebhookSignature hmac secret payload signature = Ok true →
  secret ≠ "" ∧ signature = Some (expectedSignature hmac secret payload).
Proof.
  unfold verifyWebhookSignature. destruct signature as [signature|]; [|done].
  destruct (String.eqb_spec signature "") as [->|_]; [done|].
  destruct (String.eqb_spec secret "") as [->|Hs]; [done|]. simpl.
  destruct (_ =? _); [|done].
  destruct (String.eqb_spec signature (expectedSignature hmac secret payload)) as [->|_];
    done.
Qed.

(** X15.  With a secret configured, the route goes on to read a delivery only when
    its signature header is exactly [sha256=] followed by the HMAC of the body
    under the app's secret: every answer with status 200, and every review
    started, comes from such a delivery.  A signature that is missing, empty,
    or wrong but of the right length is answered with 401.  A signature of any
    other length makes the comparison throw, and the answer is 500, not 401.
    Without a server secret the signature is not looked at. *)
Theorem webhookRoute_signature (hmac : string → string → string)
    (parsePayload : string → Result Webhook.WebhookPayload)
    (webhookSecret secret : string) (processedPRs : gmap string Webhook.ProcessedPR)
    (req : Delivery) :
  let expected := expectedSignature hmac secret (delivery_body req) in
  let routed := webhookRoute hmac parsePayload webhookSecret (Some secret) processedPRs req in
  (webhookSecret ≠ "" →
   (routed_status routed = 200 ∨ routed_started routed ≠ None →
    secret ≠ "" ∧ delivery_signature req = Some expected) ∧
   (delivery_signature req = None ∨ delivery_signature req = Some "" ∨ secret = "" →
    routed_status routed = 401 ∧ routed_started routed = None) ∧
   (∀ signature,
      delivery_signature req = Some signature → signature ≠ "" → secret ≠ "" →
      signature ≠ expected →
      routed_started routed = None ∧
      routed_status routed
      = if byteLength signature =? byteLength expected then 401 else 500)) ∧
  (webhookSecret = "" →
   ∀ signature,
     routed = webhookRoute hmac parsePayload webhookSecret (Some secret) processedPRs
                {| delivery_body := delivery_body req; delivery_signature := signature |}).
Proof.
  intros expected routed. split.
  - intros Hsecret. apply String.eqb_neq in Hsecret.
    unfold routed, webhookRoute. rewrite Hsecret. split_and!.
    + destruct (verifyWebhookSignature hmac secret (delivery_body req)
                  (delivery_signature req)) as [[]|] eqn:Hv; simpl.
      * intros _. by apply verifyWebhookSignature_true in Hv.
      * intros [?|?]; done.
      * intros [?|?]; done.
    + unfold verifyWebhookSignature.
      intros [-> | [-> | ->]]; [done | done |].
      destruct (delivery_signature req) as [signature|]; [|done].
      by rewrite String.eqb_refl, orb_true_r.
    + intros signature -> Hne Hs Hwrong.
      unfold verifyWebhookSignature.
      apply String.eqb_neq in Hne, Hs, Hwrong. rewrite Hne, Hs. simpl.
      fold expected. destruct (byteLength signature =? byteLength expected); [|done].
      by rewrite Hwrong.
  - intros -> signature. reflexivity.
Qed.

Lemma webhookRoute_signature_witness :
  let req := {| delivery_body := "{}"; delivery_signature := Some "sha256=0fs3cret" |} in
  let routed := webhookRoute exampleHmac exampleParsePayload "s3cret" (Some "s3cret") ∅ req in
  "s3cret" ≠ "" ∧
  routed_status routed = 200 ∧
  delivery_signature req = Some (expectedSignature exampleHmac "s3cret" "{}").
Proof.
  intros req routed.
  assert ("s3cret" ≠ "") as Hs by discriminate.
  assert (routed_status routed = 200) as H by reflexivity.
  split; [exact Hs|]. split; [exact H|].
  exact (proj2 (proj1 (proj1 (webhookRoute_signature exampleHmac exampleParsePayload
                                "s3cret" "s3cret" ∅ req) Hs) (or_introl H))).
Defined.


(** ** The keys of the processed pull requests *)

Lemma includes_slash_occurs (s : string) : includes s "/" = occurs "/" s.
Proof.
  induction s as [|c s IH]; [done|].
  rewrite includes_slash_cons, IH. reflexivity.
Qed.

Lemma splitOn_parts (sep : ascii) (s : string) :
  Forall (λ part, occurs sep part = false) (splitOn sep s).
Proof.
  induction s as [|c s IH]; simpl; [by repeat constructor|].
  destruct (Ascii.eqb c sep) eqn:Hc; [by constructor|].
  destruct (splitOn sep s) as [|part parts]; [by repeat constructor; cbn; rewrite Hc|].
  inversion IH as [|? ? Hpart Hparts]; subst. constructor; [|done].
  cbn [occurs]. by rewrite Hc.
Qed.

Lemma repositoriesOf_owners (repos : list string) :
  Forall (λ r, occurs "/" (repo_owner r) = false) (repositoriesOf repos).
Proof.
  pose proof (repositoriesOf_parts repos) as Hparts.
  induction Hparts as [|text r texts rs [rest Hsplit] _ IH]; constructor; [|done].
  pose proof (splitOn_parts "/" text) as Hall. rewrite Hsplit in Hall.
  by inversion Hall.
Qed.

Lemma loadRepositories_owners (appRepos : option (Result (list string)))
    (userRepos : list string) :
  Forall (λ r, occurs "/" (repo_owner r) = false) (loadRepositories appRepos userRepos).
Proof.
  destruct appRepos as [[allRepos|e]|]; simpl; [| |constructor]; apply repositoriesOf_owners.
Qed.

Section ScanAllFacts.

Context (JSON_parse : string → Result JsValue) (otherToString : JsValue → string)
        (config : Config) (env : Env).

Lemma scanRepository_lookup (owner repo : string)
    (polled : gmap string Polling.ProcessedPR) (k : string) :
  let polled' := (Polling.scanRepository JSON_parse otherToString config env owner repo
                    polled).2 in
  ((∀ n, prKeyOf owner repo n ≠ k) → polled' !! k = polled !! k) ∧
  (is_Some (polled !! k) → is_Some (polled' !! k)).
Proof.
  intros polled'. unfold polled', Polling.scanRepository.
  destruct (getRepositoryOctokit env owner repo) as [[octokit|]|]; [|done..].
  destruct (pulls_list octokit owner repo) as [pullRequests|]; [|done].
  destruct (scanPullRequests_lookup JSON_parse otherToString config env owner repo
              pullRequests polled k) as [Hother Hkeep].
  split; [|done]. intros Hk. apply Hother. intros pr _. apply Hk.
Qed.

Lemma scanRepositories_cons (polled : gmap string Polling.ProcessedPR)
    (r : Repository) (rest : list Repository) :
  let one := Polling.scanRepository JSON_parse otherToString config env
               (repo_owner r) (repo_name r) polled in
  let more := scanRepositories JSON_parse otherToString config env one.2 rest in
  scanRepositories JSON_parse otherToString config env polled (r :: rest)
  = (one.1 ++ more.1, more.2).
Proof.
  simpl. destruct (Polling.scanRepository _ _ _ _ _ _ _) as [calls polled'].
  simpl. by destruct (scanRepositories _ _ _ _ _ _).
Qed.

Lemma scanRepositories_lookup (repositories : list Repository)
    (polled : gmap string Polling.ProcessedPR) (k : string) :
  let polled' := (scanRepositories JSON_parse otherToString config env polled
                    repositories).2 in
  ((∀ r n, r ∈ repositories → prKeyOf (repo_owner r) (repo_name r) n ≠ k) →
   polled' !! k = polled !! k) ∧
  (is_Some (polled !! k) → is_Some (polled' !! k)).
Proof.
  revert polled. induction repositories as [|r rest IH]; intros polled; [done|].
  cbv zeta. rewrite scanRepositories_cons. cbv zeta. simpl.
  destruct (scanRepository_lookup (repo_owner r) (repo_name r) polled k) as [Hother Hkeep].
  destruct (IH (Polling.scanRepository JSON_parse otherToString config env
                  (repo_owner r) (repo_name r) polled).2) as [IHother IHkeep].
  split.
  - intros Hnone. rewrite IHother.
    + apply Hother. intros n. apply Hnone. by left.
    + intros r' n Hin. apply Hnone. by right.
  - intros Hsome. by apply IHkeep, Hkeep.
Qed.

End ScanAllFacts.

(** X16.  The key of a record, [owner/repo#number], names one pull request: when
    neither owner has a slash in it, equal keys mean the same owner, the same
    repository and the same number.  The condition is needed: with a slash in
    the owner, two repositories share their keys. *)
Theorem prKeyOf_names_one_pull_request :
  (∀ (owner owner' repo repo' : string) (n n' : nat),
     includes owner "/" = false → includes owner' "/" = false →
     prKeyOf owner repo n = prKeyOf owner' repo' n' →
     owner = owner' ∧ repo = repo' ∧ n = n') ∧
  (∀ (a b c : string) (n : nat),
     prKeyOf a (b +:+ "/" +:+ c) n = prKeyOf (a +:+ "/" +:+ b) c n).
Proof.
  split.
  - intros owner owner' repo repo' n n' Ho Ho'. rewrite includes_slash_occurs in Ho, Ho'.
    by apply prKeyOf_cut.
  - intros a b c n. unfold prKeyOf. by rewrite !string_app_assoc.
Qed.

Lemma prKeyOf_names_one_pull_request_witness :
  includes "octo" "/" = false ∧ includes "octo" "/" = false ∧
  prKeyOf "octo" "cat" 7 = prKeyOf "octo" "cat" 7 ∧
  ("octo" = "octo" ∧ "cat" = "cat" ∧ 7 = 7).
Proof.
  assert (includes "octo" "/" = false) as Ho by reflexivity.
  assert (prKeyOf "octo" "cat" 7 = prKeyOf "octo" "cat" 7) as Hk by reflexivity.
  split_and!; [exact Ho | exact Ho | exact Hk |
    apply (proj1 prKeyOf_names_one_pull_request "octo" "octo" "cat" "cat" 7 7 Ho Ho Hk)..].
Defined.

(** X17.  A scan of all repositories loads the watched repositories and scans them
    in turn.  The records of a pull request change only while its own
    repository is scanned: when the repository is not among the watched ones,
    its records are after the scan what they were before, whatever the other
    scans posted.  No scan drops a record. *)
Theorem scanAllRepositories_frame (JSON_parse : string → Result JsValue)
    (otherToString : JsValue → string) (config : Config) (env : Env)
    (appRepos : option (Result (list string))) (userRepos : list string)
    (polled : gmap string Polling.ProcessedPR) (owner repo : string) (n : nat) :
  let polled' := (scanAllRepositories JSON_parse otherToString config env appRepos userRepos
                    polled).2 in
  includes owner "/" = false →
  {| repo_owner := owner; repo_name := repo |} ∉ loadRepositories appRepos userRepos →
  polled' !! prKeyOf owner repo n = polled !! prKeyOf owner repo n ∧
  (∀ k, is_Some (polled !! k) → is_Some (polled' !! k)).
Proof.
  intros polled' Ho Hout. unfold polled', scanAllRepositories.
  rewrite includes_slash_occurs in Ho. split.
  - apply scanRepositories_lookup. intros [o r] m Hin Hkey. simpl in Hkey.
    pose proof (loadRepositories_owners appRepos userRepos) as Howners.
    rewrite Forall_forall in Howners. specialize (Howners _ Hin). simpl in Howners.
    apply prKeyOf_cut in Hkey as (-> & -> & _); done.
  - intros k. apply scanRepositories_lookup.
Qed.

Lemma scanAllRepositories_frame_witness :
  let polled' := (scanAllRepositories exampleParse plainToString exampleConfig
                    (exampleEnv false "sha1") (Some (Ok ["o/r"])) ["o/r"; "plain"] ∅).2 in
  includes "x" "/" = false ∧
  ({| repo_owner := "x"; repo_name := "y" |}
     ∉ loadRepositories (Some (Ok ["o/r"])) ["o/r"; "plain"]) ∧
  polled' !! prKeyOf "x" "y" 7 = (∅ : gmap string Polling.ProcessedPR) !! prKeyOf "x" "y" 7.
Proof.
  intros polled'.
  assert (includes "x" "/" = false) as Ho by reflexivity.
  assert ({| repo_owner := "x"; repo_name := "y" |}
            ∉ loadRepositories (Some (Ok ["o/r"])) ["o/r"; "plain"]) as Hout
    by (change (loadRepositories (Some (Ok ["o/r"])) ["o/r"; "plain"])
          with [ {| repo_owner := "o"; repo_name := "r" |} ];
        by intros ?%list_elem_of_singleton).
  split; [exact Ho|]. split; [exact Hout|].
  exact (proj1 (scanAllRepositories_frame exampleParse plainToString exampleConfig
                  (exampleEnv false "sha1") (Some (Ok ["o/r"])) ["o/r"; "plain"] ∅
                  "x" "y" 7 Ho Hout)).
Defined.


(** ** The [.env] file *)

Lemma split_lines_cat (a b : string) :
  split_lines (a +:+ nl +:+ b) = split_lines a ++ split_lines b.
Proof.
  induction a as [|c a IH].
  - change ("" +:+ nl +:+ b) with (String newline b). cbn [split_lines].
    by rewrite Ascii.eqb_refl.
  - change (String c a +:+ nl +:+ b) with (String c (a +:+ nl +:+ b)).
    cbn [split_lines]. rewrite IH.
    destruct (Ascii.eqb c newline); [done|].
    pose proof (split_lines_nonempty a). by destruct (split_lines a).
Qed.

Lemma split_join_lines (ls : list string) :
  ls ≠ [] → split_lines (join_lines ls) = concat (map split_lines ls).
Proof.
  induction ls as [|l ls IH]; [done|]. intros _.
  destruct ls as [|l' ls].
  - simpl. by rewrite app_nil_r.
  - change (join_lines (l :: l' :: ls)) with (l +:+ nl +:+ join_lines (l' :: ls)).
    rewrite split_lines_cat, IH by done. reflexivity.
Qed.

Lemma concat_split_oneLine (ls : list string) :
  Forall oneLine ls → concat (map split_lines ls) = ls.
Proof.
  induction 1 as [|l ls Hl _ IH]; [done|].
  simpl. by rewrite split_lines_one, IH.
Qed.

Lemma split_lines_prefix (p s : string) :
  oneLine p →
  ∃ first rest, split_lines s = first :: rest ∧
                split_lines (p +:+ s) = (p +:+ first) :: rest.
Proof.
  intros Hp. pose proof (split_lines_nonempty s) as Hne.
  destruct (split_lines s) as [|first rest] eqn:Hs; [done|].
  exists first, rest. split; [done|].
  induction p as [|c p IH]; [done|].
  destruct Hp as [Hc Hp].
  change (String c p +:+ s) with (String c (p +:+ s)). cbn [split_lines].
  by rewrite Hc, IH.
Qed.

Lemma updateEnvLines_nonempty (key value : string) (lines : list string) :
  updateEnvLines key value lines ≠ [].
Proof.
  unfold updateEnvLines. destruct (findKey _ _) as [i|] eqn:Hfind.
  - destruct lines as [|l lines]; [done|]. by destruct i.
  - by destruct lines.
Qed.

Lemma findKey_Some (prefix : string) (lines : list string) (i : nat) :
  findKey prefix lines = Some i ↔
  (∃ line, lines !! i = Some line ∧ startsWith (trim line) prefix = true) ∧
  (∀ j line, j < i → lines !! j = Some line → startsWith (trim line) prefix = false).
Proof.
  revert i. induction lines as [|l lines IH]; intros i.
  - simpl. split; [done|]. by intros [(line & Hl & _) _].
  - cbn [findKey]. destruct (startsWith (trim l) prefix) eqn:Hl.
    + split.
      * intros [= <-]. split; [by exists l|]. intros j line Hj. lia.
      * intros [_ Hmin]. destruct i as [|i]; [done|].
        specialize (Hmin 0 l ltac:(lia) eq_refl). congruence.
    + destruct i as [|i].
      * split; [by destruct (findKey prefix lines)|].
        intros [(line & [= <-] & Hs) _]. congruence.
      * transitivity (findKey prefix lines = Some i).
        { destruct (findKey prefix lines) as [k|]; simpl; [|done].
          split; [by intros [= ->] | by intros [= ->]]. }
        rewrite IH. split.
        -- intros [Hat Hmin]. split; [done|].
           intros [|j] line Hj; simpl; [by intros [= <-]|].
           apply Hmin. lia.
        -- intros [Hat Hmin]. split; [done|].
           intros j line Hj Hlook. apply (Hmin (S j) line); [lia | done].
Qed.

Lemma findKey_None (prefix : string) (lines : list string) :
  findKey prefix lines = None ↔
  Forall (λ line, startsWith (trim line) prefix = false) lines.
Proof.
  induction lines as [|l lines IH]; [by split; [constructor|]|].
  cbn [findKey]. destruct (startsWith (trim l) prefix) eqn:Hl.
  - split; [done|]. intros Hall. inversion Hall; congruence.
  - destruct (findKey prefix lines).
    + split; [done|]. intros Hall. inversion Hall as [|? ? _ Hrest]; subst.
      by apply IH in Hrest.
    + split; [|done]. intros _. constructor; [done|]. by apply IH.
Qed.

(** *** White space at the ends *)

Lemma rev_app_acc (s acc : string) : String.rev_app s acc = String.rev s +:+ acc.
Proof.
  unfold String.rev. revert acc. induction s as [|c s IH]; intros acc; [reflexivity|].
  cbn [String.rev_app]. rewrite (IH (String c acc)), (IH (String c "")).
  by rewrite string_app_assoc.
Qed.

Lemma rev_cat (a b : string) : String.rev (a +:+ b) = String.rev b +:+ String.rev a.
Proof.
  induction a as [|c a IH].
  - change (String.rev b = String.rev b +:+ ""). by rewrite string_app_empty_r.
  - change (String c a +:+ b) with (String c (a +:+ b)).
    unfold String.rev at 1 3. cbn [String.rev_app].
    rewrite !rev_app_acc, IH. by rewrite string_app_assoc.
Qed.

Lemma rev_rev (s : string) : String.rev (String.rev s) = s.
Proof.
  induction s as [|c s IH]; [done|].
  change (String c s) with (String c "" +:+ s) at 1.
  rewrite rev_cat, rev_cat, IH. reflexivity.
Qed.

Lemma trimStart_keeps (a q : string) (c : ascii) :
  isWhiteSpace c = false →
  ∃ x, trimStart (a +:+ String c q) = x +:+ String c q.
Proof.
  intros Hc. induction a as [|b a IH].
  - exists "". change (trimStart (String c q) = String c q).
    cbn [trimStart]. by rewrite Hc.
  - change (String b a +:+ String c q) with (String b (a +:+ String c q)).
    cbn [trimStart]. destruct (isWhiteSpace b); [done|]. by exists (String b a).
Qed.

Lemma trimEnd_keeps (p q : string) (c : ascii) :
  isWhiteSpace c = false →
  ∃ x, trimEnd (p +:+ String c q) = p +:+ String c x.
Proof.
  intros Hc. unfold trimEnd.
  change (String c q) with (String c "" +:+ q).
  rewrite rev_cat, rev_cat. change (String.rev (String c "")) with (String c "").
  rewrite string_app_assoc. change (String c "" +:+ String.rev p) with (String c (String.rev p)).
  destruct (trimStart_keeps (String.rev q) (String.rev p) c Hc) as [x ->].
  exists (String.rev x).
  change (String c (String.rev p)) with (String c "" +:+ String.rev p).
  rewrite rev_cat, rev_cat, rev_rev. change (String.rev (String c "")) with (String c "").
  rewrite string_app_assoc. reflexivity.
Qed.

Lemma startsWith_app (p q : string) : startsWith (p +:+ q) p = true.
Proof.
  induction p as [|c p IH]; [by destruct q|].
  change (String c p +:+ q) with (String c (p +:+ q)). cbn [startsWith].
  by rewrite Ascii.eqb_refl.
Qed.

Lemma entry_found (key rest : string) :
  startsInText key = true →
  startsWith (trim (key +:+ "=" +:+ rest)) (key +:+ "=") = true.
Proof.
  intros Hkey. unfold trim.
  assert (trimStart (key +:+ "=" +:+ rest) = key +:+ "=" +:+ rest) as ->.
  { destruct key as [|c key]; [reflexivity|]. simpl in Hkey.
    change (String c key +:+ "=" +:+ rest) with (String c (key +:+ "=" +:+ rest)).
    cbn [trimStart]. by destruct (isWhiteSpace c). }
  change (key +:+ "=" +:+ rest) with (key +:+ String "=" rest).
  destruct (trimEnd_keeps key rest "=" eq_refl) as [x ->].
  change (key +:+ String "=" x) with (key +:+ "=" +:+ x).
  rewrite <- string_app_assoc. apply startsWith_app.
Qed.

(** *** The lines written *)

Lemma findKey_bound (prefix : string) (lines : list string) (i : nat) :
  findKey prefix lines = Some i → i < length lines.
Proof.
  intros [(line & Hline & _) _]%findKey_Some. by eapply lookup_lt_Some.
Qed.

Lemma findKey_before (prefix : string) (lines : list string) (i : nat) :
  findKey prefix lines = Some i →
  Forall (λ line, startsWith (trim line) prefix = false) (take i lines).
Proof.
  intros [_ Hmin]%findKey_Some. apply Forall_forall. intros line Hin.
  apply list_elem_of_lookup in Hin as [j Hj].
  pose proof (lookup_lt_Some _ _ _ Hj) as Hlt. rewrite length_take in Hlt.
  rewrite lookup_take_lt in Hj by lia. apply (Hmin j); [lia | done].
Qed.

Lemma findKey_first (prefix : string) (pre rest : list string) (line : string) :
  Forall (λ line, startsWith (trim line) prefix = false) pre →
  startsWith (trim line) prefix = true →
  findKey prefix (pre ++ line :: rest) = Some (length pre).
Proof.
  intros Hpre Hline. induction Hpre as [|l pre Hl _ IH]; simpl.
  - by rewrite Hline.
  - by rewrite Hl, IH.
Qed.

Lemma updateEnvLines_split (key value : string) (lines : list string) :
  ∃ pre post,
    Forall (λ line, startsWith (trim line) (key +:+ "=") = false) pre ∧
    updateEnvLines key value lines = pre ++ (key +:+ "=" +:+ value) :: post ∧
    match findKey (key +:+ "=") lines with
    | Some i => pre = take i lines ∧ post = drop (S i) lines
    | None => pre = lines ∧ post = []
    end.
Proof.
  unfold updateEnvLines. destruct (findKey (key +:+ "=") lines) as [i|] eqn:Hfind.
  - exists (take i lines), (drop (S i) lines). split_and!; [|
      |done..].
    + by apply findKey_before.
    + apply findKey_bound in Hfind. by rewrite insert_take_drop.
  - exists lines, []. split_and!; [|done..]. by apply findKey_None.
Qed.

Lemma oneLine_app (a b : string) : oneLine a → oneLine b → oneLine (a +:+ b).
Proof.
  intros Ha Hb. induction a as [|c a IH]; [done|].
  destruct Ha as [Hc Ha]. change (String c a +:+ b) with (String c (a +:+ b)).
  split; [done | by apply IH].
Qed.

Lemma entry_lines (key value : string) :
  oneLine key →
  ∃ first rest,
    split_lines value = first :: rest ∧
    split_lines (key +:+ "=" +:+ value) = (key +:+ "=" +:+ first) :: rest.
Proof.
  intros Hkey.
  destruct (split_lines_prefix (key +:+ "=") value) as (first & rest & Hv & He).
  { apply oneLine_app; [done|]. by split. }
  exists first, rest. split; [done|]. by rewrite !string_app_assoc in He.
Qed.

Lemma updateEnvFile_split (key value : string) (file : option string) :
  let lines := split_lines (default "" file) in
  split_lines (updateEnvFile key value file)
  = match findKey (key +:+ "=") lines with
    | Some i => take i lines ++ split_lines (key +:+ "=" +:+ value) ++ drop (S i) lines
    | None => lines ++ split_lines (key +:+ "=" +:+ value)
    end.
Proof.
  intros lines. unfold updateEnvFile. fold lines.
  rewrite split_join_lines by apply updateEnvLines_nonempty.
  pose proof (split_lines_oneLine (default "" file)) as Hone. fold lines in Hone.
  destruct (updateEnvLines_split key value lines) as (pre & post & _ & -> & Hcase).
  rewrite map_app, concat_app. cbn [map concat].
  destruct (findKey (key +:+ "=") lines) as [i|]; destruct Hcase as [-> ->].
  - rewrite !concat_split_oneLine; [done | by apply Forall_drop | by apply Forall_take].
  - rewrite concat_split_oneLine by done. by rewrite app_nil_r.
Qed.

Lemma startsWith_empty (key : string) : startsWith "" (key +:+ "=") = false.
Proof. by destruct key. Qed.

(** X18.  [updateEnvFile] changes the first line that holds the key, and no other:
    the lines before and after it are written back as they were, in their
    order; without such a line the entry goes after the last line.  A value
    with line breaks in it spreads over as many lines.  For a file that does
    not exist or is empty, the text written starts with an empty line. *)
Theorem updateEnvFile_lines (key value : string) (file : option string) :
  let lines := split_lines (default "" file) in
  let entry := split_lines (key +:+ "=" +:+ value) in
  split_lines (updateEnvFile key value file)
  = match findKey (key +:+ "=") lines with
    | Some i => take i lines ++ entry ++ drop (S i) lines
    | None => lines ++ entry
    end ∧
  (default "" file = "" →
   updateEnvFile key value file = nl +:+ key +:+ "=" +:+ value).
Proof.
  split; [apply updateEnvFile_split|].
  intros Hempty. unfold updateEnvFile, updateEnvLines. rewrite Hempty.
  cbn [split_lines findKey]. change (trim "") with "".
  by rewrite startsWith_empty.
Qed.

Lemma updateEnvFile_lines_witness :
  default "" (None : option string) = "" ∧
  updateEnvFile "MAX_FILES" "5" None = nl +:+ "MAX_FILES" +:+ "=" +:+ "5".
Proof.
  assert (default "" (None : option string) = "") as Hempty by reflexivity.
  split; [exact Hempty|].
  exact (proj2 (updateEnvFile_lines "MAX_FILES" "5" None) Hempty).
Defined.

(** X19.  Writing the same entry a second time finds the line the first writing
    left, when the key is one line that does not start with white space.  The
    second writing then adds one line for each line break of the value: a
    value of one line leaves the file as it is, a value of several lines makes
    the file longer each time. *)
Theorem updateEnvFile_again (key value : string) (file : option string) :
  oneLine key → startsInText key = true →
  let once := updateEnvFile key value file in
  let twice := updateEnvFile key value (Some once) in
  length (split_lines twice) + 1
  = length (split_lines once) + length (split_lines value) ∧
  (oneLine value → twice = once).
Proof.
  intros Hkey Hstart once twice.
  destruct (entry_lines key value Hkey) as (first & more & Hvalue & Hentry).
  pose proof (split_lines_oneLine (default "" file)) as Hone.
  pose proof (split_lines_oneLine value) as Hmore. rewrite Hvalue in Hmore.
  apply Forall_cons in Hmore as [_ Hmore].
  assert (∃ pre post,
            Forall (λ line, startsWith (trim line) (key +:+ "=") = false) pre ∧
            Forall oneLine pre ∧ Forall oneLine post ∧
            split_lines once = pre ++ (key +:+ "=" +:+ first) :: more ++ post)
    as (pre & post & Hpre & Hpre1 & Hpost1 & Honce).
  { unfold once. rewrite updateEnvFile_split. cbv zeta. rewrite Hentry.
    destruct (findKey _ _) as [i|] eqn:Hfind.
    - exists (take i (split_lines (default "" file))),
             (drop (S i) (split_lines (default "" file))).
      split_and!; [by apply findKey_before | by apply Forall_take | by apply Forall_drop |].
      by rewrite <- app_comm_cons.
    - exists (split_lines (default "" file)), [].
      split_and!; [by apply findKey_None | done | constructor |].
      by rewrite app_nil_r. }
  assert (split_lines twice
          = pre ++ ((key +:+ "=" +:+ first) :: more) ++ more ++ post) as Htwice.
  { unfold twice. rewrite updateEnvFile_split. cbv zeta.
    change (default "" (Some once)) with once.
    rewrite Honce, Hentry.
    rewrite (findKey_first _ pre (more ++ post)) by (done || by apply entry_found).
    rewrite take_app_length. f_equal. f_equal.
    rewrite (cons_middle _ pre), app_assoc.
    replace (S (length pre)) with (length (pre ++ [key +:+ "=" +:+ first]))
      by (rewrite length_app; simpl; lia).
    by rewrite drop_app_length. }
  split.
  - rewrite Htwice, Honce, Hvalue. rewrite !length_app. cbn [length].
    rewrite !length_app. lia.
  - intros Hv. rewrite (split_lines_one value Hv) in Hvalue.
    injection Hvalue as <- <-.
    rewrite <- (join_split twice), <- (join_split once). by rewrite Htwice, Honce.
Qed.

Lemma updateEnvFile_again_witness :
  oneLine "MAX_FILES" ∧ startsInText "MAX_FILES" = true ∧
  let once := updateEnvFile "MAX_FILES" "5" (Some "A=1") in
  let twice := updateEnvFile "MAX_FILES" "5" (Some once) in
  length (split_lines twice) + 1 = length (split_lines once) + length (split_lines "5").
Proof.
  assert (oneLine "MAX_FILES") as Hkey by (simpl; tauto).
  assert (startsInText "MAX_FILES" = true) as Hstart by reflexivity.
  split; [exact Hkey|]. split; [exact Hstart|].
  exact (proj1 (updateEnvFile_again "MAX_FILES" "5" (Some "A=1") Hkey Hstart)).
Defined.


(** ** The files selected for review *)

Lemma reviewFiles_no_patch (JSON_parse : string → Result JsValue) (config : Config)
    (env : Env) (files : list ChangedFile) :
  Forall (λ file, hasPatch file = false) files →
  reviewFiles JSON_parse env files = Ok [].
Proof.
  induction 1 as [|file files Hfile _ IH]; [done|].
  cbn [reviewFiles]. by rewrite Hfile, IH.
Qed.

Lemma take_filter_app {A : Type} (f : A → bool) (n : nat) (l more : list A) :
  n ≤ length (List.filter f l) →
  take n (List.filter f (l ++ more)) = take n (List.filter f l).
Proof. intros Hn. rewrite List.filter_app. by apply take_app_le. Qed.

Lemma filter_no_patch (config : Config) (files : list ChangedFile) :
  Forall (λ file, isReviewableFile config file = true → hasPatch file = false) files →
  Forall (λ file, hasPatch file = false) (List.filter (isReviewableFile config) files).
Proof.
  induction 1 as [|file files Hfile _ IH]; [constructor|].
  cbn [List.filter]. destruct (isReviewableFile config file) eqn:Hr; [|done].
  constructor; [by apply Hfile | done].
Qed.

(** X20.  The files to review are the first [maxFiles] files that
    [isReviewableFile] lets through, chosen before the patches are looked at.
    When these are files without a patch, the review ends normally and posts
    nothing, whatever files come after them in the pull request and whatever
    the model would answer. *)
Theorem files_without_patch_take_the_places (JSON_parse : string → Result JsValue)
    (otherToString : JsValue → string) (config : Config) (env : Env)
    (owner repo : string) (prNumber : nat) (octokit : Octokit)
    (pullRequest : PullRequest) (files more : list ChangedFile) :
  getRepositoryOctokit env owner repo = Ok (Some octokit) →
  pulls_get octokit owner repo prNumber = Ok pullRequest →
  pulls_listFiles octokit owner repo prNumber = Ok (files ++ more) →
  maxFiles config ≤ length (List.filter (isReviewableFile config) files) →
  Forall (λ file, isReviewableFile config file = true → hasPatch file = false) files →
  reviewPullRequest JSON_parse otherToString config env owner repo prNumber
  = quiet (Ok ()).
Proof.
  intros Hclient Hget Hfiles Hfull Hnone. unfold reviewPullRequest.
  rewrite Hclient, andThen_quiet_ok, Hget, andThen_quiet_ok.
  destruct (pr_draft pullRequest); [done|].
  destruct (negb _); [done|].
  rewrite Hfiles, andThen_quiet_ok.
  destruct (length (files ++ more) =? 0); [done|].
  rewrite take_filter_app by done.
  destruct (length (take _ _) =? 0); [done|].
  destruct (getExistingComments_returns octokit owner repo prNumber) as [existing ->].
  rewrite andThen_quiet_ok.
  rewrite (reviewFiles_no_patch JSON_parse config env).
  - by rewrite andThen_quiet_ok.
  - by apply Forall_take, filter_no_patch.
Qed.

Lemma files_without_patch_take_the_places_witness :
  let config := {| maxFiles := 1; maxLinesPerFile := 500 |} in
  let env := {| getRepositoryOctokit := λ _ _, Ok (Some binaryFirstOctokit);
                callGemini := λ _, Ok "[one finding]" |} in
  maxFiles config ≤ length (List.filter (isReviewableFile config) [binaryFile]) ∧
  reviewPullRequest exampleParse plainToString config env "o" "r" 7 = quiet (Ok ()).
Proof.
  intros config env.
  assert (maxFiles config ≤ length (List.filter (isReviewableFile config) [binaryFile]))
    as Hfull by (vm_compute; lia).
  split; [exact Hfull|].
  apply (files_without_patch_take_the_places exampleParse plainToString config env
           "o" "r" 7 binaryFirstOctokit (examplePR false "sha1") [binaryFile] [exampleFile]
           eq_refl eq_refl eq_refl Hfull).
  apply Forall_singleton. intros _. reflexivity.
Defined.
